(** * ctx-tui: the tree state model, the view projector and the serializer

    A shallow embedding of [main.go].  The Go program keeps a mutable tree
    of [*node] values, owned through the [children] slices; the [parent]
    back-reference is written by the loader and never read.  The tree is
    embedded as an inductive rose tree, and a [*node] pointer as the
    address of the node: the list of child indices leading to it from the
    root.  A mutation through a pointer is an update at that address.

    The filesystem is an input of every step (a snapshot of what
    [os.ReadDir] and [os.ReadFile] answer while the step runs); the
    watcher is the list of the paths registered with it.  The two bubbles
    widgets (the list and the text area) are external: they are taken
    through an interface, and a small concrete instance is given for
    running examples. *)

From Stdlib Require Import List String Ascii Bool Arith NArith ZArith Lia.
Import ListNotations.
Local Open Scope string_scope.
Local Open Scope list_scope.


(** ** Strings *)

Module Str.

(** [strings.Contains(s, sub)] *)
Fixpoint Contains (s sub : string) : bool :=
  String.prefix sub s ||
  match s with
  | EmptyString => false
  | String _ s' => Contains s' sub
  end.

(** The one-byte string ["\x00"]. *)
Definition nul : string := String Ascii.zero EmptyString.

Definition isSep (c : ascii) : bool := Ascii.eqb c "/"%char.

Fixpoint dropWhile {A} (f : A -> bool) (l : list A) : list A :=
  match l with
  | [] => []
  | x :: l' => if f x then dropWhile f l' else l
  end.

Fixpoint takeWhile {A} (f : A -> bool) (l : list A) : list A :=
  match l with
  | [] => []
  | x :: l' => if f x then x :: takeWhile f l' else []
  end.

Definition isEmpty (s : string) : bool :=
  match s with EmptyString => true | _ => false end.

(** [filepath.Base] on a Unix path: the empty path is ["."], trailing
    separators are stripped, the last element is kept, and a path of
    separators only is ["/"]. *)
Definition Base (p : string) : string :=
  if isEmpty p then "."
  else
    let r := dropWhile isSep (rev (list_ascii_of_string p)) in
    let e := rev (takeWhile (fun c => negb (isSep c)) r) in
    match e with
    | [] => "/"
    | _ => string_of_list_ascii e
    end.

(** The elements of a path: what stands between its separators, from
    left to right; [cur] is the element being read, last byte first. *)
Fixpoint elementsFrom (cur : list ascii) (p : list ascii) : list string :=
  match p with
  | [] => [string_of_list_ascii (rev cur)]
  | c :: p' =>
      if isSep c
      then string_of_list_ascii (rev cur) :: elementsFrom [] p'
      else elementsFrom (c :: cur) p'
  end.

Definition elements (p : string) : list string :=
  elementsFrom [] (list_ascii_of_string p).

Definition isRooted (p : string) : bool :=
  match p with
  | String c _ => isSep c
  | EmptyString => false
  end.

(** One turn of the loop of [filepath.Clean], on the element [e].  The
    buffer of the Go code is kept by elements: [out] holds those written
    so far, the last one first, and [dotdot] counts the elements at the
    bottom that a [..] may not remove (the leading [..] of a path that
    is not rooted).  An empty element and [.] are dropped; [..] removes
    the last element when there is one to remove, is dropped at the
    root, and is written otherwise; any other element is written. *)
Definition cleanStep (rooted : bool) (st : list string * nat) (e : string)
    : list string * nat :=
  let (out, dotdot) := st in
  if String.eqb e "" then st
  else if String.eqb e "." then st
  else if String.eqb e ".." then
    if Nat.ltb dotdot (List.length out) then (tl out, dotdot)
    else if rooted then st
    else (".."%string :: out, S (List.length out))
  else (e :: out, dotdot).

(** The elements with a separator between two of them. *)
Fixpoint joinSep (l : list string) : string :=
  match l with
  | [] => ""
  | e :: l' =>
      match l' with
      | [] => e
      | _ => (e ++ "/" ++ joinSep l')%string
      end
  end.

(** [filepath.Clean] on a Unix path: the empty path is ["."]; the
    elements are gone through by [cleanStep]; what is left is written
    with single separators, after the leading separator of a rooted
    path, and is ["."] when nothing is left of a path not rooted. *)
Definition Clean (p : string) : string :=
  if isEmpty p then "."
  else
    let rooted := isRooted p in
    let out := fst (fold_left (cleanStep rooted) (elements p) ([], 0)) in
    let body := joinSep (rev out) in
    if rooted then ("/" ++ body)%string
    else if isEmpty body then "." else body.

(** [filepath.Dir] on a Unix path: all of the path up to the last
    separator, that separator included, then [Clean]. *)
Definition Dir (p : string) : string :=
  let r := dropWhile (fun c => negb (isSep c)) (rev (list_ascii_of_string p)) in
  Clean (string_of_list_ascii (rev r)).

(** [filepath.Join(dir, name)]: the elements from the first one that is
    not empty on, put together with separators, then [Clean]; the empty
    string when both are empty. *)
Definition Join (dir name : string) : string :=
  if negb (isEmpty dir) then Clean (dir ++ "/" ++ name)
  else if negb (isEmpty name) then Clean name
  else "".

End Str.

(** ** The node store *)

#[local] Unset Elimination Schemes.
Inductive node : Type :=
  mkNode {
    path : string;
    isDir : bool;
    children : list node;
    expanded : bool;
    selected : bool;
    childrenLoaded : bool
  }.
#[local] Set Elimination Schemes.

(** A [*node]: where the node sits below the root. *)
Definition addr := list nat.

Definition setChildren (n : node) (cs : list node) : node :=
  mkNode (path n) (isDir n) cs (expanded n) (selected n) (childrenLoaded n).
Definition setExpanded (n : node) (b : bool) : node :=
  mkNode (path n) (isDir n) (children n) b (selected n) (childrenLoaded n).
Definition setSelected (n : node) (b : bool) : node :=
  mkNode (path n) (isDir n) (children n) (expanded n) b (childrenLoaded n).
Definition setChildrenLoaded (n : node) (b : bool) : node :=
  mkNode (path n) (isDir n) (children n) (expanded n) (selected n) b.

(** The node behind a pointer. *)
Fixpoint nodeAt (n : node) (a : addr) : option node :=
  match a with
  | [] => Some n
  | i :: a' =>
      match nth_error (children n) i with
      | Some c => nodeAt c a'
      | None => None
      end
  end.

Fixpoint setNth {A} (l : list A) (i : nat) (x : A) : list A :=
  match l, i with
  | [], _ => []
  | _ :: l', O => x :: l'
  | y :: l', S i' => y :: setNth l' i' x
  end.

(** A write through a pointer: the node at [a] becomes [f] of itself, the
    rest of the tree is shared. *)
Fixpoint updateAt (n : node) (a : addr) (f : node -> node) : node :=
  match a with
  | [] => f n
  | i :: a' =>
      match nth_error (children n) i with
      | Some c => setChildren n (setNth (children n) i (updateAt c a' f))
      | None => n
      end
  end.

(** Every node of a subtree, the node itself first. *)
Fixpoint subtree (n : node) : list node :=
  n :: flat_map subtree (children n).

Definition descendants (n : node) : list node :=
  flat_map subtree (children n).

(** ** Selection engine *)

Fixpoint toggleSelect (n : node) (on : bool) : node :=
  let n1 := setSelected n on in
  if isDir n then
    setChildren n1 (map (fun c => toggleSelect c on) (children n))
  else n1.

(** ** The filesystem and the watcher *)

Record dirEntry : Type := mkEntry { Name : string; IsDir : bool }.

Record filesystem : Type :=
  mkFs {
    ReadDir : string -> option (list dirEntry);
    ReadFile : string -> option string
  }.

(** The paths handed to [watcher.Add], oldest first. *)
Definition fsWatcher := list string.

Definition watcherAdd (w : fsWatcher) (p : string) : fsWatcher := w ++ [p].

(** ** Lazy directory loader *)

(** The loop of [loadChildren]: one fresh node per entry, appended to the
    children; a directory is registered with the watcher. *)
Fixpoint loadEntries (dir : string) (files : list dirEntry)
    (cs : list node) (w : fsWatcher) : list node * fsWatcher :=
  match files with
  | [] => (cs, w)
  | f :: files' =>
      let childPath := Str.Join dir (Name f) in
      let child := mkNode childPath (IsDir f) [] false false false in
      let cs' := cs ++ [child] in
      let w' := if isDir child then watcherAdd w childPath else w in
      loadEntries dir files' cs' w'
  end.

Definition loadChildren (fs : filesystem) (n : node) (w : fsWatcher)
    : node * fsWatcher :=
  match ReadDir fs (path n) with
  | None => (n, w)
  | Some files =>
      let (cs, w') := loadEntries (path n) files [] w in
      (setChildrenLoaded (setChildren n cs) true, w')
  end.

(** ** Go loops *)

Section Loops.
Context {A St B : Type}.

(** [for i, x := range l { s = body i x s }], counting from [i]. *)
Definition forRange (body : nat -> A -> St -> St)
    : list A -> nat -> St -> St :=
  fix go (l : list A) (i : nat) (s : St) : St :=
    match l with
    | [] => s
    | x :: l' => go l' (S i) (body i x s)
    end.

(** [for i, x := range l { if r := body i x; r != nil { return r } }] *)
Definition rangeFind (body : nat -> A -> option B)
    : list A -> nat -> option B :=
  fix go (l : list A) (i : nat) : option B :=
    match l with
    | [] => None
    | x :: l' =>
        match body i x with
        | Some b => Some b
        | None => go l' (S i)
        end
    end.
End Loops.

(** ** View projector *)

Record item : Type := mkItem { item_node : addr; item_depth : nat }.

(** The closure [recurse] of [flatten]; [here] is the pointer [n] and
    [flat] the captured slice, threaded through. *)
Fixpoint recurse (n : node) (here : addr) (d : nat) (flat : list item)
    : list item :=
  let flat1 := flat ++ [mkItem here d] in
  if expanded n then
    forRange (fun i c acc => recurse c (here ++ [i]) (d + 1) acc)
      (children n) 0 flat1
  else flat1.

Definition flatten (root : node) : list item :=
  forRange (fun i c acc => recurse c [i] 0 acc) (children root) 0 [].

(** ** Store lookup *)

Fixpoint findNode (n : node) (here : addr) (p : string) : option addr :=
  if String.eqb (path n) p then Some here
  else if childrenLoaded n then
    rangeFind (fun i c => findNode c (here ++ [i]) p) (children n) 0
  else None.

(** ** Artifact serializer *)

Definition nl : string := String (ascii_of_nat 10) EmptyString.

Fixpoint hasSelected (n : node) : bool :=
  if selected n && negb (isDir n) then true
  else if childrenLoaded n then existsb hasSelected (children n)
  else false.

(** The test both tree loops apply to a child: [c.selected || hasSelected(c)]. *)
Definition keepChild (c : node) : bool := selected c || hasSelected c.

Definition connector (isLast : bool) : string :=
  if isLast then "└── " else "├── ".

Definition continuation (isLast : bool) : string :=
  if isLast then "    " else "│   ".

(** The second loop of [generateTreeRec] and of [generateFileTree]: each
    kept child is rendered and appended, the last one with [isLast].  A
    kept child comes with its renderer, so that the recursion stays
    structural. *)
Definition renderKept (kept : list (node * (string -> bool -> string)))
    (prefix : string) (s : string) : string :=
  forRange
    (fun i cr acc =>
       (acc ++ snd cr prefix (Nat.eqb i (List.length kept - 1)))%string)
    kept 0 s.

Definition keptOf {R : Type} (cs : list (node * R)) : list (node * R) :=
  filter (fun cr => keepChild (fst cr)) cs.

Fixpoint generateTreeRec (n : node) (prefix : string) (isLast : bool)
    : string :=
  let name := Str.Base (path n) in
  let s := (prefix ++ connector isLast ++ name ++ nl)%string in
  let prefix' := (prefix ++ continuation isLast)%string in
  let kept := keptOf (map (fun c => (c, generateTreeRec c)) (children n)) in
  renderKept kept prefix' s.

Definition generateFileTree (root : node) : string :=
  let kept := keptOf (map (fun c => (c, generateTreeRec c)) (children root)) in
  renderKept kept "" "".

(** The closure [collect] of [generatePrompt], with the captured slice. *)
Fixpoint collect (n : node) (selectedFiles : list string) : list string :=
  let sf := if selected n && negb (isDir n)
            then selectedFiles ++ [path n] else selectedFiles in
  if childrenLoaded n then
    fold_left (fun acc c => collect c acc) (children n) sf
  else sf.

Definition placeholder : string := "[Binary file]".

Definition fileContent (fs : filesystem) (p : string) : string :=
  match ReadFile fs p with
  | None => placeholder
  | Some b => if Str.Contains b Str.nul then placeholder else b
  end.

Definition fileBlock (fs : filesystem) (p : string) : string :=
  (("<file>" ++ nl ++ "<file_path>" ++ p ++ "</file_path>" ++ nl
      ++ "<file_content>" ++ nl)
   ++ fileContent fs p
   ++ (nl ++ "</file_content>" ++ nl ++ "</file>" ++ nl))%string.

(** [generatePrompt] on the model's root and the text area's value. *)
Definition generatePrompt (fs : filesystem) (root : node) (value : string)
    : string :=
  let sb := ("<file_tree>" ++ nl)%string in
  let sb := (sb ++ generateFileTree root)%string in
  let sb := (sb ++ ("</file_tree>" ++ nl))%string in
  let selectedFiles := collect root [] in
  let sb :=
    fold_left (fun sb p => (sb ++ fileBlock fs p)%string) selectedFiles sb in
  (sb ++ ("<user_request>" ++ nl ++ value ++ nl ++ "</user_request>"))%string.

(** ** Messages and widgets *)

Inductive sessionState : Type := fileTreeView | textAreaView | acceptView.

(** [fsnotify.Op] is a bit set held in a [uint32]. *)
Module Op.
Definition Create : N := 1.
Definition Write : N := 2.
Definition Remove : N := 4.
Definition Rename : N := 8.
Definition Chmod : N := 16.
End Op.

Record Event : Type := mkEvent { ev_Name : string; ev_Op : N }.

(** A [tea.Msg].  A key message is known by [msg.String()]. *)
Inductive Msg : Type :=
| WindowSizeMsg (Width Height : Z)
| KeyMsg (key : string)
| fsEventMsg (ev : Event)
| fsErrMsg (e : string)
| otherMsg (tag : nat).

(** What [Update] returns beside the model: no command, [tea.Quit], or a
    batch of the commands of the widgets and of [watchCmd], which are
    not looked into. *)
Inductive Cmd : Type := cmdNil | cmdQuit | cmdBatch.

(** Go's [int] is 64 bits wide here. *)
Definition wrapInt (z : Z) : Z := ((z + 2 ^ 63) mod 2 ^ 64 - 2 ^ 63)%Z.

(** The calls [main.go] makes into [bubbles/list] and [bubbles/textarea]. *)
Class Widgets : Type :=
  {
    listModel : Type;
    textareaModel : Type;
    list_New : list item -> listModel;
    list_SetSize : listModel -> Z -> Z -> listModel;
    list_SetItems : listModel -> list item -> listModel;
    list_Select : listModel -> nat -> listModel;
    list_SettingFilter : listModel -> bool;
    list_SelectedItem : listModel -> option item;
    list_Update : listModel -> Msg -> listModel;
    textarea_New : textareaModel;
    textarea_SetWidth : textareaModel -> Z -> textareaModel;
    textarea_SetHeight : textareaModel -> Z -> textareaModel;
    textarea_Focus : textareaModel -> textareaModel;
    textarea_Blur : textareaModel -> textareaModel;
    textarea_Update : textareaModel -> Msg -> textareaModel;
    textarea_Value : textareaModel -> string
  }.

(** ** The session *)

Section Session.
Context {W : Widgets}.

Record model : Type :=
  mkModel {
    m_list : listModel;
    textarea : textareaModel;
    watcher : fsWatcher;
    root : node;
    flatItems : list item;
    focus : sessionState;
    err : option string;
    prompt : string;
    width : Z;
    height : Z;
    quitting : bool
  }.

Definition set_list (m : model) (l : listModel) : model :=
  mkModel l (textarea m) (watcher m) (root m) (flatItems m) (focus m)
    (err m) (prompt m) (width m) (height m) (quitting m).
Definition set_textarea (m : model) (t : textareaModel) : model :=
  mkModel (m_list m) t (watcher m) (root m) (flatItems m) (focus m)
    (err m) (prompt m) (width m) (height m) (quitting m).
Definition set_watcher (m : model) (w : fsWatcher) : model :=
  mkModel (m_list m) (textarea m) w (root m) (flatItems m) (focus m)
    (err m) (prompt m) (width m) (height m) (quitting m).
Definition set_root (m : model) (r : node) : model :=
  mkModel (m_list m) (textarea m) (watcher m) r (flatItems m) (focus m)
    (err m) (prompt m) (width m) (height m) (quitting m).
Definition set_flatItems (m : model) (f : list item) : model :=
  mkModel (m_list m) (textarea m) (watcher m) (root m) f (focus m)
    (err m) (prompt m) (width m) (height m) (quitting m).
Definition set_focus (m : model) (s : sessionState) : model :=
  mkModel (m_list m) (textarea m) (watcher m) (root m) (flatItems m) s
    (err m) (prompt m) (width m) (height m) (quitting m).
Definition set_err (m : model) (e : option string) : model :=
  mkModel (m_list m) (textarea m) (watcher m) (root m) (flatItems m)
    (focus m) e (prompt m) (width m) (height m) (quitting m).
Definition set_prompt (m : model) (p : string) : model :=
  mkModel (m_list m) (textarea m) (watcher m) (root m) (flatItems m)
    (focus m) (err m) p (width m) (height m) (quitting m).
Definition set_size (m : model) (w h : Z) : model :=
  mkModel (m_list m) (textarea m) (watcher m) (root m) (flatItems m)
    (focus m) (err m) (prompt m) w h (quitting m).
Definition set_quitting (m : model) (q : bool) : model :=
  mkModel (m_list m) (textarea m) (watcher m) (root m) (flatItems m)
    (focus m) (err m) (prompt m) (width m) (height m) q.

(** [newModel]; [abs] is what [filepath.Abs] answers.  When it fails
    the Go model holds the error and nothing else (no tree, no
    widgets): there is no session state to speak of.  The watcher is
    taken to be created. *)
Definition newModel (abs : option string) (fs : filesystem)
    : option model :=
  match abs with
  | None => None
  | Some abspath =>
      let root := mkNode abspath true [] true false false in
      let w := watcherAdd [] abspath in
      let (root, w) := loadChildren fs root w in
      let flat := flatten root in
      Some (mkModel (list_New flat) textarea_New w root flat
              fileTreeView None "" 0%Z 0%Z false)
  end.

(** [it.(item).node.path] *)
Definition itemPath (r : node) (it : item) : option string :=
  option_map path (nodeAt r (item_node it)).

(** The loop that finds the row to select again after a toggle. *)
Definition reselect (r : node) (curPath : string) (flat : list item)
    (l : listModel) : listModel :=
  match
    rangeFind
      (fun idx it =>
         match itemPath r it with
         | Some p => if String.eqb p curPath then Some idx else None
         | None => None
         end) flat 0
  with
  | Some idx => list_Select l idx
  | None => l
  end.

(** [case "enter"] of the tree view. *)
Definition keyEnter (fs : filesystem) (m : model) : model :=
  match list_SelectedItem (m_list m) with
  | Some sel =>
      match nodeAt (root m) (item_node sel) with
      | Some n =>
          if isDir n then
            let curPath := path n in
            let n1 := setExpanded n (negb (expanded n)) in
            let (n2, w) :=
              if expanded n1 && negb (childrenLoaded n1)
              then loadChildren fs n1 (watcher m)
              else (n1, watcher m) in
            let r := updateAt (root m) (item_node sel) (fun _ => n2) in
            let flat := flatten r in
            let l := list_SetItems (m_list m) flat in
            let l := reselect r curPath flat l in
            set_list (set_flatItems (set_watcher (set_root m r) w) flat) l
          else m
      | None => m
      end
  | None => m
  end.

(** [case " "] of the tree view. *)
Definition keySpace (m : model) : model :=
  match list_SelectedItem (m_list m) with
  | Some sel =>
      match nodeAt (root m) (item_node sel) with
      | Some n =>
          let on := negb (selected n) in
          set_root m
            (updateAt (root m) (item_node sel)
               (fun n => toggleSelect n on))
      | None => m
      end
  | None => m
  end.

(** [case fsEventMsg]. *)
Definition onFsEvent (fs : filesystem) (m : model) (ev : Event) : model :=
  let dir := Str.Dir (ev_Name ev) in
  match findNode (root m) [] dir with
  | Some a =>
      match nodeAt (root m) a with
      | Some n =>
          if expanded n && negb (N.eqb (ev_Op ev) Op.Write) then
            let (n', w) := loadChildren fs n (watcher m) in
            let r := updateAt (root m) a (fun _ => n') in
            let flat := flatten r in
            set_list (set_flatItems (set_watcher (set_root m r) w) flat)
              (list_SetItems (m_list m) flat)
          else m
      | None => m
      end
  | None => m
  end.

Definition Update (fs : filesystem) (m : model) (msg : Msg)
    : model * Cmd :=
  match msg with
  | WindowSizeMsg w h =>
      let m := set_size m w h in
      let m :=
        set_list m
          (list_SetSize (m_list m) (Z.quot w 2) (wrapInt (h - 4))) in
      let t := textarea_SetWidth (textarea m) (wrapInt (Z.quot w 2 - 2)) in
      let t := textarea_SetHeight t (wrapInt (h - 10)) in
      (set_textarea m t, cmdNil)
  | KeyMsg k =>
      if String.eqb k "ctrl+c" || String.eqb k "q" then
        (set_quitting m true, cmdQuit)
      else
        match focus m with
        | fileTreeView =>
            let m1 :=
              if negb (list_SettingFilter (m_list m)) then
                if String.eqb k "enter" then keyEnter fs m
                else if String.eqb k " " then keySpace m
                else if String.eqb k "tab" then
                  set_textarea (set_focus m textAreaView)
                    (textarea_Focus (textarea m))
                else m
              else m in
            (set_list m1 (list_Update (m_list m1) msg), cmdBatch)
        | textAreaView =>
            let m1 :=
              if String.eqb k "tab" then
                set_textarea (set_focus m acceptView)
                  (textarea_Blur (textarea m))
              else m in
            (set_textarea m1 (textarea_Update (textarea m1) msg), cmdBatch)
        | acceptView =>
            if String.eqb k "enter" then
              (set_prompt m
                 (generatePrompt fs (root m) (textarea_Value (textarea m))),
               cmdQuit)
            else if String.eqb k "tab" then
              (set_focus m fileTreeView, cmdBatch)
            else (m, cmdBatch)
        end
  | fsEventMsg ev => (onFsEvent fs m ev, cmdBatch)
  | fsErrMsg e => (set_err m (Some e), cmdBatch)
  | otherMsg _ =>
      let m := set_list m (list_Update (m_list m) msg) in
      (set_textarea m (textarea_Update (textarea m) msg), cmdBatch)
  end.

(** What [main] hands to the clipboard once the program has returned
    the final model: the prompt, when there is one. *)
Definition output (m : model) : option string :=
  if Str.isEmpty (prompt m) then None else Some (prompt m).

(** The states a session passes through: the start, and every step
    that did not end it. *)
Inductive reachable : model -> Prop :=
| reach_start abspath fs m :
    newModel (Some abspath) fs = Some m -> reachable m
| reach_step m fs msg :
    reachable m -> snd (Update fs m msg) <> cmdQuit ->
    reachable (fst (Update fs m msg)).

End Session.

(** ** Running a session *)

Section Run.
Context {W : Widgets}.

(** Feeds the messages to [Update] one after the other, each with the
    filesystem of its moment, until one ends the session. *)
Fixpoint runFrom (m : model) (evs : list (filesystem * Msg)) : model * bool :=
  match evs with
  | [] => (m, false)
  | (fs, msg) :: evs' =>
      match Update fs m msg with
      | (m', cmdQuit) => (m', true)
      | (m', _) => runFrom m' evs'
      end
  end.

(** A whole session: the start at [abspath], then the messages. *)
Definition sessionFrom (abspath : string) (fs : filesystem)
    (evs : list (filesystem * Msg)) : option (model * bool) :=
  match newModel (Some abspath) fs with
  | Some m0 => Some (runFrom m0 evs)
  | None => None
  end.

End Run.

(** ** A small instance of the widgets

    Enough of the two widgets to run sessions: a cursor over the rows
    moved by the arrow keys, a filter prompt opened by ["/"] and closed
    by ["enter"] or ["esc"], and a text area that appends a typed
    character while it has the focus. *)

Module Simple.

Record slist : Type :=
  mkList { s_items : list item; s_cursor : nat; s_filtering : bool }.

Record sarea : Type := mkArea { s_value : string; s_focused : bool }.

Definition listUpdate (l : slist) (msg : Msg) : slist :=
  match msg with
  | KeyMsg k =>
      if s_filtering l then
        if String.eqb k "enter" || String.eqb k "esc"
        then mkList (s_items l) (s_cursor l) false
        else l
      else if String.eqb k "/" then mkList (s_items l) (s_cursor l) true
      else if String.eqb k "down" then
        if Nat.ltb (S (s_cursor l)) (List.length (s_items l))
        then mkList (s_items l) (S (s_cursor l)) false
        else l
      else if String.eqb k "up" then
        mkList (s_items l) (pred (s_cursor l)) false
      else l
  | _ => l
  end.

Definition areaUpdate (t : sarea) (msg : Msg) : sarea :=
  match msg with
  | KeyMsg k =>
      if s_focused t && Nat.eqb (String.length k) 1
      then mkArea (s_value t ++ k)%string true
      else t
  | _ => t
  end.

#[export] Instance widgets : Widgets :=
  {|
    listModel := slist;
    textareaModel := sarea;
    list_New := fun its => mkList its 0 false;
    list_SetSize := fun l _ _ => l;
    list_SetItems := fun l its => mkList its (s_cursor l) (s_filtering l);
    list_Select := fun l i => mkList (s_items l) i (s_filtering l);
    list_SettingFilter := s_filtering;
    list_SelectedItem := fun l => nth_error (s_items l) (s_cursor l);
    list_Update := listUpdate;
    textarea_New := mkArea "" false;
    textarea_SetWidth := fun t _ => t;
    textarea_SetHeight := fun t _ => t;
    textarea_Focus := fun t => mkArea (s_value t) true;
    textarea_Blur := fun t => mkArea (s_value t) false;
    textarea_Update := areaUpdate;
    textarea_Value := s_value
  |}.

(** Feeds the messages to [Update] one after the other, each with the
    filesystem of its moment, until one ends the session. *)
Fixpoint run (m : model) (evs : list (filesystem * Msg)) : model * bool :=
  match evs with
  | [] => (m, false)
  | (fs, msg) :: evs' =>
      match Update fs m msg with
      | (m', cmdQuit) => (m', true)
      | (m', _) => run m' evs'
      end
  end.

(** A whole session: the start at [abspath], then the messages. *)
Definition session (abspath : string) (fs : filesystem)
    (evs : list (filesystem * Msg)) : option (model * bool) :=
  match newModel (Some abspath) fs with
  | Some m0 => Some (run m0 evs)
  | None => None
  end.

End Simple.

(** ** A text area that takes the runes of a key

    A key pressed with alt held reaches the program as the rune with the
    alt flag set: [msg.String()] is ["alt+"] followed by the rune, and
    the text area, which has no binding for it, inserts the rune.  The
    list is the one of [Simple]. *)

Module Runes.

Definition keyRunes (k : string) : string :=
  if String.prefix "alt+" k
  then String.substring 4 (String.length k - 4) k
  else k.

Definition areaUpdate (t : Simple.sarea) (msg : Msg) : Simple.sarea :=
  match msg with
  | KeyMsg k =>
      if Simple.s_focused t && Nat.eqb (String.length (keyRunes k)) 1
      then Simple.mkArea (Simple.s_value t ++ keyRunes k)%string true
      else t
  | _ => t
  end.

Definition widgets : Widgets :=
  {|
    listModel := Simple.slist;
    textareaModel := Simple.sarea;
    list_New := fun its => Simple.mkList its 0 false;
    list_SetSize := fun l _ _ => l;
    list_SetItems :=
      fun l its => Simple.mkList its (Simple.s_cursor l) (Simple.s_filtering l);
    list_Select :=
      fun l i => Simple.mkList (Simple.s_items l) i (Simple.s_filtering l);
    list_SettingFilter := Simple.s_filtering;
    list_SelectedItem :=
      fun l => nth_error (Simple.s_items l) (Simple.s_cursor l);
    list_Update := Simple.listUpdate;
    textarea_New := Simple.mkArea "" false;
    textarea_SetWidth := fun t _ => t;
    textarea_SetHeight := fun t _ => t;
    textarea_Focus := fun t => Simple.mkArea (Simple.s_value t) true;
    textarea_Blur := fun t => Simple.mkArea (Simple.s_value t) false;
    textarea_Update := areaUpdate;
    textarea_Value := Simple.s_value
  |}.

End Runes.

(** ** Vocabulary of the properties *)

(** Induction on a node with the property known of its children. *)
Section NodeInduction.
Variable P : node -> Prop.
Hypothesis step : forall n, Forall P (children n) -> P n.

Fixpoint node_ind (n : node) : P n :=
  step n
    ((fix go (cs : list node) : Forall P cs :=
        match cs with
        | [] => Forall_nil P
        | c :: cs' => Forall_cons c (node_ind c) (go cs')
        end) (children n)).
End NodeInduction.

(** The fields of a node other than its children. *)
Definition own (n : node) : string * bool * bool * bool * bool :=
  (path n, isDir n, expanded n, selected n, childrenLoaded n).

(** What holds of every node the program builds: only a directory is
    expanded, and only a loaded directory has children. *)
Definition nodeOk (n : node) : bool :=
  implb (expanded n) (isDir n) &&
  match children n with
  | [] => true
  | _ => isDir n && childrenLoaded n
  end.

Fixpoint wf (n : node) : bool := nodeOk n && forallb wf (children n).

(** The walk of [flatten] in the words of its description: a node, then,
    when it is expanded, the walks of its children in their order, one
    level deeper. *)
Definition flatMapI {A B : Type} (f : nat -> A -> list B)
    : list A -> nat -> list B :=
  fix go (l : list A) (i : nat) : list B :=
    match l with
    | [] => []
    | x :: l' => f i x ++ go l' (S i)
    end.

Fixpoint preorder (n : node) (here : addr) (d : nat) : list item :=
  mkItem here d ::
  (if expanded n
   then flatMapI (fun i c => preorder c (here ++ [i]) (d + 1)) (children n) 0
   else []).

Definition flattenSpec (root : node) : list item :=
  flatMapI (fun i c => preorder c [i] 0) (children root) 0.

Fixpoint isPrefix (a b : addr) : bool :=
  match a, b with
  | [], _ => true
  | i :: a', j :: b' => Nat.eqb i j && isPrefix a' b'
  | _ :: _, [] => false
  end.

(** The row is the node at [a] or a node below it. *)
Definition below (a : addr) (it : item) : bool := isPrefix a (item_node it).

(** There is a node at [r] below [n], and [n] and every node between
    the two are expanded. *)
Fixpoint visible (n : node) (r : addr) : bool :=
  match r with
  | [] => true
  | i :: r' =>
      expanded n &&
      match nth_error (children n) i with
      | Some c => visible c r'
      | None => false
      end
  end.

(** The same from the root, whose own flag is not looked at and which
    is no row itself. *)
Definition listed (root : node) (a : addr) : bool :=
  match a with
  | [] => false
  | i :: r =>
      match nth_error (children root) i with
      | Some c => visible c r
      | None => false
      end
  end.

(** The drawing of the tree, row by row: which node each line is for,
    and the line.  A child is drawn when the test of the loops keeps it,
    and it is the last one when no child after it is kept. *)
Record row : Type :=
  mkRow { row_addr : addr; row_node : node; row_line : string }.

Definition isNil {A : Type} (l : list A) : bool :=
  match l with [] => true | _ => false end.

Definition rowsOf (here : addr) (prefix : string)
    : list (node * (addr -> string -> bool -> list row)) -> nat -> list row :=
  fix go (l : list (node * (addr -> string -> bool -> list row))) (i : nat)
      : list row :=
    match l with
    | [] => []
    | cr :: l' =>
        (if keepChild (fst cr)
         then snd cr (here ++ [i]) prefix
                (negb (existsb (fun x => keepChild (fst x)) l'))
         else [])
        ++ go l' (S i)
    end.

Fixpoint treeRows (n : node) (here : addr) (prefix : string) (isLast : bool)
    : list row :=
  mkRow here n (prefix ++ connector isLast ++ Str.Base (path n) ++ nl)%string ::
  rowsOf here (prefix ++ continuation isLast)%string
    (map (fun c => (c, treeRows c)) (children n)) 0.

Definition fileTreeRows (root : node) : list row :=
  rowsOf [] "" (map (fun c => (c, treeRows c)) (children root)) 0.

Definition joinLines (l : list string) : string :=
  fold_right String.append "" l.

(** The second loop of the two tree functions, by recursion on the kept
    children. *)
Fixpoint renderList (l : list (node * (string -> bool -> string)))
    (prefix : string) : string :=
  match l with
  | [] => ""
  | cr :: l' => (snd cr prefix (isNil l') ++ renderList l' prefix)%string
  end.

(** The node at [r] below [n] is drawn when [n] is: it and every node
    between the two pass the test. *)
Fixpoint shown (n : node) (r : addr) : bool :=
  match r with
  | [] => true
  | i :: r' =>
      match nth_error (children n) i with
      | Some c => keepChild c && shown c r'
      | None => false
      end
  end.

(** A selected file. *)
Definition selFile (n : node) : bool := selected n && negb (isDir n).

Definition nulFree (s : string) : Prop := Str.Contains s Str.nul = false.

Definition fileHeader (p : string) : string :=
  ("<file>" ++ nl ++ "<file_path>" ++ p ++ "</file_path>" ++ nl
     ++ "<file_content>" ++ nl)%string.

Definition fileFooter : string :=
  (nl ++ "</file_content>" ++ nl ++ "</file>" ++ nl)%string.

(** A listing of [k] entries. *)
Definition entries (k : nat) : list dirEntry := repeat (mkEntry "f" false) k.

(** The session invariant: a well-formed tree under a directory root,
    and no prompt yet. *)
Definition sessionOk {W : Widgets} (m : model) : Prop :=
  wf (root m) = true /\ isDir (root m) = true /\ prompt m = "".

(** The test of [case fsEventMsg]: the directory of the changed path has
    a node, the node is expanded, and the event is not a write alone. *)
Definition reloads {W : Widgets} (m : model) (ev : Event) : Prop :=
  exists a n,
    findNode (root m) [] (Str.Dir (ev_Name ev)) = Some a /\
    nodeAt (root m) a = Some n /\
    expanded n = true /\ ev_Op ev <> Op.Write.

(** The request holds the letter q. *)
Definition hasQ (s : string) : bool := Str.Contains s "q".

(** The node [loadChildren] makes for an entry of the directory [dir]. *)
Definition freshChild (dir : string) (f : dirEntry) : node :=
  mkNode (Str.Join dir (Name f)) (IsDir f) [] false false false.

(** The paths [loadChildren] hands to the watcher: the subdirectories,
    in the order of the listing. *)
Definition subdirs (dir : string) (files : list dirEntry) : list string :=
  map (fun f => Str.Join dir (Name f)) (filter IsDir files).

(** Every directory of the subtree is registered with the watcher. *)
Definition watched (w : fsWatcher) (n : node) : Prop :=
  forall d, In d (subtree n) -> isDir d = true -> In (path d) w.

(** The tree with every node collapsed. *)
Fixpoint forgetExpanded (n : node) : node :=
  mkNode (path n) (isDir n) (map forgetExpanded (children n)) false
    (selected n) (childrenLoaded n).

(** [item.Title], [item.Description] and [item.FilterValue], read
    through the pointer of the item. *)
Definition Title (r : node) (i : item) : option string :=
  option_map (fun n => Str.Base (path n)) (nodeAt r (item_node i)).

Definition Description (r : node) (i : item) : option string :=
  option_map path (nodeAt r (item_node i)).

Definition FilterValue (r : node) (i : item) : option string :=
  option_map (fun n => Str.Base (path n)) (nodeAt r (item_node i)).

(** An entry name, as [os.ReadDir] gives them: not empty, without
    separator, and neither [.] nor [..]. *)
Definition entryName (s : string) : Prop :=
  s <> ""%string /\ s <> "."%string /\ s <> ".."%string /\
  forall c, In c (list_ascii_of_string s) -> Str.isSep c = false.

(** The same as a test. *)
Definition entryNameb (s : string) : bool :=
  negb (String.eqb s "") && negb (String.eqb s ".") &&
  negb (String.eqb s "..") &&
  forallb (fun c => negb (Str.isSep c)) (list_ascii_of_string s).

(** Each element after a separator. *)
Fixpoint slashed (es : list string) : string :=
  match es with
  | [] => ""
  | e :: es' => ("/" ++ e ++ slashed es')%string
  end.

(** The clean absolute path with the elements [es]; the root when
    there is none. *)
Definition absPath (es : list string) : string :=
  match es with
  | [] => "/"
  | _ => slashed es
  end.

(** ** Example trees *)

Module Example.

Definition file (p : string) (sel : bool) : node :=
  mkNode p false [] false sel false.

Definition dirA : node :=
  mkNode "/p/a" true [file "/p/a/x.txt" false; file "/p/a/y.bin" true]
    true false true.

Definition tree : node :=
  mkNode "/p" true [dirA; file "/p/b.txt" false] true false true.

(** The directory [/p] of the scenarios: a directory [a] with two files,
    one of them binary, and a file [b.txt]. *)
Definition fs0 : filesystem :=
  mkFs
    (fun p =>
       if String.eqb p "/p"
       then Some [mkEntry "a" true; mkEntry "b.txt" false]
       else if String.eqb p "/p/a"
       then Some [mkEntry "x.txt" false; mkEntry "y.bin" false]
       else None)
    (fun p =>
       if String.eqb p "/p/a/x.txt" then Some "hi"
       else if String.eqb p "/p/a/y.bin"
       then Some ("a" ++ Str.nul ++ "b")%string
       else if String.eqb p "/p/b.txt" then Some "bee"
       else None).

(** A directory [/q] holding a directory [a] that holds an empty
    directory [b], and the tree after [a] was expanded and [b] selected. *)
Definition fs1 : filesystem :=
  mkFs
    (fun p =>
       if String.eqb p "/q" then Some [mkEntry "a" true]
       else if String.eqb p "/q/a" then Some [mkEntry "b" true]
       else if String.eqb p "/q/a/b" then Some []
       else None)
    (fun _ => None).

Definition dirB : node := mkNode "/q/a/b" true [] false true false.

Definition nested : node :=
  mkNode "/q" true [mkNode "/q/a" true [dirB] true false true]
    true false true.

(** A loaded, empty directory, and a filesystem in which it is still
    there and empty. *)
Definition emptyDir : node := mkNode "/e" true [] true false true.

Definition fsEmpty : filesystem :=
  mkFs (fun p => if String.eqb p "/e" then Some [] else None) (fun _ => None).

(** [/p] after a file was created in it. *)
Definition fs2 : filesystem :=
  mkFs
    (fun p =>
       if String.eqb p "/p"
       then Some [mkEntry "a" true; mkEntry "b.txt" false;
                  mkEntry "new.txt" false]
       else None)
    (fun _ => None).

(** The same place with nothing readable in it. *)
Definition fsGone : filesystem := mkFs (fun _ => None) (fun _ => None).

End Example.

(** * Properties *)

(** ** The node store *)

Lemma setNth_length {A} (l : list A) i x : List.length (setNth l i x) = List.length l.
Proof.
  revert i; induction l as [|y l IH]; intros [|i]; simpl; auto.
Qed.

Lemma nth_error_setNth_eq {A} (l : list A) i x y :
  nth_error l i = Some y -> nth_error (setNth l i x) i = Some x.
Proof.
  revert i; induction l as [|z l IH]; intros [|i]; simpl; try discriminate; auto.
Qed.

Lemma nth_error_setNth_neq {A} (l : list A) i j x :
  i <> j -> nth_error (setNth l i x) j = nth_error l j.
Proof.
  revert i j; induction l as [|z l IH]; intros [|i] [|j] H; simpl; auto.
  - congruence.
Qed.

Lemma nodeAt_app n a b :
  nodeAt n (a ++ b) =
  match nodeAt n a with Some c => nodeAt c b | None => None end.
Proof.
  revert n; induction a as [|i a IH]; intros n; simpl; auto.
  destruct (nth_error (children n) i); auto.
Qed.

Lemma nodeAt_updateAt n a f c r :
  nodeAt n a = Some c ->
  nodeAt (updateAt n a f) (a ++ r) = nodeAt (f c) r.
Proof.
  revert n; induction a as [|i a IH]; intros n H; simpl in *.
  - congruence.
  - destruct (nth_error (children n) i) as [ci|] eqn:E; try discriminate.
    cbn [nodeAt app children setChildren].
    rewrite (nth_error_setNth_eq _ _ _ _ E). auto.
Qed.

Lemma nodeAt_updateAt_here n a f c :
  nodeAt n a = Some c -> nodeAt (updateAt n a f) a = Some (f c).
Proof.
  intros H. rewrite <- (app_nil_r a) at 2.
  rewrite (nodeAt_updateAt _ _ f _ [] H). reflexivity.
Qed.

Lemma own_updateAt_above n i a f :
  own (updateAt n (i :: a) f) = own n.
Proof.
  simpl. destruct (nth_error (children n) i); reflexivity.
Qed.

(** A write through a pointer is seen only at and below it: anywhere
    else the same nodes stand, with their fields as they were. *)
Lemma updateAt_outside a : forall n q f,
  (forall r, q <> a ++ r) ->
  option_map own (nodeAt (updateAt n a f) q) = option_map own (nodeAt n q).
Proof.
  induction a as [|i a IH]; intros n q f H.
  - exfalso. apply (H q). reflexivity.
  - destruct q as [|j q].
    + cbn [nodeAt option_map]. now rewrite own_updateAt_above.
    + simpl. destruct (nth_error (children n) i) as [ci|] eqn:E; auto.
      cbn [children setChildren]. destruct (Nat.eq_dec i j) as [->|Hij].
      * rewrite (nth_error_setNth_eq _ _ _ _ E), E.
        apply IH. intros r ->. apply (H r). reflexivity.
      * now rewrite nth_error_setNth_neq.
Qed.

Lemma forallb_Forall {A} (f : A -> bool) l :
  forallb f l = true <-> Forall (fun x => f x = true) l.
Proof.
  rewrite forallb_forall, Forall_forall. tauto.
Qed.

Lemma wf_unfold n : wf n = nodeOk n && forallb wf (children n).
Proof. destruct n; reflexivity. Qed.

Lemma wf_child n i c :
  wf n = true -> nth_error (children n) i = Some c -> wf c = true.
Proof.
  rewrite wf_unfold. intros H E. apply andb_true_iff in H as [_ H].
  rewrite forallb_forall in H. apply H. eapply nth_error_In; eauto.
Qed.

Lemma wf_nodeAt a : forall n c,
  wf n = true -> nodeAt n a = Some c -> wf c = true.
Proof.
  induction a as [|i a IH]; intros n c Hw H; simpl in H.
  - congruence.
  - destruct (nth_error (children n) i) as [ci|] eqn:E; try discriminate.
    apply (IH ci c); auto. eapply wf_child; eauto.
Qed.

Lemma wf_parent n i c :
  wf n = true -> nth_error (children n) i = Some c ->
  isDir n = true /\ childrenLoaded n = true.
Proof.
  rewrite wf_unfold. intros H E. apply andb_true_iff in H as [H _].
  unfold nodeOk in H. apply andb_true_iff in H as [_ H].
  destruct (children n); [destruct i; discriminate|].
  now apply andb_true_iff in H.
Qed.

Lemma wf_expanded n : wf n = true -> expanded n = true -> isDir n = true.
Proof.
  rewrite wf_unfold. intros H E. apply andb_true_iff in H as [H _].
  unfold nodeOk in H. apply andb_true_iff in H as [H _].
  rewrite E in H. exact H.
Qed.

(** ** Selection engine *)

Lemma toggleSelect_unfold n on :
  toggleSelect n on =
  if isDir n
  then setChildren (setSelected n on)
         (map (fun c => toggleSelect c on) (children n))
  else setSelected n on.
Proof. destruct n; reflexivity. Qed.

Lemma toggleSelect_own n on :
  own (toggleSelect n on) =
  (path n, isDir n, expanded n, on, childrenLoaded n).
Proof.
  rewrite toggleSelect_unfold. destruct (isDir n) eqn:E; unfold own; simpl;
    rewrite ?E; reflexivity.
Qed.

Lemma toggleSelect_at r : forall n d on,
  wf n = true -> nodeAt n r = Some d ->
  nodeAt (toggleSelect n on) r = Some (toggleSelect d on).
Proof.
  induction r as [|i r IH]; intros n d on Hw H; simpl in H.
  - injection H as ->. reflexivity.
  - destruct (nth_error (children n) i) as [c|] eqn:E; try discriminate.
    destruct (wf_parent _ _ _ Hw E) as [Hd _].
    rewrite toggleSelect_unfold, Hd. cbn [nodeAt children setChildren].
    rewrite nth_error_map, E. cbn [option_map].
    apply IH; auto. eapply wf_child; eauto.
Qed.

(** The nodes below a pointer after [toggleSelect] ran through it. *)
Lemma toggleSelect_below root a N X r d :
  wf root = true -> nodeAt root a = Some N -> nodeAt N r = Some d ->
  nodeAt (updateAt root a (fun n => toggleSelect n X)) (a ++ r)
  = Some (toggleSelect d X).
Proof.
  intros Hw Ha Hd. rewrite (nodeAt_updateAt _ _ _ _ r Ha).
  apply toggleSelect_at; auto. eapply wf_nodeAt; eauto.
Qed.

(** C2.  [toggleSelect(N, X)], run through the pointer [a] to [N], leaves
    [selected = X] on [N] and on every node below it, whatever was
    there before, with nothing else of these nodes changed; every node
    that is not [N] or below it (the ancestors of [N] among them) keeps
    all its fields, [selected] included. *)
Theorem toggleSelect_cascade (root : node) (a : addr) (N : node) (X : bool) :
  wf root = true ->
  nodeAt root a = Some N ->
  let root' := updateAt root a (fun n => toggleSelect n X) in
  (forall r d, nodeAt N r = Some d ->
     exists d', nodeAt root' (a ++ r) = Some d' /\
       own d' = (path d, isDir d, expanded d, X, childrenLoaded d)) /\
  (forall q, (forall r, q <> a ++ r) ->
     option_map own (nodeAt root' q) = option_map own (nodeAt root q)).
Proof.
  intros Hw Ha root'. split.
  - intros r d Hd. exists (toggleSelect d X). split.
    + unfold root'. rewrite (nodeAt_updateAt _ _ _ _ r Ha).
      apply toggleSelect_at; auto. eapply wf_nodeAt; eauto.
    + apply toggleSelect_own.
  - intros q Hq. apply updateAt_outside; auto.
Qed.

Lemma toggleSelect_cascade_witness :
  let root' := updateAt Example.tree [0] (fun n => toggleSelect n true) in
  (forall r d, nodeAt Example.dirA r = Some d ->
     exists d', nodeAt root' ([0] ++ r) = Some d' /\
       own d' = (path d, isDir d, expanded d, true, childrenLoaded d)) /\
  (forall q, (forall r, q <> [0] ++ r) ->
     option_map own (nodeAt root' q) =
     option_map own (nodeAt Example.tree q)).
Proof.
  apply (toggleSelect_cascade Example.tree [0] Example.dirA true);
    reflexivity.
Defined.

(** ** Well-formedness is kept by every operation *)

Lemma Forall_setNth {A} (P : A -> Prop) l i x :
  Forall P l -> P x -> Forall P (setNth l i x).
Proof.
  intros H Hx. revert i. induction H as [|y l Hy Hl IH]; intros [|i]; simpl;
    constructor; auto.
Qed.

Lemma wf_updateAt a : forall n c f,
  wf n = true -> nodeAt n a = Some c -> wf (f c) = true ->
  wf (updateAt n a f) = true.
Proof.
  induction a as [|i a IH]; intros n c f Hw H Hf; simpl in *.
  - injection H as ->. exact Hf.
  - destruct (nth_error (children n) i) as [ci|] eqn:E; try discriminate.
    pose proof (wf_child _ _ _ Hw E) as Hci.
    rewrite wf_unfold in Hw |- *. apply andb_true_iff in Hw as [Hn Hcs].
    apply andb_true_iff. split.
    + unfold nodeOk in *. cbn [children setChildren expanded isDir childrenLoaded].
      destruct (children n) as [|c0 cs]; [destruct i; discriminate|].
      destruct i; simpl; exact Hn.
    + cbn [children setChildren]. apply forallb_Forall.
      apply Forall_setNth; [now apply forallb_Forall|].
      eapply IH; eauto.
Qed.

Lemma isDir_updateAt a n f :
  (forall c, nodeAt n a = Some c -> isDir (f c) = isDir c) ->
  isDir (updateAt n a f) = isDir n.
Proof.
  destruct a as [|i a]; intros H.
  - simpl. apply H. reflexivity.
  - pose proof (own_updateAt_above n i a f) as E. unfold own in E. congruence.
Qed.

Lemma wf_toggleSelect on : forall n, wf n = true -> wf (toggleSelect n on) = true.
Proof.
  induction n as [n IH] using node_ind. intros Hw.
  rewrite toggleSelect_unfold. rewrite wf_unfold in Hw.
  apply andb_true_iff in Hw as [Hn Hcs].
  destruct (isDir n) eqn:Ed.
  - rewrite wf_unfold. apply andb_true_iff. split.
    + unfold nodeOk in *.
      cbn [children setChildren setSelected expanded isDir childrenLoaded].
      destruct (children n); simpl; exact Hn.
    + cbn [children setChildren]. apply forallb_Forall.
      apply Forall_map. apply forallb_Forall in Hcs.
      rewrite Forall_forall in *. auto.
  - rewrite wf_unfold. apply andb_true_iff. split.
    + exact Hn.
    + exact Hcs.
Qed.

Lemma loadEntries_wf dir files : forall cs w,
  Forall (fun c => wf c = true) cs ->
  Forall (fun c => wf c = true) (fst (loadEntries dir files cs w)).
Proof.
  induction files as [|f files IH]; intros cs w H; simpl; auto.
  apply IH. apply Forall_app. split; auto.
Qed.

Lemma loadChildren_own fs n w :
  let n' := fst (loadChildren fs n w) in
  path n' = path n /\ isDir n' = isDir n /\ expanded n' = expanded n /\
  selected n' = selected n.
Proof.
  unfold loadChildren. destruct (ReadDir fs (path n)); simpl; auto.
  destruct (loadEntries (path n) l [] w). simpl. auto.
Qed.

Lemma wf_loadChildren fs n w :
  wf n = true -> isDir n = true -> wf (fst (loadChildren fs n w)) = true.
Proof.
  intros Hw Hd. unfold loadChildren.
  destruct (ReadDir fs (path n)) as [files|]; [|exact Hw].
  pose proof (loadEntries_wf (path n) files [] w (Forall_nil _)) as H.
  destruct (loadEntries (path n) files [] w) as [cs w']. cbn [fst] in *.
  rewrite wf_unfold in Hw |- *. apply andb_true_iff in Hw as [Hn _].
  apply andb_true_iff. split.
  - unfold nodeOk in *.
    cbn [children setChildren setChildrenLoaded expanded isDir childrenLoaded].
    apply andb_true_iff in Hn as [Hn _]. rewrite Hn, Hd.
    destruct cs; reflexivity.
  - cbn [children setChildren setChildrenLoaded]. now apply forallb_Forall.
Qed.

Lemma wf_setExpanded n b :
  wf n = true -> isDir n = true -> wf (setExpanded n b) = true.
Proof.
  intros Hw Hd. rewrite wf_unfold in Hw |- *.
  apply andb_true_iff in Hw as [Hn Hcs]. apply andb_true_iff. split.
  - unfold nodeOk in *.
    cbn [children setExpanded expanded isDir childrenLoaded].
    apply andb_true_iff in Hn as [_ Hn]. rewrite Hn, Hd.
    destruct b; reflexivity.
  - exact Hcs.
Qed.

(** ** The session invariant *)

Section SessionInvariant.
Context {W : Widgets}.

Lemma sessionOk_same (m m' : model) :
  root m' = root m -> prompt m' = prompt m -> sessionOk m -> sessionOk m'.
Proof.
  unfold sessionOk. intros -> ->. auto.
Qed.

Lemma newModel_ok abspath fs m :
  newModel (Some abspath) fs = Some m -> sessionOk m.
Proof.
  unfold newModel. set (r0 := mkNode abspath true [] true false false).
  pose proof (wf_loadChildren fs r0 (watcherAdd [] abspath) eq_refl eq_refl) as Hw.
  pose proof (loadChildren_own fs r0 (watcherAdd [] abspath)) as Ho.
  destruct (loadChildren fs r0 (watcherAdd [] abspath)) as [r w].
  cbn [fst] in *. intros H. injection H as <-.
  unfold sessionOk. cbn [root prompt]. intuition.
Qed.

(** The directory toggled by ["enter"], after the toggle and the load. *)
Lemma expandStep_ok fs n w :
  wf n = true -> isDir n = true ->
  let n1 := setExpanded n (negb (expanded n)) in
  let nw := if expanded n1 && negb (childrenLoaded n1)
            then loadChildren fs n1 w else (n1, w) in
  wf (fst nw) = true /\ isDir (fst nw) = true.
Proof.
  intros Hw Hd n1 nw.
  assert (H1 : wf n1 = true) by (apply wf_setExpanded; auto).
  assert (D1 : isDir n1 = true) by exact Hd.
  unfold nw. destruct (expanded n1 && negb (childrenLoaded n1)).
  - split; [apply wf_loadChildren; auto|].
    destruct (loadChildren_own fs n1 w) as (_ & E & _). now rewrite E.
  - auto.
Qed.

Lemma keyEnter_ok fs m : sessionOk m -> sessionOk (keyEnter fs m).
Proof.
  intros Hm. unfold keyEnter.
  destruct (list_SelectedItem (m_list m)) as [sel|]; auto.
  destruct (nodeAt (root m) (item_node sel)) as [n|] eqn:E; auto.
  destruct (isDir n) eqn:Ed; auto.
  destruct Hm as (Hw & Hr & Hp).
  pose proof (expandStep_ok fs n (watcher m) (wf_nodeAt _ _ _ Hw E) Ed) as Hs.
  cbv zeta in Hs.
  destruct (if expanded (setExpanded n (negb (expanded n))) &&
               negb (childrenLoaded (setExpanded n (negb (expanded n))))
            then loadChildren fs (setExpanded n (negb (expanded n))) (watcher m)
            else (setExpanded n (negb (expanded n)), watcher m)) as [n2 w].
  cbn [fst] in Hs. destruct Hs as [Hw2 Hd2].
  unfold sessionOk. cbn [root prompt set_list set_flatItems set_watcher set_root].
  repeat split; auto.
  - eapply wf_updateAt; eauto.
  - rewrite isDir_updateAt; auto. intros c Hc. congruence.
Qed.

Lemma keySpace_ok m : sessionOk m -> sessionOk (keySpace m).
Proof.
  intros Hm. unfold keySpace.
  destruct (list_SelectedItem (m_list m)) as [sel|]; auto.
  destruct (nodeAt (root m) (item_node sel)) as [n|] eqn:E; auto.
  destruct Hm as (Hw & Hr & Hp).
  unfold sessionOk. cbn [root prompt set_root]. repeat split; auto.
  - eapply wf_updateAt; eauto. apply wf_toggleSelect.
    eapply wf_nodeAt; eauto.
  - rewrite isDir_updateAt; auto. intros c _.
    pose proof (toggleSelect_own c (negb (selected n))) as H.
    unfold own in H. congruence.
Qed.

Lemma onFsEvent_ok fs m ev : sessionOk m -> sessionOk (onFsEvent fs m ev).
Proof.
  intros Hm. unfold onFsEvent.
  destruct (findNode (root m) [] (Str.Dir (ev_Name ev))) as [a|]; auto.
  destruct (nodeAt (root m) a) as [n|] eqn:E; auto.
  destruct (expanded n && negb (N.eqb (ev_Op ev) Op.Write)) eqn:C; auto.
  apply andb_true_iff in C as [Ce _].
  destruct Hm as (Hw & Hr & Hp).
  pose proof (wf_nodeAt _ _ _ Hw E) as Hn.
  pose proof (wf_expanded _ Hn Ce) as Hd.
  pose proof (wf_loadChildren fs n (watcher m) Hn Hd) as Hl.
  destruct (loadChildren_own fs n (watcher m)) as (_ & Hd' & _).
  destruct (loadChildren fs n (watcher m)) as [n' w]. cbn [fst] in *.
  unfold sessionOk. cbn [root prompt set_list set_flatItems set_watcher set_root].
  repeat split; auto.
  - eapply wf_updateAt; eauto.
  - rewrite isDir_updateAt; auto. intros c Hc. congruence.
Qed.

Lemma Update_ok fs m msg :
  sessionOk m -> snd (Update fs m msg) <> cmdQuit ->
  sessionOk (fst (Update fs m msg)).
Proof.
  intros Hm. destruct msg as [w h|k|ev|e|t]; cbn [Update].
  - intros _. cbn [fst]. eapply sessionOk_same; eauto.
  - destruct (String.eqb k "ctrl+c" || String.eqb k "q");
      [cbn [snd]; congruence|].
    destruct (focus m).
    + intros _. cbn [fst]. eapply sessionOk_same; [reflexivity..|].
      destruct (negb (list_SettingFilter (m_list m))); auto.
      destruct (String.eqb k "enter"); [now apply keyEnter_ok|].
      destruct (String.eqb k " "); [now apply keySpace_ok|].
      destruct (String.eqb k "tab"); auto.
    + intros _. cbn [fst]. eapply sessionOk_same; [reflexivity..|].
      destruct (String.eqb k "tab"); auto.
    + destruct (String.eqb k "enter"); [cbn [snd]; congruence|].
      destruct (String.eqb k "tab"); auto.
  - intros _. cbn [fst]. now apply onFsEvent_ok.
  - intros _. cbn [fst]. eapply sessionOk_same; eauto.
  - intros _. cbn [fst]. eapply sessionOk_same; eauto.
Qed.

(** Every state of a session has a well-formed tree under a directory
    root, and no prompt. *)
Lemma reachable_ok m : reachable m -> sessionOk m.
Proof.
  induction 1 as [abspath fs m H|m fs msg _ IH Hc].
  - eapply newModel_ok; eauto.
  - now apply Update_ok.
Qed.

End SessionInvariant.

(** ** View projector *)

Lemma recurse_unfold n here d flat :
  recurse n here d flat =
  let flat1 := flat ++ [mkItem here d] in
  if expanded n then
    forRange (fun i c acc => recurse c (here ++ [i]) (d + 1) acc)
      (children n) 0 flat1
  else flat1.
Proof. destruct n; reflexivity. Qed.

Lemma preorder_unfold n here d :
  preorder n here d =
  mkItem here d ::
  (if expanded n
   then flatMapI (fun i c => preorder c (here ++ [i]) (d + 1)) (children n) 0
   else []).
Proof. destruct n; reflexivity. Qed.

(** A loop of [recurse] calls appends the walks of the children. *)
Lemma forRange_recurse (addrOf : nat -> addr) d cs : forall k flat,
  Forall (fun c => forall here d flat,
            recurse c here d flat = flat ++ preorder c here d) cs ->
  forRange (fun i c acc => recurse c (addrOf i) d acc) cs k flat =
  flat ++ flatMapI (fun i c => preorder c (addrOf i) d) cs k.
Proof.
  induction cs as [|c cs IH]; intros k flat H; simpl.
  - now rewrite app_nil_r.
  - inversion H as [|? ? Hc Hcs]; subst.
    rewrite IH by assumption. rewrite Hc. now rewrite <- app_assoc.
Qed.

Lemma recurse_preorder : forall n here d flat,
  recurse n here d flat = flat ++ preorder n here d.
Proof.
  induction n as [n IH] using node_ind. intros here d flat.
  rewrite recurse_unfold, preorder_unfold. cbv zeta.
  destruct (expanded n).
  - rewrite (forRange_recurse (fun i => here ++ [i]) (d + 1) (children n) 0 _ IH).
    rewrite <- app_assoc. reflexivity.
  - reflexivity.
Qed.

Lemma flatten_flattenSpec root : flatten root = flattenSpec root.
Proof.
  unfold flatten, flattenSpec.
  rewrite (forRange_recurse (fun i => [i]) 0 (children root) 0 []).
  - reflexivity.
  - apply Forall_forall. intros c _. apply recurse_preorder.
Qed.

Lemma isPrefix_app a r : isPrefix a (a ++ r) = true.
Proof.
  induction a as [|i a IH]; simpl; auto. now rewrite Nat.eqb_refl.
Qed.

Lemma isPrefix_refl a : isPrefix a a = true.
Proof.
  induction a as [|i a IH]; simpl; auto. now rewrite Nat.eqb_refl.
Qed.

Lemma isPrefix_iff a : forall b, isPrefix a b = true <-> exists r, b = a ++ r.
Proof.
  induction a as [|i a IH]; intros b; simpl.
  - split; eauto.
  - destruct b as [|j b].
    + split; [discriminate|]. intros [r H]. discriminate.
    + rewrite andb_true_iff, Nat.eqb_eq, IH. split.
      * intros [-> [r ->]]. eauto.
      * intros [r H]. injection H as -> ->. eauto.
Qed.

Lemma isPrefix_cancel h : forall x y, isPrefix (h ++ x) (h ++ y) = isPrefix x y.
Proof.
  induction h as [|i h IH]; intros x y; simpl; auto.
  now rewrite Nat.eqb_refl, IH.
Qed.

Lemma In_flatMapI {A B} (f : nat -> A -> list B) cs : forall k y,
  In y (flatMapI f cs k) <->
  exists j c, nth_error cs j = Some c /\ In y (f (k + j) c).
Proof.
  induction cs as [|c cs IH]; intros k y; simpl.
  - split; [tauto|]. intros (j & c & H & _). destruct j; discriminate.
  - rewrite in_app_iff, IH. split.
    + intros [H|(j & c' & E & H)].
      * exists 0, c. rewrite Nat.add_0_r. auto.
      * exists (S j), c'. rewrite Nat.add_succ_r. auto.
    + intros (j & c' & E & H). destruct j as [|j]; simpl in E.
      * injection E as <-. rewrite Nat.add_0_r in H. auto.
      * right. exists j, c'. rewrite Nat.add_succ_r in H. auto.
Qed.

(** The rows of a walk: the nodes reached through expanded nodes only,
    each at the depth of its address. *)
Lemma preorder_In : forall n here d it,
  In it (preorder n here d) <->
  exists r, it = mkItem (here ++ r) (d + List.length r) /\ visible n r = true.
Proof.
  induction n as [n IH] using node_ind. intros here d it.
  rewrite preorder_unfold. cbn [In]. split.
  - intros [<-|H].
    + exists []. rewrite app_nil_r, Nat.add_0_r. auto.
    + destruct (expanded n) eqn:Ex; [|destruct H].
      apply In_flatMapI in H as (j & c & E & H). cbn [Nat.add] in H.
      rewrite Forall_forall in IH.
      apply (IH c (nth_error_In _ _ E)) in H as (r & -> & V).
      exists (j :: r). split.
      * rewrite <- app_assoc. cbn [app List.length].
        f_equal. lia.
      * cbn [visible]. now rewrite Ex, E.
  - intros (r & -> & V). destruct r as [|j r].
    + left. now rewrite app_nil_r, Nat.add_0_r.
    + right. cbn [visible] in V. apply andb_true_iff in V as [Ex V].
      rewrite Ex. destruct (nth_error (children n) j) as [c|] eqn:E;
        try discriminate.
      apply In_flatMapI. exists j, c. split; auto. cbn [Nat.add].
      rewrite Forall_forall in IH. apply (IH c (nth_error_In _ _ E)).
      exists r. split; auto.
      rewrite <- app_assoc. cbn [app List.length]. f_equal. lia.
Qed.

(** The rows of the list: every node below the root whose ancestors
    below the root are all expanded; the root is none of them. *)
Lemma flatten_In root it :
  In it (flatten root) <->
  it = mkItem (item_node it) (List.length (item_node it) - 1) /\
  listed root (item_node it) = true.
Proof.
  rewrite flatten_flattenSpec. unfold flattenSpec. rewrite In_flatMapI.
  split.
  - intros (j & c & E & H). cbn [Nat.add] in H.
    apply preorder_In in H as (r & -> & V).
    cbn [app item_node listed]. rewrite E. split; auto.
    f_equal. simpl. lia.
  - intros [E L]. destruct (item_node it) as [|j r] eqn:Ea;
      cbn [listed] in L; try discriminate.
    destruct (nth_error (children root) j) as [c|] eqn:Ec; try discriminate.
    exists j, c. split; auto. cbn [Nat.add]. apply preorder_In.
    exists r. split; auto. rewrite E. cbn [app]. f_equal. simpl. lia.
Qed.

Lemma isPrefix_longer h i r : isPrefix (h ++ i :: r) h = false.
Proof.
  destruct (isPrefix (h ++ i :: r) h) eqn:E; auto.
  apply isPrefix_iff in E as [s E]. apply (f_equal (@List.length nat)) in E.
  rewrite !length_app in E. simpl in E. lia.
Qed.

Lemma filter_none {A} (f : A -> bool) l :
  (forall x, In x l -> f x = false) -> filter f l = [].
Proof.
  induction l as [|x l IH]; intros H; simpl; auto.
  rewrite (H x (or_introl eq_refl)). apply IH. intros y Hy. apply H. now right.
Qed.

(** A row of the walk of one child is not below another child. *)
Lemma below_other_child here i j r d c it :
  i <> j -> In it (preorder c (here ++ [j]) d) ->
  below (here ++ i :: r) it = false.
Proof.
  intros Hij H. apply preorder_In in H as (s & -> & _).
  unfold below. cbn [item_node]. rewrite <- app_assoc. cbn [app].
  rewrite isPrefix_cancel. cbn [isPrefix].
  apply Nat.eqb_neq in Hij. now rewrite Hij.
Qed.

Lemma filter_kids here i r d cs : forall k,
  filter (below (here ++ i :: r))
    (flatMapI (fun j c => preorder c (here ++ [j]) d) cs k) =
  match (if Nat.leb k i then nth_error cs (i - k) else None) with
  | Some ci => filter (below (here ++ i :: r)) (preorder ci (here ++ [i]) d)
  | None => []
  end.
Proof.
  induction cs as [|c cs IH]; intros k; cbn [flatMapI].
  - destruct (Nat.leb k i); [|reflexivity]. now destruct (i - k).
  - rewrite filter_app, IH.
    destruct (Nat.eq_dec k i) as [->|Hki].
    + rewrite Nat.leb_refl, Nat.sub_diag. cbn [nth_error].
      replace (Nat.leb (S i) i) with false
        by (symmetry; apply Nat.leb_gt; lia).
      now rewrite app_nil_r.
    + rewrite (filter_none (below (here ++ i :: r))
                 (preorder c (here ++ [k]) d)).
      2:{ intros it Hit. apply (below_other_child here i k r d c it); auto. }
      cbn [app]. destruct (Nat.leb k i) eqn:Ek.
      * apply Nat.leb_le in Ek.
        replace (Nat.leb (S k) i) with true
          by (symmetry; apply Nat.leb_le; lia).
        replace (i - k) with (S (i - S k)) by lia. reflexivity.
      * apply Nat.leb_gt in Ek.
        replace (Nat.leb (S k) i) with false
          by (symmetry; apply Nat.leb_gt; lia).
        reflexivity.
Qed.

(** The rows at or below a collapsed node, within a walk: the node's
    own row when the walk reaches it, none otherwise. *)
Lemma filter_below_preorder r : forall n here d c,
  nodeAt n r = Some c -> expanded c = false ->
  filter (below (here ++ r)) (preorder n here d) =
  if visible n r then [mkItem (here ++ r) (d + List.length r)] else [].
Proof.
  induction r as [|i r IH]; intros n here d c Hc Ec; cbn [nodeAt] in Hc.
  - injection Hc as ->. rewrite preorder_unfold, Ec.
    cbn [filter below item_node visible].
    rewrite app_nil_r, Nat.add_0_r. unfold below. cbn [item_node].
    now rewrite isPrefix_refl.
  - destruct (nth_error (children n) i) as [ci|] eqn:Ei; try discriminate.
    rewrite preorder_unfold. cbn [filter visible].
    unfold below at 1. cbn [item_node]. rewrite isPrefix_longer, Ei.
    destruct (expanded n); cbn [andb]; [|reflexivity].
    rewrite (filter_kids here i r (d + 1) (children n) 0).
    cbn [Nat.leb]. rewrite Nat.sub_0_r, Ei.
    replace (here ++ i :: r) with ((here ++ [i]) ++ r)
      by now rewrite <- app_assoc.
    rewrite (IH ci (here ++ [i]) (d + 1) c Hc Ec).
    replace (d + 1 + List.length r) with (d + List.length (i :: r))
      by (simpl; lia).
    reflexivity.
Qed.

(** The same in the list: a collapsed node has one row for itself and
    all that is below it when it is listed, and none when it is not. *)
Lemma flatten_collapsed root a n :
  a <> [] -> nodeAt root a = Some n -> expanded n = false ->
  filter (below a) (flatten root) =
  if listed root a then [mkItem a (List.length a - 1)] else [].
Proof.
  intros Ha Hn En. destruct a as [|i r]; [congruence|].
  cbn [nodeAt] in Hn.
  destruct (nth_error (children root) i) as [ci|] eqn:Ei; try discriminate.
  rewrite flatten_flattenSpec. unfold flattenSpec.
  pose proof (filter_kids [] i r 0 (children root) 0) as H.
  cbn [app Nat.leb] in H. rewrite Nat.sub_0_r, Ei in H. rewrite H.
  pose proof (filter_below_preorder r ci [i] 0 n Hn En) as H'.
  cbn [app Nat.add] in H'. rewrite H'. cbn [listed]. rewrite Ei.
  replace (List.length (i :: r) - 1) with (List.length r) by (simpl; lia).
  reflexivity.
Qed.

Lemma flatMapI_ext {A B} (f g : nat -> A -> list B) cs :
  (forall i c, In c cs -> f i c = g i c) ->
  forall k, flatMapI f cs k = flatMapI g cs k.
Proof.
  induction cs as [|c cs IH]; intros H k; simpl; auto.
  rewrite H by now left. f_equal. apply IH. intros i c' Hc. apply H. now right.
Qed.

(** C6.  [flatten] walks the children of the root in their order, each
    at depth 0, and the root has no row.  The walk of an expanded node
    is its row followed at once by the walks of its children, in their
    order, one level deeper; the walk of a collapsed node is its row and
    nothing else.  In the list as a whole, the rows at or below a listed
    collapsed node are that node's row alone. *)
Theorem flatten_walk (root : node) :
  flatten root = flatMapI (fun i c => recurse c [i] 0 []) (children root) 0 /\
  (forall it, In it (flatten root) -> item_node it <> []) /\
  (forall n here d flat, expanded n = true ->
     recurse n here d flat =
     flat ++ mkItem here d ::
       flatMapI (fun i c => recurse c (here ++ [i]) (d + 1) []) (children n) 0) /\
  (forall n here d flat, expanded n = false ->
     recurse n here d flat = flat ++ [mkItem here d]) /\
  (forall a n, nodeAt root a = Some n -> expanded n = false ->
     In a (map item_node (flatten root)) ->
     filter (below a) (flatten root) = [mkItem a (List.length a - 1)]).
Proof.
  repeat split.
  - rewrite flatten_flattenSpec. unfold flattenSpec.
    apply flatMapI_ext. intros i c _. now rewrite recurse_preorder.
  - intros it H. apply flatten_In in H as [_ H].
    destruct (item_node it); [discriminate|congruence].
  - intros n here d flat E. rewrite recurse_preorder, preorder_unfold, E.
    do 2 f_equal. apply flatMapI_ext. intros i c _.
    now rewrite recurse_preorder.
  - intros n here d flat E. now rewrite recurse_preorder, preorder_unfold, E.
  - intros a n Hn En Hin. apply in_map_iff in Hin as (it & <- & Hit).
    apply flatten_In in Hit as [_ L].
    rewrite (flatten_collapsed root (item_node it) n); auto.
    + now rewrite L.
    + destruct (item_node it); [discriminate|congruence].
Qed.

Lemma visible_expanded r1 : forall n i r2,
  visible n (r1 ++ i :: r2) = true ->
  exists c, nodeAt n r1 = Some c /\ expanded c = true.
Proof.
  induction r1 as [|j r1 IH]; intros n i r2 H; cbn [app visible nodeAt] in *.
  - apply andb_true_iff in H as [H _]. eauto.
  - apply andb_true_iff in H as [_ H].
    destruct (nth_error (children n) j) as [c|]; try discriminate. eauto.
Qed.

(** A row below a node is listed only when that node is expanded. *)
Lemma listed_expanded root a i r :
  a <> [] -> listed root (a ++ i :: r) = true ->
  exists c, nodeAt root a = Some c /\ expanded c = true.
Proof.
  intros Ha H. destruct a as [|j a]; [congruence|].
  cbn [app listed nodeAt] in *.
  destruct (nth_error (children root) j) as [c|]; try discriminate.
  eapply visible_expanded; eauto.
Qed.

Lemma loadEntries_Forall (P : node -> Prop) dir files :
  (forall p d, P (mkNode p d [] false false false)) ->
  forall cs w, Forall P cs -> Forall P (fst (loadEntries dir files cs w)).
Proof.
  intros HP. induction files as [|f files IH]; intros cs w H; simpl; auto.
  apply IH. apply Forall_app. split; auto.
Qed.

Section ExpandedDirectories.
Context {W : Widgets}.

(** C9.  In every state of a session, a node with [expanded = true] is a
    directory, and no row of the list lies below the row of a file.
    This rests on three facts of the code, stated with it: [newModel]
    makes the root an expanded directory, every node [loadChildren]
    creates has [expanded = false], and ["enter"] on a row that is not
    a directory changes nothing. *)
Theorem expanded_only_directories (m : model) :
  reachable m ->
  (forall a n, nodeAt (root m) a = Some n -> expanded n = true ->
     isDir n = true) /\
  (forall it n it' i r,
     In it (flatten (root m)) ->
     nodeAt (root m) (item_node it) = Some n -> isDir n = false ->
     In it' (flatten (root m)) ->
     item_node it' <> item_node it ++ i :: r) /\
  (forall abspath fs m0, newModel (Some abspath) fs = Some m0 ->
     isDir (root m0) = true /\ expanded (root m0) = true) /\
  (forall fs n w files, ReadDir fs (path n) = Some files ->
     Forall (fun c => expanded c = false)
       (children (fst (loadChildren fs n w)))) /\
  (forall fs m1 sel n,
     list_SelectedItem (m_list m1) = Some sel ->
     nodeAt (root m1) (item_node sel) = Some n -> isDir n = false ->
     keyEnter fs m1 = m1).
Proof.
  intros Hr. destruct (reachable_ok m Hr) as (Hw & _ & _).
  assert (Hexp : forall a n, nodeAt (root m) a = Some n ->
                   expanded n = true -> isDir n = true).
  { intros a n Hn. apply wf_expanded. eapply wf_nodeAt; eauto. }
  split; [exact Hexp|]. split; [|split; [|split]].
  - intros it n it' i r Hit Hn Hd Hit' E.
    apply flatten_In in Hit as [_ L]. apply flatten_In in Hit' as [_ L'].
    rewrite E in L'.
    destruct (listed_expanded (root m) (item_node it) i r) as (c & Hc & Ec);
      auto.
    + destruct (item_node it); [discriminate|congruence].
    + rewrite Hn in Hc. injection Hc as <-.
      rewrite (Hexp _ _ Hn Ec) in Hd. discriminate.
  - intros abspath fs m0. unfold newModel.
    pose proof (loadChildren_own fs (mkNode abspath true [] true false false)
                  (watcherAdd [] abspath)) as Ho.
    destruct (loadChildren fs (mkNode abspath true [] true false false)
                (watcherAdd [] abspath)) as [r w].
    cbn [fst] in Ho. intros H. injection H as <-. cbn [root].
    destruct Ho as (_ & -> & -> & _). auto.
  - intros fs n w files E. unfold loadChildren. rewrite E.
    pose proof (loadEntries_Forall (fun c => expanded c = false) (path n) files
                  (fun _ _ => eq_refl) [] w (Forall_nil _)) as H.
    destruct (loadEntries (path n) files [] w) as [cs w']. exact H.
  - intros fs m1 sel n Es En Ed. unfold keyEnter. now rewrite Es, En, Ed.
Qed.

End ExpandedDirectories.

Lemma expanded_only_directories_witness :
  exists m : @model Simple.widgets,
    newModel (Some "/p"%string) Example.fs0 = Some m /\
    (forall a n, nodeAt (root m) a = Some n -> expanded n = true ->
       isDir n = true).
Proof.
  eexists. split; [reflexivity|].
  eapply expanded_only_directories.
  apply (reach_start "/p"%string Example.fs0). reflexivity.
Defined.

(** ** Strings *)

Lemma append_assoc (a b c : string) : ((a ++ b) ++ c = a ++ (b ++ c))%string.
Proof. induction a as [|x a IH]; simpl; congruence. Qed.

Lemma append_nil_r (a : string) : (a ++ "" = a)%string.
Proof. induction a as [|x a IH]; simpl; congruence. Qed.

Lemma joinLines_app l1 l2 :
  joinLines (l1 ++ l2) = (joinLines l1 ++ joinLines l2)%string.
Proof.
  induction l1 as [|x l1 IH]; simpl; auto.
  unfold joinLines in *. simpl. now rewrite IH, append_assoc.
Qed.

(** ** The tree segment, row by row *)

Lemma generateTreeRec_unfold n prefix isLast :
  generateTreeRec n prefix isLast =
  renderKept (keptOf (map (fun c => (c, generateTreeRec c)) (children n)))
    (prefix ++ continuation isLast)
    (prefix ++ connector isLast ++ Str.Base (path n) ++ nl)%string.
Proof. destruct n; reflexivity. Qed.

Lemma treeRows_unfold n here prefix isLast :
  treeRows n here prefix isLast =
  mkRow here n (prefix ++ connector isLast ++ Str.Base (path n) ++ nl)%string ::
  rowsOf here (prefix ++ continuation isLast)%string
    (map (fun c => (c, treeRows c)) (children n)) 0.
Proof. destruct n; reflexivity. Qed.

Lemma forRange_render total prefix l : forall k s,
  total = k + List.length l ->
  forRange
    (fun i (cr : node * (string -> bool -> string)) acc =>
       (acc ++ snd cr prefix (Nat.eqb i (total - 1)))%string) l k s =
  (s ++ renderList l prefix)%string.
Proof.
  induction l as [|cr l IH]; intros k s Ht; cbn [forRange renderList].
  - now rewrite append_nil_r.
  - rewrite IH by (simpl in Ht; lia). rewrite append_assoc.
    assert (E : Nat.eqb k (total - 1) = isNil l).
    { destruct l as [|x l]; cbn [isNil List.length] in *.
      - apply Nat.eqb_eq. lia.
      - apply Nat.eqb_neq. lia. }
    now rewrite E.
Qed.

Lemma renderKept_renderList kept prefix s :
  renderKept kept prefix s = (s ++ renderList kept prefix)%string.
Proof.
  unfold renderKept. now apply forRange_render.
Qed.

Lemma isNil_keptOf {R} (f : node -> R) cs :
  isNil (keptOf (map (fun c => (c, f c)) cs)) = negb (existsb keepChild cs).
Proof.
  induction cs as [|c cs IH]; auto.
  unfold keptOf in *. cbn [map filter fst existsb].
  destruct (keepChild c); auto.
Qed.

Lemma existsb_kept {R} (f : node -> R) cs :
  existsb (fun x => keepChild (fst x)) (map (fun c => (c, f c)) cs) =
  existsb keepChild cs.
Proof.
  induction cs as [|c cs IH]; auto. cbn [map existsb fst]. now rewrite IH.
Qed.

Lemma renderList_rows here prefix cs : forall k,
  Forall (fun c => forall here prefix isLast,
            generateTreeRec c prefix isLast =
            joinLines (map row_line (treeRows c here prefix isLast))) cs ->
  renderList (keptOf (map (fun c => (c, generateTreeRec c)) cs)) prefix =
  joinLines
    (map row_line (rowsOf here prefix (map (fun c => (c, treeRows c)) cs) k)).
Proof.
  induction cs as [|c cs IH]; intros k H; auto.
  inversion H as [|? ? Hc Hcs]; subst.
  cbn [map rowsOf fst snd]. rewrite map_app, joinLines_app.
  rewrite <- (IH (S k) Hcs). unfold keptOf at 1. cbn [filter fst].
  destruct (keepChild c).
  - cbn [renderList snd]. fold (keptOf (map (fun c => (c, generateTreeRec c)) cs)).
    rewrite isNil_keptOf, existsb_kept. now rewrite <- Hc.
  - reflexivity.
Qed.

(** The text of a subtree is its rows put end to end. *)
Lemma generateTreeRec_rows : forall n here prefix isLast,
  generateTreeRec n prefix isLast =
  joinLines (map row_line (treeRows n here prefix isLast)).
Proof.
  induction n as [n IH] using node_ind. intros here prefix isLast.
  rewrite generateTreeRec_unfold, treeRows_unfold, renderKept_renderList.
  cbn [map row_line]. unfold joinLines at 1. cbn [fold_right].
  fold (joinLines
          (map row_line
             (rowsOf here (prefix ++ continuation isLast)
                (map (fun c => (c, treeRows c)) (children n)) 0))).
  rewrite <- (renderList_rows here _ (children n) 0 IH).
  now rewrite !append_assoc.
Qed.

Lemma generateFileTree_rows root :
  generateFileTree root = joinLines (map row_line (fileTreeRows root)).
Proof.
  unfold generateFileTree, fileTreeRows. rewrite renderKept_renderList.
  cbn [String.append]. apply renderList_rows.
  apply Forall_forall. intros c _. apply generateTreeRec_rows.
Qed.

Lemma rowsOf_addr here prefix cs : forall k a,
  Forall (fun c => forall here prefix isLast a,
            In a (map row_addr (treeRows c here prefix isLast)) <->
            exists r, a = here ++ r /\ shown c r = true) cs ->
  (In a (map row_addr
           (rowsOf here prefix (map (fun c => (c, treeRows c)) cs) k)) <->
   exists j c r, nth_error cs j = Some c /\ keepChild c = true /\
                 a = here ++ (k + j) :: r /\ shown c r = true).
Proof.
  induction cs as [|c cs IH]; intros k a H.
  - cbn [map rowsOf In]. split; [tauto|].
    intros (j & c & r & E & _). destruct j; discriminate.
  - inversion H as [|? ? Hc Hcs]; subst.
    cbn [map rowsOf fst snd]. rewrite map_app, in_app_iff, (IH (S k) a Hcs).
    split.
    + intros [Hin|(j & c' & r & E & K & -> & Sh)].
      * destruct (keepChild c) eqn:K; [|destruct Hin].
        apply Hc in Hin as (r & -> & Sh). exists 0, c, r.
        rewrite Nat.add_0_r, <- app_assoc. auto.
      * exists (S j), c', r. rewrite Nat.add_succ_r. auto.
    + intros (j & c' & r & E & K & -> & Sh). destruct j as [|j]; cbn in E.
      * injection E as <-. left. rewrite K. apply Hc. exists r.
        rewrite Nat.add_0_r, <- app_assoc. auto.
      * right. exists j, c', r. rewrite Nat.add_succ_r. auto.
Qed.

Lemma treeRows_addr : forall n here prefix isLast a,
  In a (map row_addr (treeRows n here prefix isLast)) <->
  exists r, a = here ++ r /\ shown n r = true.
Proof.
  induction n as [n IH] using node_ind. intros here prefix isLast a.
  rewrite treeRows_unfold. cbn [map row_addr In].
  rewrite (rowsOf_addr here _ (children n) 0 a IH). split.
  - intros [<-|(j & c & r & E & K & -> & Sh)].
    + exists []. now rewrite app_nil_r.
    + exists (j :: r). cbn [Nat.add shown]. now rewrite E, K, Sh.
  - intros (r & -> & Sh). destruct r as [|j r].
    + left. now rewrite app_nil_r.
    + right. cbn [shown] in Sh.
      destruct (nth_error (children n) j) as [c|] eqn:E; try discriminate.
      apply andb_true_iff in Sh as [K Sh]. exists j, c, r. auto.
Qed.

(** The nodes drawn in the tree segment. *)
Lemma fileTreeRows_addr root a :
  In a (map row_addr (fileTreeRows root)) <-> a <> [] /\ shown root a = true.
Proof.
  unfold fileTreeRows.
  rewrite (rowsOf_addr [] "" (children root) 0 a).
  2:{ apply Forall_forall. intros c _. apply treeRows_addr. }
  split.
  - intros (j & c & r & E & K & -> & Sh). cbn [app Nat.add shown].
    rewrite E, K, Sh. split; [discriminate|reflexivity].
  - intros [Ha Sh]. destruct a as [|j r]; [congruence|]. cbn [shown] in Sh.
    destruct (nth_error (children root) j) as [c|] eqn:E; try discriminate.
    apply andb_true_iff in Sh as [K Sh]. exists j, c, r. auto.
Qed.

Lemma rowsOf_node (P : row -> Prop) here prefix cs : forall k rw,
  Forall (fun c => forall here prefix isLast rw,
            In rw (treeRows c here prefix isLast) -> P rw) cs ->
  In rw (rowsOf here prefix (map (fun c => (c, treeRows c)) cs) k) -> P rw.
Proof.
  induction cs as [|c cs IH]; intros k rw H; cbn [map rowsOf fst snd].
  - intros [].
  - inversion H as [|? ? Hc Hcs]; subst. rewrite in_app_iff.
    intros [Hin|Hin]; [|eapply IH; eauto].
    destruct (keepChild c); [eapply Hc; eauto|destruct Hin].
Qed.

(** What a row says: the name of its node, after the connector. *)
Lemma treeRows_line : forall n here prefix isLast rw,
  In rw (treeRows n here prefix isLast) ->
  exists pre l,
    row_line rw =
    (pre ++ connector l ++ Str.Base (path (row_node rw)) ++ nl)%string.
Proof.
  induction n as [n IH] using node_ind. intros here prefix isLast rw.
  rewrite treeRows_unfold. intros [<-|H].
  - cbn [row_line row_node]. eauto.
  - apply (rowsOf_node
             (fun rw => exists pre l,
                row_line rw =
                (pre ++ connector l ++ Str.Base (path (row_node rw)) ++ nl)%string)
             here _ (children n) 0 rw IH H).
Qed.

Lemma subtree_unfold n : subtree n = n :: flat_map subtree (children n).
Proof. destruct n; reflexivity. Qed.

Lemma subtree_nodeAt s : forall n c d,
  nodeAt n s = Some c -> In d (subtree c) -> In d (subtree n).
Proof.
  induction s as [|i s IH]; intros n c d H Hd; cbn [nodeAt] in H.
  - now injection H as ->.
  - destruct (nth_error (children n) i) as [ci|] eqn:E; try discriminate.
    rewrite subtree_unfold. right. apply in_flat_map. exists ci. split.
    + eapply nth_error_In; eauto.
    + eapply IH; eauto.
Qed.

Lemma hasSelected_unfold n :
  hasSelected n =
  if selected n && negb (isDir n) then true
  else if childrenLoaded n then existsb hasSelected (children n)
  else false.
Proof. destruct n; reflexivity. Qed.

(** [hasSelected] finds selected files only. *)
Lemma hasSelected_sound : forall n,
  hasSelected n = true -> exists d, In d (subtree n) /\ selFile d = true.
Proof.
  induction n as [n IH] using node_ind. rewrite hasSelected_unfold.
  fold (selFile n). destruct (selFile n) eqn:Es.
  - intros _. exists n. rewrite subtree_unfold. split; [now left|auto].
  - destruct (childrenLoaded n); [|discriminate]. intros H.
    apply existsb_exists in H as (c & Hc & H). rewrite Forall_forall in IH.
    destruct (IH c Hc H) as (d & Hd & Sd). exists d. split; auto.
    rewrite subtree_unfold. right. apply in_flat_map. eauto.
Qed.

(** In a well-formed tree it finds every one of them. *)
Lemma hasSelected_complete : forall n,
  wf n = true -> (exists d, In d (subtree n) /\ selFile d = true) ->
  hasSelected n = true.
Proof.
  induction n as [n IH] using node_ind. intros Hw (d & Hd & Sd).
  rewrite hasSelected_unfold. fold (selFile n).
  destruct (selFile n) eqn:Es; auto.
  rewrite subtree_unfold in Hd. destruct Hd as [->|Hd]; [congruence|].
  apply in_flat_map in Hd as (c & Hc & Hd).
  destruct (In_nth_error _ _ Hc) as [i Ei].
  destruct (wf_parent _ _ _ Hw Ei) as [_ ->].
  apply existsb_exists. exists c. split; auto.
  rewrite Forall_forall in IH. apply IH; eauto. eapply wf_child; eauto.
Qed.

Lemma keepChild_iff n :
  wf n = true ->
  (keepChild n = true <->
   selected n = true \/ exists d, In d (descendants n) /\ selFile d = true).
Proof.
  intros Hw. unfold keepChild. rewrite orb_true_iff. split.
  - intros [H|H]; auto. apply hasSelected_sound in H as (d & Hd & Sd).
    rewrite subtree_unfold in Hd. destruct Hd as [<-|Hd].
    + left. unfold selFile in Sd. now apply andb_true_iff in Sd.
    + right. exists d. auto.
  - intros [H|(d & Hd & Sd)]; auto. right.
    apply hasSelected_complete; auto. exists d. split; auto.
    rewrite subtree_unfold. now right.
Qed.

Lemma shown_prefixes r : forall n,
  shown n r = true <->
  (forall b s, r = b ++ s -> b <> [] ->
     exists c, nodeAt n b = Some c /\ keepChild c = true).
Proof.
  induction r as [|i r IH]; intros n; cbn [shown].
  - split; auto. intros _ b s E Hb. destruct b; [congruence|discriminate].
  - split.
    + intros H b s E Hb. destruct b as [|j b]; [congruence|].
      injection E as <- ->. cbn [nodeAt].
      destruct (nth_error (children n) i) as [c|]; try discriminate.
      apply andb_true_iff in H as [K S]. destruct b as [|j b].
      * cbn [nodeAt]. eauto.
      * apply (proj1 (IH c) S (j :: b) s); [reflexivity|discriminate].
    + intros H. destruct (H [i] r eq_refl) as (c & Hc & K); [discriminate|].
      cbn [nodeAt] in Hc.
      destruct (nth_error (children n) i) as [ci|] eqn:E; try discriminate.
      injection Hc as ->. rewrite K. cbn [andb]. apply IH.
      intros b s -> Hb. destruct (H (i :: b) s eq_refl) as (c' & Hc' & K');
        [discriminate|].
      cbn [nodeAt] in Hc'. rewrite E in Hc'. eauto.
Qed.

Lemma rowsOf_In here prefix cs : forall k rw,
  In rw (rowsOf here prefix (map (fun c => (c, treeRows c)) cs) k) ->
  exists j c isLast,
    nth_error cs j = Some c /\ keepChild c = true /\
    In rw (treeRows c (here ++ [k + j]) prefix isLast).
Proof.
  induction cs as [|c cs IH]; intros k rw; cbn [map rowsOf fst snd].
  - intros [].
  - rewrite in_app_iff. intros [H|H].
    + destruct (keepChild c) eqn:K; [|destruct H].
      exists 0, c. eexists. rewrite Nat.add_0_r. eauto.
    + apply IH in H as (j & c' & l & E & K & H).
      exists (S j), c', l. rewrite Nat.add_succ_r. auto.
Qed.

(** The node of a row is the node at the row's address. *)
Lemma treeRows_node : forall n here prefix isLast rw,
  In rw (treeRows n here prefix isLast) ->
  exists r, row_addr rw = here ++ r /\ nodeAt n r = Some (row_node rw).
Proof.
  induction n as [n IH] using node_ind. intros here prefix isLast rw.
  rewrite treeRows_unfold. intros [<-|H].
  - exists []. cbn [row_addr row_node nodeAt]. now rewrite app_nil_r.
  - apply rowsOf_In in H as (j & c & l & E & _ & H). cbn [Nat.add] in H.
    rewrite Forall_forall in IH.
    apply (IH c (nth_error_In _ _ E)) in H as (r & Ea & Hn).
    exists (j :: r). rewrite Ea, <- app_assoc. cbn [app nodeAt].
    now rewrite E.
Qed.

Lemma fileTreeRows_node root rw :
  In rw (fileTreeRows root) ->
  nodeAt root (row_addr rw) = Some (row_node rw) /\
  exists pre l,
    row_line rw =
    (pre ++ connector l ++ Str.Base (path (row_node rw)) ++ nl)%string.
Proof.
  intros H. apply rowsOf_In in H as (j & c & l & E & _ & H).
  cbn [app Nat.add] in H. split.
  - apply treeRows_node in H as (r & -> & Hn). cbn [app nodeAt]. now rewrite E.
  - eapply treeRows_line; eauto.
Qed.

(** C1, as the code has it.  The tree segment is made of rows, one per
    drawn node, each naming its node.  In a well-formed tree a node
    below the root is drawn exactly when it and each of its ancestors
    below the root is selected or has a selected file somewhere below
    it.  So a node with nothing selected in its subtree is never drawn,
    and a node with a selected file somewhere below it always is,
    selected or not. *)
Theorem tree_segment_pruning (root : node) (a : addr) :
  wf root = true ->
  generateFileTree root = joinLines (map row_line (fileTreeRows root)) /\
  (forall rw, In rw (fileTreeRows root) ->
     nodeAt root (row_addr rw) = Some (row_node rw) /\
     exists pre l,
       row_line rw =
       (pre ++ connector l ++ Str.Base (path (row_node rw)) ++ nl)%string) /\
  (In a (map row_addr (fileTreeRows root)) <->
   a <> [] /\
   forall b s, a = b ++ s -> b <> [] ->
     exists c, nodeAt root b = Some c /\
       (selected c = true \/
        exists d, In d (descendants c) /\ selFile d = true)) /\
  (forall n, nodeAt root a = Some n ->
     (forall d, In d (subtree n) -> selected d = false) ->
     ~ In a (map row_addr (fileTreeRows root))) /\
  (forall n, a <> [] -> nodeAt root a = Some n ->
     (exists d, In d (descendants n) /\ selFile d = true) ->
     In a (map row_addr (fileTreeRows root))).
Proof.
  intros Hw.
  assert (Hiff : In a (map row_addr (fileTreeRows root)) <->
    a <> [] /\
    forall b s, a = b ++ s -> b <> [] ->
      exists c, nodeAt root b = Some c /\
        (selected c = true \/
         exists d, In d (descendants c) /\ selFile d = true)).
  { rewrite fileTreeRows_addr, shown_prefixes. split.
    - intros [Ha H]. split; auto. intros b s E Hb.
      destruct (H b s E Hb) as (c & Hc & K). exists c. split; auto.
      apply keepChild_iff; auto. eapply wf_nodeAt; eauto.
    - intros [Ha H]. split; auto. intros b s E Hb.
      destruct (H b s E Hb) as (c & Hc & K). exists c. split; auto.
      apply keepChild_iff; auto. eapply wf_nodeAt; eauto. }
  split; [apply generateFileTree_rows|].
  split; [apply fileTreeRows_node|].
  split; [exact Hiff|]. split.
  - intros n Hn Hnone Hin. apply Hiff in Hin as [Ha H].
    destruct (H a [] (eq_sym (app_nil_r a)) Ha) as (c & Hc & K).
    rewrite Hn in Hc. injection Hc as <-. destruct K as [K|(d & Hd & Sd)].
    + rewrite (Hnone n) in K; [discriminate|].
      rewrite subtree_unfold. now left.
    + unfold selFile in Sd. apply andb_true_iff in Sd as [Sd _].
      rewrite (Hnone d) in Sd; [discriminate|].
      rewrite subtree_unfold. now right.
  - intros n Ha Hn (d & Hd & Sd). apply Hiff. split; auto.
    intros b s -> Hb. rewrite nodeAt_app in Hn.
    destruct (nodeAt root b) as [c|] eqn:Hc; try discriminate.
    exists c. split; auto. destruct s as [|i s].
    + cbn [nodeAt] in Hn. injection Hn as ->. right. eauto.
    + right. exists d. split; auto. cbn [nodeAt] in Hn.
      destruct (nth_error (children c) i) as [ci|] eqn:Ei; try discriminate.
      unfold descendants. apply in_flat_map. exists ci. split.
      * eapply nth_error_In; eauto.
      * eapply subtree_nodeAt; eauto. rewrite subtree_unfold. now right.
Qed.

Lemma tree_segment_pruning_witness :
  In [0] (map row_addr (fileTreeRows Example.tree)) /\
  In [0; 1] (map row_addr (fileTreeRows Example.tree)) /\
  ~ In [1] (map row_addr (fileTreeRows Example.tree)).
Proof.
  destruct (tree_segment_pruning Example.tree [0] eq_refl)
    as (_ & _ & _ & _ & H0).
  destruct (tree_segment_pruning Example.tree [0; 1] eq_refl)
    as (_ & _ & H01 & _ & _).
  destruct (tree_segment_pruning Example.tree [1] eq_refl)
    as (_ & _ & _ & H1 & _).
  split; [|split].
  - apply (H0 Example.dirA); [discriminate|reflexivity|].
    exists (Example.file "/p/a/y.bin" true). split; [|reflexivity].
    right. left. reflexivity.
  - vm_compute. auto.
  - apply (H1 (Example.file "/p/b.txt" false)); [reflexivity|].
    intros d [<-|[]]. reflexivity.
Defined.

(** ** Running sessions *)

Lemma run_reachable evs : forall m : @model Simple.widgets,
  reachable m -> snd (Simple.run m evs) = false ->
  reachable (fst (Simple.run m evs)).
Proof.
  induction evs as [|[fs msg] evs IH]; intros m Hm; cbn [Simple.run].
  - auto.
  - pose proof (reach_step m fs msg Hm) as Hs.
    destruct (Update fs m msg) as [m' c]. cbn [fst snd] in Hs.
    destruct c; cbn [snd]; try discriminate; intros H; apply IH; auto;
      apply Hs; discriminate.
Qed.

Lemma session_reachable abspath fs evs (m : @model Simple.widgets) :
  Simple.session abspath fs evs = Some (m, false) -> reachable m.
Proof.
  unfold Simple.session.
  destruct (newModel (Some abspath) fs) as [m0|] eqn:E; [|discriminate].
  intros H. injection H as H.
  change m with (fst (m, false)). rewrite <- H. apply run_reachable.
  - eapply reach_start; eauto.
  - now rewrite H.
Qed.

Lemma runFrom_reachable {W : Widgets} evs : forall m : model,
  reachable m -> snd (runFrom m evs) = false ->
  reachable (fst (runFrom m evs)).
Proof.
  induction evs as [|[fs msg] evs IH]; intros m Hm; cbn [runFrom].
  - auto.
  - pose proof (reach_step m fs msg Hm) as Hs.
    destruct (Update fs m msg) as [m' c]. cbn [fst snd] in Hs.
    destruct c; cbn [snd]; try discriminate; intros H; apply IH; auto;
      apply Hs; discriminate.
Qed.

Lemma sessionFrom_reachable {W : Widgets} abspath fs evs (m : model) :
  sessionFrom abspath fs evs = Some (m, false) -> reachable m.
Proof.
  unfold sessionFrom.
  destruct (newModel (Some abspath) fs) as [m0|] eqn:E; [|discriminate].
  intros H. injection H as H.
  change m with (fst (m, false)). rewrite <- H. apply runFrom_reachable.
  - eapply reach_start; eauto.
  - now rewrite H.
Qed.

(** C1 as it was claimed does not hold.  In [/q], expand [a] and select
    the directory [b] inside it: [a] has a selected descendant and [b]
    is itself selected, and neither is drawn; the tree segment is empty. *)
Lemma pruning_counterexample :
  option_map (fun r : @model Simple.widgets * bool => (root (fst r), snd r))
    (Simple.session "/q" Example.fs1
       [(Example.fs1, KeyMsg "enter"); (Example.fs1, KeyMsg "down");
        (Example.fs1, KeyMsg " ")])
  = Some (Example.nested, false) /\
  (exists n d, nodeAt Example.nested [0] = Some n /\ selected n = false /\
               In d (descendants n) /\ selected d = true) /\
  (exists n, nodeAt Example.nested [0; 0] = Some n /\ selected n = true) /\
  ~ In [0] (map row_addr (fileTreeRows Example.nested)) /\
  ~ In [0; 0] (map row_addr (fileTreeRows Example.nested)) /\
  generateFileTree Example.nested = ""%string.
Proof.
  split; [vm_compute; reflexivity|]. split.
  - exists (mkNode "/q/a" true [Example.dirB] true false true), Example.dirB.
    repeat split. now left.
  - split; [exists Example.dirB; split; reflexivity|].
    split; [|split]; try (vm_compute; reflexivity);
      intros H; vm_compute in H; exact H.
Qed.

(** ** The file-contents segment *)

Lemma collect_unfold n selectedFiles :
  collect n selectedFiles =
  let sf := if selected n && negb (isDir n)
            then selectedFiles ++ [path n] else selectedFiles in
  if childrenLoaded n then
    fold_left (fun acc c => collect c acc) (children n) sf
  else sf.
Proof. destruct n; reflexivity. Qed.

Lemma selFiles_flat_map cs :
  map path (filter selFile (flat_map subtree cs)) =
  flat_map (fun c => map path (filter selFile (subtree c))) cs.
Proof.
  induction cs as [|c cs IH]; auto.
  cbn [flat_map]. now rewrite filter_app, map_app, IH.
Qed.

Lemma fold_collect cs : forall acc,
  Forall (fun c => forall acc,
            collect c acc = acc ++ map path (filter selFile (subtree c))) cs ->
  fold_left (fun acc c => collect c acc) cs acc =
  acc ++ map path (filter selFile (flat_map subtree cs)).
Proof.
  induction cs as [|c cs IH]; intros acc H; cbn [fold_left flat_map].
  - now rewrite app_nil_r.
  - inversion H as [|? ? Hc Hcs]; subst.
    rewrite IH, Hc by assumption.
    now rewrite filter_app, map_app, app_assoc.
Qed.

Lemma wf_unloaded n :
  wf n = true -> childrenLoaded n = false -> children n = [].
Proof.
  intros Hw Hl. destruct (children n) as [|c cs] eqn:E; auto.
  destruct (wf_parent n 0 c Hw) as [_ H]; [now rewrite E|congruence].
Qed.

(** [collect] gathers the selected files of a well-formed subtree, in
    the order of the depth-first walk. *)
Lemma collect_subtree : forall n acc,
  wf n = true ->
  collect n acc = acc ++ map path (filter selFile (subtree n)).
Proof.
  induction n as [n IH] using node_ind. intros acc Hw.
  rewrite collect_unfold, subtree_unfold. cbv zeta. cbn [filter].
  fold (selFile n).
  assert (Hk : forall sf,
    (if childrenLoaded n
     then fold_left (fun acc c => collect c acc) (children n) sf else sf) =
    sf ++ map path (filter selFile (flat_map subtree (children n)))).
  { intros sf. destruct (childrenLoaded n) eqn:El.
    - apply fold_collect. rewrite Forall_forall in *. intros c Hc acc'.
      apply IH; auto. destruct (In_nth_error _ _ Hc) as [i Ei].
      eapply wf_child; eauto.
    - rewrite (wf_unloaded n Hw El). cbn. now rewrite app_nil_r. }
  rewrite Hk. destruct (selFile n); cbn [map].
  - now rewrite <- app_assoc.
  - reflexivity.
Qed.

Lemma hasSelected_none n :
  wf n = true -> hasSelected n = false -> filter selFile (subtree n) = [].
Proof.
  intros Hw H. apply filter_none. intros d Hd.
  destruct (selFile d) eqn:E; auto.
  rewrite (hasSelected_complete n Hw) in H; [discriminate|eauto].
Qed.

Lemma rowsOf_selFiles here prefix cs : forall k,
  Forall (fun c => wf c = true) cs ->
  Forall (fun c => forall here prefix isLast,
            wf c = true ->
            filter selFile (map row_node (treeRows c here prefix isLast)) =
            filter selFile (subtree c)) cs ->
  filter selFile
    (map row_node (rowsOf here prefix (map (fun c => (c, treeRows c)) cs) k)) =
  filter selFile (flat_map subtree cs).
Proof.
  induction cs as [|c cs IH]; intros k Hw H; auto.
  inversion H as [|? ? Hc Hcs]; subst.
  inversion Hw as [|? ? Wc Wcs]; subst.
  cbn [map rowsOf fst snd flat_map].
  rewrite map_app, !filter_app, (IH (S k) Wcs Hcs). f_equal.
  destruct (keepChild c) eqn:K.
  - now apply Hc.
  - unfold keepChild in K. apply orb_false_iff in K as [_ K].
    now rewrite (hasSelected_none c Wc K).
Qed.

Lemma wf_children n : wf n = true -> Forall (fun c => wf c = true) (children n).
Proof.
  rewrite wf_unfold. intros H. apply andb_true_iff in H as [_ H].
  now apply forallb_Forall.
Qed.

(** The drawing leaves no selected file out, and keeps their order. *)
Lemma treeRows_selFiles : forall n here prefix isLast,
  wf n = true ->
  filter selFile (map row_node (treeRows n here prefix isLast)) =
  filter selFile (subtree n).
Proof.
  induction n as [n IH] using node_ind. intros here prefix isLast Hw.
  rewrite treeRows_unfold, subtree_unfold. cbn [map row_node filter].
  rewrite (rowsOf_selFiles here _ (children n) 0 (wf_children n Hw) IH).
  reflexivity.
Qed.

Lemma fold_blocks (f : string -> string) l : forall sb,
  fold_left (fun sb p => (sb ++ f p)%string) l sb =
  (sb ++ joinLines (map f l))%string.
Proof.
  induction l as [|p l IH]; intros sb; cbn [fold_left map].
  - unfold joinLines. cbn. now rewrite append_nil_r.
  - rewrite IH. unfold joinLines. cbn [fold_right].
    now rewrite append_assoc.
Qed.

(** The document: the three segments one after the other, a block per
    collected file in between. *)
Lemma generatePrompt_shape fs root value :
  generatePrompt fs root value =
  ("<file_tree>" ++ nl ++ generateFileTree root ++ "</file_tree>" ++ nl
   ++ joinLines (map (fileBlock fs) (collect root []))
   ++ "<user_request>" ++ nl ++ value ++ nl ++ "</user_request>")%string.
Proof.
  unfold generatePrompt. cbv zeta. rewrite fold_blocks.
  now rewrite !append_assoc.
Qed.

Lemma nodeAt_subtree s n c : nodeAt n s = Some c -> In c (subtree n).
Proof.
  intros H. eapply subtree_nodeAt; eauto. rewrite subtree_unfold. now left.
Qed.

(** C7.  Under a directory root, the files of the file-contents segment
    are the non-directory nodes with [selected = true], all of them and
    no other, in the order of the depth-first walk, which is the order
    in which the tree segment draws them.  Each has a block of its own
    in the document, made of its path and its content, which is the
    whole of what was read when that holds no null byte.  After a
    directory is selected wholesale every file under it is one of them. *)
Theorem file_contents_segment (fs : filesystem) (root : node) (value : string) :
  wf root = true -> isDir root = true ->
  collect root [] = map path (filter selFile (descendants root)) /\
  collect root [] =
    map path (filter selFile (map row_node (fileTreeRows root))) /\
  generatePrompt fs root value =
    ("<file_tree>" ++ nl ++ generateFileTree root ++ "</file_tree>" ++ nl
     ++ joinLines (map (fileBlock fs) (collect root []))
     ++ "<user_request>" ++ nl ++ value ++ nl ++ "</user_request>")%string /\
  (forall p, fileBlock fs p
             = (fileHeader p ++ fileContent fs p ++ fileFooter)%string) /\
  (forall p b, ReadFile fs p = Some b -> Str.Contains b Str.nul = false ->
     fileContent fs p = b) /\
  (forall a D r f,
     nodeAt root a = Some D -> nodeAt D r = Some f -> isDir f = false ->
     In (path f)
       (collect (updateAt root a (fun n => toggleSelect n true)) [])).
Proof.
  intros Hw Hd.
  assert (Hc : forall r0, wf r0 = true -> isDir r0 = true ->
            collect r0 [] = map path (filter selFile (descendants r0))).
  { intros r0 W D. rewrite collect_subtree by assumption.
    rewrite subtree_unfold. cbn [app filter]. unfold selFile at 1.
    rewrite D, andb_false_r. reflexivity. }
  split; [now apply Hc|]. split; [|split; [|split; [|split]]].
  - rewrite Hc by assumption. f_equal. unfold fileTreeRows, descendants.
    symmetry. apply rowsOf_selFiles; [now apply wf_children|].
    apply Forall_forall. intros c _ here prefix isLast.
    apply treeRows_selFiles.
  - apply generatePrompt_shape.
  - reflexivity.
  - intros p b E N. unfold fileContent. now rewrite E, N.
  - intros a D r f Ha Hr Hf.
    set (root' := updateAt root a (fun n => toggleSelect n true)).
    pose proof (toggleSelect_below root a D true r f Hw Ha Hr) as Hd'.
    fold root' in Hd'. set (d' := toggleSelect f true) in *.
    pose proof (toggleSelect_own f true) as Ho. fold d' in Ho.
    unfold own in Ho. injection Ho as Hp Hi _ Hs _.
    assert (W' : wf root' = true).
    { eapply wf_updateAt; eauto. apply wf_toggleSelect.
      eapply wf_nodeAt; eauto. }
    assert (D' : isDir root' = true).
    { unfold root'. rewrite isDir_updateAt; auto. intros c _.
      pose proof (toggleSelect_own c true) as H. unfold own in H. congruence. }
    rewrite (Hc root' W' D'), <- Hp. apply in_map. apply filter_In. split.
    + apply nodeAt_subtree in Hd'. rewrite subtree_unfold in Hd'.
      destruct Hd' as [<-|Hd']; [congruence|exact Hd'].
    + unfold selFile. now rewrite Hs, Hi, Hf.
Qed.

Lemma file_contents_segment_witness :
  collect Example.tree [] = ["/p/a/y.bin"%string] /\
  In "/p/b.txt"%string
    (collect (updateAt Example.tree [] (fun n => toggleSelect n true)) []).
Proof.
  destruct (file_contents_segment Example.fs0 Example.tree "" eq_refl eq_refl)
    as (H1 & _ & _ & _ & _ & H6).
  split.
  - rewrite H1. reflexivity.
  - apply (H6 [] Example.tree [1] (Example.file "/p/b.txt" false));
      reflexivity.
Defined.

(** ** Null bytes *)

Lemma list_ascii_app a b :
  list_ascii_of_string (a ++ b) =
  list_ascii_of_string a ++ list_ascii_of_string b.
Proof. induction a as [|c a IH]; simpl; congruence. Qed.

Lemma prefix_empty s : String.prefix "" s = true.
Proof. destruct s; reflexivity. Qed.

(** [strings.Contains(s, "\x00")] looks for the byte. *)
Lemma Contains_nul s :
  Str.Contains s Str.nul =
  existsb (Ascii.eqb Ascii.zero) (list_ascii_of_string s).
Proof.
  induction s as [|c s IH]; [reflexivity|].
  cbn [Str.Contains list_ascii_of_string existsb]. rewrite IH. f_equal.
  unfold Str.nul. cbn [String.prefix]. rewrite prefix_empty.
  destruct (ascii_dec Ascii.zero c) as [<-|N].
  - now rewrite Ascii.eqb_refl.
  - symmetry. now apply Ascii.eqb_neq.
Qed.

Lemma nulFree_In s : nulFree s <-> ~ In Ascii.zero (list_ascii_of_string s).
Proof.
  unfold nulFree. rewrite Contains_nul. split.
  - intros H Hin. assert (E : existsb (Ascii.eqb Ascii.zero)
                                (list_ascii_of_string s) = true).
    { apply existsb_exists. exists Ascii.zero.
      split; [exact Hin|apply Ascii.eqb_refl]. }
    congruence.
  - intros H. destruct (existsb _ _) eqn:E; auto.
    apply existsb_exists in E as (x & Hx & E). apply Ascii.eqb_eq in E.
    subst x. contradiction.
Qed.

Lemma nulFree_app a b : nulFree (a ++ b) <-> nulFree a /\ nulFree b.
Proof.
  rewrite !nulFree_In, list_ascii_app, in_app_iff. tauto.
Qed.

Lemma nulFree_joinLines l :
  (forall s, In s l -> nulFree s) -> nulFree (joinLines l).
Proof.
  induction l as [|x l IH]; intros H.
  - reflexivity.
  - unfold joinLines. cbn [fold_right]. apply nulFree_app. split.
    + apply H. now left.
    + apply IH. intros s Hs. apply H. now right.
Qed.

Lemma In_takeWhile {A} (f : A -> bool) l x :
  In x (Str.takeWhile f l) -> In x l.
Proof.
  induction l as [|y l IH]; simpl; auto. destruct (f y); simpl; tauto.
Qed.

Lemma In_dropWhile {A} (f : A -> bool) l x :
  In x (Str.dropWhile f l) -> In x l.
Proof.
  induction l as [|y l IH]; simpl; auto. destruct (f y); simpl; tauto.
Qed.

Lemma nulFree_Base p : nulFree p -> nulFree (Str.Base p).
Proof.
  intros H. unfold Str.Base. destruct (Str.isEmpty p); [reflexivity|].
  destruct (rev _) as [|c e] eqn:E; [reflexivity|]. rewrite <- E.
  apply nulFree_In. rewrite list_ascii_of_string_of_list_ascii.
  intros Hin. apply (proj1 (nulFree_In p) H).
  apply in_rev in Hin. apply In_takeWhile, In_dropWhile in Hin.
  now apply in_rev in Hin.
Qed.

Lemma nulFree_connector l : nulFree (connector l).
Proof. destruct l; reflexivity. Qed.

Lemma nulFree_continuation l : nulFree (continuation l).
Proof. destruct l; reflexivity. Qed.

Lemma nulFree_nl : nulFree nl.
Proof. reflexivity. Qed.

(** A line of the drawing has no null byte when the paths have none. *)
Lemma treeRows_nulFree : forall n here prefix isLast rw,
  (forall d, In d (subtree n) -> nulFree (path d)) -> nulFree prefix ->
  In rw (treeRows n here prefix isLast) -> nulFree (row_line rw).
Proof.
  induction n as [n IH] using node_ind. intros here prefix isLast rw Hp Hpre.
  rewrite treeRows_unfold. intros [<-|H].
  - cbn [row_line]. repeat (apply nulFree_app; split); auto.
    + apply nulFree_connector.
    + apply nulFree_Base, Hp. rewrite subtree_unfold. now left.
    + apply nulFree_nl.
  - apply rowsOf_In in H as (j & c & l & E & _ & H).
    rewrite Forall_forall in IH.
    apply (IH c (nth_error_In _ _ E)) in H; auto.
    + intros d Hd. apply Hp. rewrite subtree_unfold. right.
      apply in_flat_map. exists c. split; auto. eapply nth_error_In; eauto.
    + apply nulFree_app. split; auto. apply nulFree_continuation.
Qed.

Lemma generateFileTree_nulFree root :
  (forall d, In d (subtree root) -> nulFree (path d)) ->
  nulFree (generateFileTree root).
Proof.
  intros Hp. rewrite generateFileTree_rows. apply nulFree_joinLines.
  intros s Hs. apply in_map_iff in Hs as (rw & <- & Hrw).
  apply rowsOf_In in Hrw as (j & c & l & E & _ & H).
  apply (treeRows_nulFree c ([] ++ [0 + j]) "" l rw); [|reflexivity|exact H].
  intros d Hd. apply Hp. rewrite subtree_unfold. right.
  apply in_flat_map. exists c. split; auto. eapply nth_error_In; eauto.
Qed.

(** What is written for a file never holds a null byte. *)
Lemma fileContent_nulFree fs p : nulFree (fileContent fs p).
Proof.
  unfold fileContent. destruct (ReadFile fs p) as [b|]; [|reflexivity].
  destruct (Str.Contains b Str.nul) eqn:E; [reflexivity|exact E].
Qed.

Lemma fileBlock_nulFree fs p : nulFree p -> nulFree (fileBlock fs p).
Proof.
  intros H. unfold fileBlock.
  repeat (apply nulFree_app; split); auto; try reflexivity.
  apply fileContent_nulFree.
Qed.

Lemma fold_collect_In cs : forall acc p,
  Forall (fun c => forall acc p, In p (collect c acc) ->
            In p acc \/ exists d, In d (subtree c) /\ path d = p) cs ->
  In p (fold_left (fun acc c => collect c acc) cs acc) ->
  In p acc \/ exists d, In d (flat_map subtree cs) /\ path d = p.
Proof.
  induction cs as [|c cs IH]; intros acc p H; cbn [fold_left flat_map]; auto.
  inversion H as [|? ? Hc Hcs]; subst. intros Hin.
  apply IH in Hin as [Hin|(d & Hd & E)]; auto.
  - apply Hc in Hin as [Hin|(d & Hd & E)]; auto.
    right. exists d. rewrite in_app_iff. auto.
  - right. exists d. rewrite in_app_iff. auto.
Qed.

(** Every collected path is the path of a node of the tree. *)
Lemma collect_In : forall n acc p,
  In p (collect n acc) ->
  In p acc \/ exists d, In d (subtree n) /\ path d = p.
Proof.
  induction n as [n IH] using node_ind. intros acc p.
  rewrite collect_unfold, subtree_unfold. cbv zeta.
  assert (Hsf : In p (if selected n && negb (isDir n)
                      then acc ++ [path n] else acc) ->
                In p acc \/ exists d, In d (n :: flat_map subtree (children n))
                                      /\ path d = p).
  { destruct (selected n && negb (isDir n)); auto.
    rewrite in_app_iff. intros [H|[<-|[]]]; auto.
    right. exists n. split; auto. now left. }
  destruct (childrenLoaded n); auto.
  intros H. apply (fold_collect_In _ _ _ IH) in H as [H|(d & Hd & E)]; auto.
  right. exists d. split; auto. now right.
Qed.

(** C3.  A collected file that cannot be read, or whose bytes hold a
    null byte, has the placeholder for content, and its block with the
    placeholder stands in the document.  Whatever the files answer, the
    render gives a document: it holds the block of every collected file
    and ends with the user request.  No content written for a file holds
    a null byte, so the document holds none when the paths and the
    request hold none. *)
Theorem binary_placeholder (fs : filesystem) (root : node) (value p : string) :
  In p (collect root []) ->
  ReadFile fs p = None \/
  (exists b, ReadFile fs p = Some b /\ Str.Contains b Str.nul = true) ->
  fileContent fs p = "[Binary file]"%string /\
  (exists pre post,
     generatePrompt fs root value =
     (pre ++ (fileHeader p ++ "[Binary file]" ++ fileFooter) ++ post)%string) /\
  (forall q, In q (collect root []) ->
     exists pre post,
       generatePrompt fs root value = (pre ++ fileBlock fs q ++ post)%string) /\
  (exists pre,
     generatePrompt fs root value =
     (pre ++ "<user_request>" ++ nl ++ value ++ nl ++ "</user_request>")%string) /\
  (forall q, Str.Contains (fileContent fs q) Str.nul = false) /\
  ((forall d, In d (subtree root) -> Str.Contains (path d) Str.nul = false) ->
   Str.Contains value Str.nul = false ->
   Str.Contains (generatePrompt fs root value) Str.nul = false).
Proof.
  intros Hin Hbad.
  assert (Hc : fileContent fs p = "[Binary file]"%string).
  { unfold fileContent. destruct Hbad as [->|(b & -> & ->)]; reflexivity. }
  assert (Hblock : forall q, In q (collect root []) ->
            exists pre post,
              generatePrompt fs root value
              = (pre ++ fileBlock fs q ++ post)%string).
  { intros q Hq. rewrite generatePrompt_shape.
    apply in_split in Hq as (l1 & l2 & ->).
    rewrite map_app, joinLines_app. cbn [map].
    exists ("<file_tree>" ++ nl ++ generateFileTree root ++ "</file_tree>" ++ nl
            ++ joinLines (map (fileBlock fs) l1))%string.
    exists (joinLines (map (fileBlock fs) l2)
            ++ "<user_request>" ++ nl ++ value ++ nl ++ "</user_request>")%string.
    unfold joinLines at 2. cbn [fold_right].
    fold (joinLines (map (fileBlock fs) l2)).
    now rewrite !append_assoc. }
  split; [exact Hc|]. split; [|split; [exact Hblock|split; [|split]]].
  - destruct (Hblock p Hin) as (pre & post & E). exists pre, post.
    rewrite E. unfold fileBlock. fold (fileHeader p). fold fileFooter.
    now rewrite Hc.
  - rewrite generatePrompt_shape.
    exists ("<file_tree>" ++ nl ++ generateFileTree root ++ "</file_tree>" ++ nl
            ++ joinLines (map (fileBlock fs) (collect root [])))%string.
    now rewrite !append_assoc.
  - apply fileContent_nulFree.
  - intros Hp Hv. rewrite generatePrompt_shape.
    change (nulFree ("<file_tree>" ++ nl ++ generateFileTree root
                     ++ "</file_tree>" ++ nl
                     ++ joinLines (map (fileBlock fs) (collect root []))
                     ++ "<user_request>" ++ nl ++ value ++ nl
                     ++ "</user_request>")%string).
    repeat (apply nulFree_app; split); auto; try reflexivity.
    + now apply generateFileTree_nulFree.
    + apply nulFree_joinLines. intros s Hs.
      apply in_map_iff in Hs as (q & <- & Hq). apply fileBlock_nulFree.
      apply collect_In in Hq as [[]|(d & Hd & <-)]. now apply Hp.
Qed.

Lemma binary_placeholder_witness :
  fileContent Example.fs0 "/p/a/y.bin" = "[Binary file]"%string /\
  Str.Contains (generatePrompt Example.fs0 Example.tree "do it") Str.nul
  = false.
Proof.
  destruct (binary_placeholder Example.fs0 Example.tree "do it" "/p/a/y.bin")
    as (H1 & _ & _ & _ & _ & H6).
  - left. reflexivity.
  - right. eexists. split; reflexivity.
  - split; [exact H1|]. apply H6; [|reflexivity].
    intros d Hd. cbn in Hd.
    repeat (destruct Hd as [<-|Hd]; [reflexivity|]). destruct Hd.
Defined.

(** ** Store lookup *)

Lemma rangeFind_Some {A B} (body : nat -> A -> option B) cs : forall k b,
  rangeFind body cs k = Some b ->
  exists j c, nth_error cs j = Some c /\ body (k + j) c = Some b.
Proof.
  induction cs as [|c cs IH]; intros k b; cbn [rangeFind]; [discriminate|].
  destruct (body k c) as [b'|] eqn:E.
  - intros H. injection H as <-. exists 0, c. now rewrite Nat.add_0_r.
  - intros H. apply IH in H as (j & c' & Ej & H).
    exists (S j), c'. now rewrite Nat.add_succ_r.
Qed.

Lemma findNode_unfold n here p :
  findNode n here p =
  if String.eqb (path n) p then Some here
  else if childrenLoaded n then
    rangeFind (fun i c => findNode c (here ++ [i]) p) (children n) 0
  else None.
Proof. destruct n; reflexivity. Qed.

(** What [findNode] returns points at a node of the tree with the path
    asked for. *)
Lemma findNode_sound : forall n here p a,
  findNode n here p = Some a ->
  exists r c, a = here ++ r /\ nodeAt n r = Some c /\ path c = p.
Proof.
  induction n as [n IH] using node_ind. intros here p a.
  rewrite findNode_unfold. destruct (String.eqb (path n) p) eqn:E.
  - intros H. injection H as <-. exists [], n. rewrite app_nil_r.
    apply String.eqb_eq in E. auto.
  - destruct (childrenLoaded n); [|discriminate]. intros H.
    apply rangeFind_Some in H as (j & c & Ej & H). cbn [Nat.add] in H.
    rewrite Forall_forall in IH.
    apply (IH c (nth_error_In _ _ Ej)) in H as (r & c' & -> & Hr & Hp).
    exists (j :: r), c'. rewrite <- app_assoc. cbn [app nodeAt].
    now rewrite Ej.
Qed.

Lemma rangeFind_exists {A B} (body : nat -> A -> option B) cs : forall k j c b,
  nth_error cs j = Some c -> body (k + j) c = Some b ->
  exists b', rangeFind body cs k = Some b'.
Proof.
  induction cs as [|x cs IH]; intros k j c b E H; cbn [rangeFind].
  - destruct j; discriminate.
  - destruct (body k x) as [b0|] eqn:Ex; [eauto|].
    destruct j as [|j]; cbn [nth_error] in E.
    + injection E as ->. rewrite Nat.add_0_r in H. congruence.
    + apply (IH (S k) j c b E). now rewrite Nat.add_succ_r in H.
Qed.

Lemma findNode_complete r : forall n c here,
  wf n = true -> nodeAt n r = Some c ->
  exists a, findNode n here (path c) = Some a.
Proof.
  induction r as [|i r IH]; intros n c here Hw H; cbn [nodeAt] in H;
    rewrite findNode_unfold.
  - injection H as ->. rewrite String.eqb_refl. eauto.
  - destruct (String.eqb (path n) (path c)); [eauto|].
    destruct (nth_error (children n) i) as [ci|] eqn:E; try discriminate.
    destruct (wf_parent _ _ _ Hw E) as [_ ->].
    destruct (IH ci c (here ++ [i]) (wf_child _ _ _ Hw E) H) as [a Ha].
    apply (rangeFind_exists _ _ 0 i ci a E Ha).
Qed.

(** ** Lazy directory loader *)

Lemma loadEntries_length dir files : forall cs w,
  List.length (fst (loadEntries dir files cs w)) =
  List.length cs + List.length files.
Proof.
  induction files as [|f files IH]; intros cs w; cbn [loadEntries].
  - cbn. lia.
  - rewrite IH, length_app. cbn. lia.
Qed.

Lemma loadChildren_fail fs n w :
  ReadDir fs (path n) = None -> loadChildren fs n w = (n, w).
Proof. unfold loadChildren. now intros ->. Qed.

Lemma loadChildren_length fs n w files :
  ReadDir fs (path n) = Some files ->
  List.length (children (fst (loadChildren fs n w))) = List.length files.
Proof.
  unfold loadChildren. intros ->.
  pose proof (loadEntries_length (path n) files [] w) as H.
  destruct (loadEntries (path n) files [] w) as [cs w']. exact H.
Qed.

Lemma setNth_same {A} (l : list A) i x :
  nth_error l i = Some x -> setNth l i x = l.
Proof.
  revert i; induction l as [|y l IH]; intros [|i]; simpl; try discriminate.
  - congruence.
  - intros H. now rewrite IH.
Qed.

Lemma setChildren_same n : setChildren n (children n) = n.
Proof. destruct n; reflexivity. Qed.

(** Writing back what is there changes nothing. *)
Lemma updateAt_same a : forall n c,
  nodeAt n a = Some c -> updateAt n a (fun _ => c) = n.
Proof.
  induction a as [|i a IH]; intros n c H; cbn [nodeAt updateAt] in *.
  - congruence.
  - destruct (nth_error (children n) i) as [ci|] eqn:E; try discriminate.
    rewrite (IH ci c H), (setNth_same _ _ _ E). apply setChildren_same.
Qed.

Lemma takeWhile_stop {A} (f : A -> bool) l1 x l2 :
  (forall y, In y l1 -> f y = true) -> f x = false ->
  Str.takeWhile f (l1 ++ x :: l2) = l1.
Proof.
  intros H Hx. induction l1 as [|y l1 IH]; cbn [app Str.takeWhile].
  - now rewrite Hx.
  - rewrite (H y (or_introl eq_refl)). f_equal. apply IH.
    intros z Hz. apply H. now right.
Qed.

Lemma dropWhile_stop {A} (f : A -> bool) l1 x l2 :
  (forall y, In y l1 -> f y = true) -> f x = false ->
  Str.dropWhile f (l1 ++ x :: l2) = x :: l2.
Proof.
  intros H Hx. induction l1 as [|y l1 IH]; cbn [app Str.dropWhile].
  - now rewrite Hx.
  - rewrite (H y (or_introl eq_refl)). apply IH.
    intros z Hz. apply H. now right.
Qed.

Lemma dropWhile_keep {A} (f : A -> bool) x l :
  f x = false -> Str.dropWhile f (x :: l) = x :: l.
Proof. intros H. cbn. now rewrite H. Qed.

(** ** Paths *)

Lemma string_of_app l1 l2 :
  string_of_list_ascii (l1 ++ l2)
  = (string_of_list_ascii l1 ++ string_of_list_ascii l2)%string.
Proof. induction l1 as [|c l1 IH]; simpl; congruence. Qed.

(** An element without separator is read to its end. *)
Lemma elementsFrom_last l : forall cur,
  (forall c, In c l -> Str.isSep c = false) ->
  Str.elementsFrom cur l = [string_of_list_ascii (rev cur ++ l)].
Proof.
  induction l as [|c l IH]; intros cur H; cbn [Str.elementsFrom].
  - now rewrite app_nil_r.
  - rewrite (H c (or_introl eq_refl)). rewrite IH.
    + cbn [rev]. now rewrite <- app_assoc.
    + intros x Hx. apply H. now right.
Qed.

(** And up to the separator that follows it. *)
Lemma elementsFrom_upto l rest : forall cur,
  (forall c, In c l -> Str.isSep c = false) ->
  Str.elementsFrom cur (l ++ "/"%char :: rest)
  = string_of_list_ascii (rev cur ++ l) :: Str.elementsFrom [] rest.
Proof.
  induction l as [|c l IH]; intros cur H; cbn [app Str.elementsFrom].
  - change (Str.isSep "/"%char) with true. cbv iota. now rewrite app_nil_r.
  - rewrite (H c (or_introl eq_refl)). rewrite IH.
    + cbn [rev]. now rewrite <- app_assoc.
    + intros x Hx. apply H. now right.
Qed.

Lemma entryName_sepfree e :
  entryName e -> forall c, In c (list_ascii_of_string e) -> Str.isSep c = false.
Proof. intros (_ & _ & _ & H). exact H. Qed.

(** The elements of a clean absolute path followed by a separator. *)
Lemma elementsFrom_slashed es : forall cur l rest,
  Forall entryName es ->
  (forall c, In c l -> Str.isSep c = false) ->
  Str.elementsFrom cur
    (l ++ list_ascii_of_string (slashed es) ++ "/"%char :: rest)
  = string_of_list_ascii (rev cur ++ l) :: es ++ Str.elementsFrom [] rest.
Proof.
  induction es as [|e es IH]; intros cur l rest He Hl.
  - cbn [slashed list_ascii_of_string app]. now apply elementsFrom_upto.
  - inversion He as [|? ? He1 He2]; subst.
    cbn [slashed]. rewrite !list_ascii_app. cbn [list_ascii_of_string app].
    rewrite <- !app_assoc.
    rewrite (elementsFrom_upto l _ cur Hl). f_equal.
    rewrite (IH [] (list_ascii_of_string e) rest He2
               (entryName_sepfree e He1)).
    cbn [rev app]. now rewrite string_of_list_ascii_of_string.
Qed.

Lemma cleanStep_name rooted out dotdot e :
  entryName e -> Str.cleanStep rooted (out, dotdot) e = (e :: out, dotdot).
Proof.
  intros (H1 & H2 & H3 & _). unfold Str.cleanStep.
  apply String.eqb_neq in H1, H2, H3. now rewrite H1, H2, H3.
Qed.

Lemma fold_cleanStep_names rooted es : forall out dotdot,
  Forall entryName es ->
  fold_left (Str.cleanStep rooted) es (out, dotdot) = (rev es ++ out, dotdot).
Proof.
  induction es as [|e es IH]; intros out dotdot H; cbn [fold_left rev app];
    auto.
  inversion H as [|? ? He Hes]; subst.
  rewrite (cleanStep_name rooted out dotdot e He), IH by assumption.
  now rewrite <- app_assoc.
Qed.

Lemma joinSep_absPath es : ("/" ++ Str.joinSep es)%string = absPath es.
Proof.
  induction es as [|e es IH]; [reflexivity|].
  destruct es as [|e' es'].
  - cbn. now rewrite append_nil_r.
  - cbn [Str.joinSep absPath slashed] in *.
    change ("/" ++ e ++ "/" ++ Str.joinSep (e' :: es'))%string
      with ("/" ++ e ++ ("/" ++ Str.joinSep (e' :: es')))%string.
    cbn [String.append] in IH |- *. f_equal. f_equal.
    cbn [Str.joinSep] in IH. injection IH as IH. now rewrite IH.
Qed.

Lemma slashed_app es1 es2 :
  slashed (es1 ++ es2) = (slashed es1 ++ slashed es2)%string.
Proof.
  induction es1 as [|e es1 IH]; cbn [app slashed]; auto.
  rewrite IH. cbn. now rewrite !append_assoc.
Qed.

(** A rooted path whose elements are the names [es], with empty
    elements among them, cleans to the absolute path of [es]. *)
Lemma Clean_rooted p es :
  Str.isEmpty p = false -> Str.isRooted p = true ->
  fold_left (Str.cleanStep true) (Str.elements p) ([], 0) = (rev es, 0) ->
  Str.Clean p = absPath es.
Proof.
  intros He Hr Hf. unfold Str.Clean. rewrite He, Hr, Hf. cbn [fst].
  rewrite rev_involutive. apply joinSep_absPath.
Qed.

Lemma step_empty rooted st : Str.cleanStep rooted st ""%string = st.
Proof. now destruct st. Qed.

(** The steps over ["" :: es ++ more]. *)
Lemma fold_rooted_names es more :
  Forall entryName es ->
  fold_left (Str.cleanStep true) (""%string :: es ++ more) ([], 0)
  = fold_left (Str.cleanStep true) more (rev es, 0).
Proof.
  intros H. cbn [fold_left]. rewrite step_empty, fold_left_app.
  rewrite (fold_cleanStep_names true es [] 0 H). now rewrite app_nil_r.
Qed.

Lemma slashed_rooted e es tail :
  Str.isRooted (slashed (e :: es) ++ tail) = true /\
  Str.isEmpty (slashed (e :: es) ++ tail) = false.
Proof. split; reflexivity. Qed.

(** The elements of [slashed es ++ "/" ++ tail] for a tail without
    separator. *)
Lemma elements_slashed_tail es tail :
  Forall entryName es ->
  (forall c, In c (list_ascii_of_string tail) -> Str.isSep c = false) ->
  Str.elements (slashed es ++ "/" ++ tail)
  = ""%string :: es ++ [tail].
Proof.
  intros He Ht. unfold Str.elements.
  rewrite list_ascii_app. cbn [list_ascii_of_string String.append].
  pose proof (elementsFrom_slashed es [] [] (list_ascii_of_string tail) He
                (fun c (H : In c []) => match H with end)) as E.
  cbn [app rev] in E. rewrite E. do 2 f_equal.
  rewrite (elementsFrom_last _ [] Ht). cbn [rev app].
  now rewrite string_of_list_ascii_of_string.
Qed.

(** [Join] of a clean absolute path and an entry name adds the name. *)
Lemma Join_absPath es name :
  Forall entryName es -> entryName name ->
  Str.Join (absPath es) name = absPath (es ++ [name]).
Proof.
  intros He Hn. unfold Str.Join.
  assert (Hemp : Str.isEmpty (absPath es) = false)
    by (destruct es; reflexivity).
  rewrite Hemp. cbn [negb].
  assert (Hall : Forall entryName (es ++ [name])).
  { apply Forall_app. split; auto. }
  destruct es as [|e es'] eqn:Ees.
  - apply (Clean_rooted _ [name]); [reflexivity..|].
    assert (E : Str.elements (absPath [] ++ "/" ++ name)
                = [""%string; ""%string; name]).
    { unfold Str.elements.
      change (list_ascii_of_string (absPath [] ++ "/" ++ name))
        with ("/"%char :: "/"%char :: list_ascii_of_string name).
      cbn [Str.elementsFrom]. change (Str.isSep "/"%char) with true.
      cbv iota. cbn [rev string_of_list_ascii]. do 2 f_equal.
      rewrite (elementsFrom_last _ [] (entryName_sepfree name Hn)).
      cbn [rev app]. now rewrite string_of_list_ascii_of_string. }
    rewrite E. cbn [fold_left]. rewrite !step_empty.
    now rewrite (cleanStep_name true [] 0 name Hn).
  - rewrite <- Ees in *. assert (Ea : absPath es = slashed es)
      by (rewrite Ees; reflexivity).
    rewrite Ea. apply (Clean_rooted _ (es ++ [name])).
    + rewrite Ees. reflexivity.
    + rewrite Ees. reflexivity.
    + rewrite (elements_slashed_tail es name He (entryName_sepfree name Hn)).
      rewrite (fold_rooted_names es [name] He). cbn [fold_left].
      rewrite (cleanStep_name true (rev es) 0 name Hn).
      now rewrite rev_app_distr.
Qed.

Lemma absPath_snoc es name :
  absPath (es ++ [name]) = (slashed es ++ "/" ++ name)%string.
Proof.
  assert (E : absPath (es ++ [name]) = slashed (es ++ [name])).
  { destruct es; reflexivity. }
  rewrite E, slashed_app. cbn [slashed]. now rewrite append_nil_r.
Qed.

Lemma absPath_snoc_rev es name :
  rev (list_ascii_of_string (absPath (es ++ [name])))
  = rev (list_ascii_of_string name)
    ++ "/"%char :: rev (list_ascii_of_string (slashed es)).
Proof.
  rewrite absPath_snoc, !list_ascii_app. cbn [list_ascii_of_string].
  rewrite rev_app_distr. cbn [rev app]. now rewrite <- app_assoc.
Qed.

(** [Dir] of the child's path is the parent's path. *)
Lemma Dir_absPath es name :
  Forall entryName es -> entryName name ->
  Str.Dir (absPath (es ++ [name])) = absPath es.
Proof.
  intros He Hn. unfold Str.Dir. rewrite absPath_snoc_rev.
  rewrite (dropWhile_stop (fun c => negb (Str.isSep c))).
  2:{ intros y Hy. apply in_rev in Hy.
      now rewrite (entryName_sepfree name Hn y Hy). }
  2:{ reflexivity. }
  cbn [rev]. rewrite rev_involutive, string_of_app.
  rewrite string_of_list_ascii_of_string. cbn [string_of_list_ascii].
  apply (Clean_rooted _ es).
  - destruct es; reflexivity.
  - destruct es; reflexivity.
  - change (slashed es ++ "/")%string with (slashed es ++ "/" ++ "")%string.
    rewrite (elements_slashed_tail es "" He).
    + rewrite (fold_rooted_names es [""%string] He). reflexivity.
    + intros c [].
Qed.

(** [Base] of the child's path is the entry name. *)
Lemma Base_absPath es name :
  entryName name -> Str.Base (absPath (es ++ [name])) = name.
Proof.
  intros Hn. destruct Hn as (Hne & Hd & Hdd & Hs).
  assert (Hrn : forall y, In y (rev (list_ascii_of_string name)) ->
                  Str.isSep y = false).
  { intros y Hy. apply Hs. now apply in_rev. }
  unfold Str.Base.
  assert (Hemp : Str.isEmpty (absPath (es ++ [name])) = false).
  { rewrite absPath_snoc. destruct (slashed es); reflexivity. }
  rewrite Hemp, absPath_snoc_rev.
  destruct (rev (list_ascii_of_string name)) as [|y ys] eqn:Er.
  { exfalso. apply Hne. apply (f_equal (@rev ascii)) in Er.
    rewrite rev_involutive in Er. cbn in Er.
    rewrite <- (string_of_list_ascii_of_string name). now rewrite Er. }
  cbn [app]. rewrite (dropWhile_keep Str.isSep y _ (Hrn y (or_introl eq_refl))).
  change (y :: ys ++ "/"%char :: rev (list_ascii_of_string (slashed es)))
    with ((y :: ys) ++ "/"%char :: rev (list_ascii_of_string (slashed es))).
  rewrite takeWhile_stop.
  - rewrite <- Er, rev_involutive.
    destruct (list_ascii_of_string name) as [|z zs] eqn:En.
    + cbn in Er. discriminate.
    + rewrite <- En. apply string_of_list_ascii_of_string.
  - intros z Hz. now rewrite (Hrn z Hz).
  - reflexivity.
Qed.

(** [filepath.Clean] at work: [.] and empty elements go, [..] takes
    the element before it away and stops at the root. *)
Lemma Clean_examples :
  Str.Clean "/p/./a" = "/p/a"%string /\
  Str.Clean "/p//a/" = "/p/a"%string /\
  Str.Clean "/p/../.." = "/"%string /\
  Str.Clean "a/../../b/" = "../b"%string /\
  Str.Clean "" = "."%string /\
  Str.Join "/p" ".." = "/"%string /\
  Str.Join "/p" "." = "/p"%string /\
  Str.Join "" "a" = "a"%string /\
  Str.Join "/" "a" = "/a"%string /\
  Str.Dir "/p/./x" = "/p"%string /\
  Str.Dir "/x" = "/"%string /\
  Str.Dir "x" = "."%string.
Proof. vm_compute. repeat split. Qed.

(** ** Change-event router *)

Section Router.
Context {W : Widgets}.

Lemma onFsEvent_cases fs m ev :
  (exists a n,
     findNode (root m) [] (Str.Dir (ev_Name ev)) = Some a /\
     nodeAt (root m) a = Some n /\
     expanded n = true /\ ev_Op ev <> Op.Write /\
     onFsEvent fs m ev =
     (let r := updateAt (root m) a
                 (fun _ => fst (loadChildren fs n (watcher m))) in
      set_list
        (set_flatItems
           (set_watcher (set_root m r)
              (snd (loadChildren fs n (watcher m)))) (flatten r))
        (list_SetItems (m_list m) (flatten r)))) \/
  (~ reloads m ev /\ onFsEvent fs m ev = m).
Proof.
  unfold onFsEvent, reloads.
  destruct (findNode (root m) [] (Str.Dir (ev_Name ev))) as [a|] eqn:Ef.
  2:{ right. split; auto. intros (a & n & H & _). discriminate. }
  destruct (nodeAt (root m) a) as [n|] eqn:En.
  2:{ right. split; auto. intros (a' & n & H & H' & _). congruence. }
  destruct (expanded n) eqn:Ex; cbn [andb].
  2:{ right. split; auto. intros (a' & n' & H & H' & H'' & _). congruence. }
  destruct (N.eqb (ev_Op ev) Op.Write) eqn:Eo; cbn [negb].
  - right. split; auto. intros (_ & _ & _ & _ & _ & H).
    apply N.eqb_eq in Eo. contradiction.
  - left. exists a, n. apply N.eqb_neq in Eo. repeat split; auto.
    destruct (loadChildren fs n (watcher m)) as [n' w]. reflexivity.
Qed.

Lemma entryNameb_ok s : entryNameb s = true -> entryName s.
Proof.
  unfold entryNameb, entryName. rewrite !andb_true_iff, !negb_true_iff.
  intros [[[H1 H2] H3] H4]. apply String.eqb_neq in H1, H2, H3.
  repeat split; auto. intros c Hc. rewrite forallb_forall in H4.
  apply negb_true_iff. now apply H4.
Qed.

(** C4.  On a change notification the router looks up the directory
    of the changed path: for the path of an entry [name] of the clean
    absolute directory [absPath es], that is [absPath es].  In a
    well-formed tree a node carrying that path is found whenever the
    tree has one (the node itself when no other carries the path), and
    what is found always carries the path.  When the node found is
    expanded and the event is not a write alone, the node is loaded
    again in place, the list is flattened again and handed to the
    widget; otherwise the model is left as it was.  The outcome depends
    on what the directory holds exactly in the first case: that is when
    the loader is run.  So a change inside an expanded directory of the
    tree reloads that directory's node. *)
Theorem change_event_routing (m : model) (ev : Event) :
  (forall fs, snd (Update fs m (fsEventMsg ev)) = cmdBatch) /\
  (forall es name, Forall entryName es -> entryName name ->
     ev_Name ev = Str.Join (absPath es) name ->
     Str.Dir (ev_Name ev) = absPath es) /\
  (wf (root m) = true ->
   forall r c, nodeAt (root m) r = Some c ->
     path c = Str.Dir (ev_Name ev) ->
     exists a n,
       findNode (root m) [] (Str.Dir (ev_Name ev)) = Some a /\
       nodeAt (root m) a = Some n /\ path n = Str.Dir (ev_Name ev) /\
       ((forall r' c', nodeAt (root m) r' = Some c' ->
           path c' = path c -> r' = r) -> a = r)) /\
  (forall a, findNode (root m) [] (Str.Dir (ev_Name ev)) = Some a ->
     exists n, nodeAt (root m) a = Some n /\
               path n = Str.Dir (ev_Name ev)) /\
  (forall fs a n,
     findNode (root m) [] (Str.Dir (ev_Name ev)) = Some a ->
     nodeAt (root m) a = Some n ->
     expanded n = true -> ev_Op ev <> Op.Write ->
     let m' := fst (Update fs m (fsEventMsg ev)) in
     root m' = updateAt (root m) a
                 (fun _ => fst (loadChildren fs n (watcher m))) /\
     watcher m' = snd (loadChildren fs n (watcher m)) /\
     flatItems m' = flatten (root m') /\
     m_list m' = list_SetItems (m_list m) (flatten (root m'))) /\
  (forall fs, ~ reloads m ev -> fst (Update fs m (fsEventMsg ev)) = m) /\
  (reloads m ev <->
   exists fs1 fs2,
     root (fst (Update fs1 m (fsEventMsg ev))) <>
     root (fst (Update fs2 m (fsEventMsg ev)))) /\
  (wf (root m) = true ->
   forall fs es name r c,
     Forall entryName es -> entryName name ->
     ev_Name ev = Str.Join (absPath es) name ->
     nodeAt (root m) r = Some c -> path c = absPath es ->
     (forall r' c', nodeAt (root m) r' = Some c' ->
        path c' = absPath es -> r' = r) ->
     expanded c = true -> ev_Op ev <> Op.Write ->
     let m' := fst (Update fs m (fsEventMsg ev)) in
     root m' = updateAt (root m) r
                 (fun _ => fst (loadChildren fs c (watcher m))) /\
     flatItems m' = flatten (root m')).
Proof.
  assert (Hdir : forall es name, Forall entryName es -> entryName name ->
            ev_Name ev = Str.Join (absPath es) name ->
            Str.Dir (ev_Name ev) = absPath es).
  { intros es name He Hn ->. rewrite Join_absPath by assumption.
    now apply Dir_absPath. }
  assert (Hfind : wf (root m) = true ->
            forall r c, nodeAt (root m) r = Some c ->
              path c = Str.Dir (ev_Name ev) ->
              exists a n,
                findNode (root m) [] (Str.Dir (ev_Name ev)) = Some a /\
                nodeAt (root m) a = Some n /\
                path n = Str.Dir (ev_Name ev) /\
                ((forall r' c', nodeAt (root m) r' = Some c' ->
                    path c' = path c -> r' = r) -> a = r)).
  { intros Hw r c Hc Hp. rewrite <- Hp.
    destruct (findNode_complete r (root m) c [] Hw Hc) as [a Ha].
    destruct (findNode_sound _ _ _ _ Ha) as (r' & c' & -> & Hr & Hp').
    exists r', c'. repeat split; auto. intros Hu. now apply (Hu r' c'). }
  assert (Hreload : forall fs a n,
            findNode (root m) [] (Str.Dir (ev_Name ev)) = Some a ->
            nodeAt (root m) a = Some n ->
            expanded n = true -> ev_Op ev <> Op.Write ->
            let m' := fst (Update fs m (fsEventMsg ev)) in
            root m' = updateAt (root m) a
                        (fun _ => fst (loadChildren fs n (watcher m))) /\
            watcher m' = snd (loadChildren fs n (watcher m)) /\
            flatItems m' = flatten (root m') /\
            m_list m' = list_SetItems (m_list m) (flatten (root m'))).
  { intros fs a n Ef En Ex Eo. cbn [Update fst].
    destruct (onFsEvent_cases fs m ev)
      as [(a' & n' & Ef' & En' & _ & _ & ->)|[N _]].
    + assert (a' = a) by congruence. subst a'.
      assert (n' = n) by congruence. subst n'.
      cbv zeta. cbn [root watcher flatItems m_list set_list set_flatItems
                       set_watcher set_root]. auto.
    + exfalso. apply N. exists a, n. auto. }
  split; [reflexivity|]. split; [exact Hdir|]. split; [exact Hfind|].
  split; [|split; [exact Hreload|split; [|split]]].
  - intros a H. apply findNode_sound in H as (r & c & -> & Hr & Hp). eauto.
  - intros fs N. cbn [Update fst].
    destruct (onFsEvent_cases fs m ev)
      as [(a & n & Ef & En & Ex & Eo & _)|[_ H]]; auto.
    exfalso. apply N. exists a, n. auto.
  - split.
    + intros (a & n & Ef & En & Ex & Eo).
      exists (mkFs (fun _ => None) (fun _ => None)).
      exists (mkFs (fun _ => Some (entries (S (List.length (children n)))))
                (fun _ => None)).
      cbn [Update fst].
      destruct (onFsEvent_cases (mkFs (fun _ => None) (fun _ => None)) m ev)
        as [(a1 & n1 & Ef1 & En1 & _ & _ & ->)|[N _]].
      2:{ exfalso. apply N. exists a, n. auto. }
      destruct (onFsEvent_cases
                  (mkFs (fun _ => Some (entries (S (List.length (children n)))))
                     (fun _ => None)) m ev)
        as [(a2 & n2 & Ef2 & En2 & _ & _ & ->)|[N _]].
      2:{ exfalso. apply N. exists a, n. auto. }
      assert (a1 = a) by congruence. assert (a2 = a) by congruence.
      subst a1 a2.
      assert (n1 = n) by congruence. assert (n2 = n) by congruence.
      subst n1 n2.
      cbv zeta. cbn [root set_list set_flatItems set_watcher set_root].
      intros E. apply (f_equal (fun r => nodeAt r a)) in E.
      rewrite !(nodeAt_updateAt_here _ _ _ _ En) in E.
      injection E as E.
      apply (f_equal (fun x => List.length (children x))) in E.
      pose proof (loadChildren_length
                    (mkFs (fun _ => Some (entries (S (List.length (children n)))))
                       (fun _ => None))
                    n (watcher m)
                    (entries (S (List.length (children n)))) eq_refl) as L.
      rewrite L in E. unfold entries in E. rewrite repeat_length in E.
      unfold loadChildren in E. cbn [ReadDir fst] in E. lia.
    + intros (fs1 & fs2 & H).
      destruct (onFsEvent_cases fs1 m ev)
        as [(a & n & Ef & En & Ex & Eo & _)|[N E1]].
      { exists a, n. auto. }
      destruct (onFsEvent_cases fs2 m ev)
        as [(a & n & Ef & En & Ex & Eo & _)|[_ E2]].
      { exists a, n. auto. }
      exfalso. apply H. cbn [Update fst]. now rewrite E1, E2.
  - intros Hw fs es name r c He Hn Hev Hc Hp Hu Ex Eo.
    pose proof (Hdir es name He Hn Hev) as Ed.
    destruct (Hfind Hw r c Hc (eq_trans Hp (eq_sym Ed)))
      as (a & n & Ef & En & _ & Ha).
    assert (a = r) by (apply Ha; intros r' c' H1 H2; apply (Hu r' c');
                       congruence).
    subst a. assert (n = c) by congruence. subst n.
    destruct (Hreload fs r c Ef Hc Ex Eo) as (H1 & _ & H3 & _). auto.
Qed.

End Router.

Lemma change_event_routing_witness :
  exists m : @model Simple.widgets,
    newModel (Some "/p"%string) Example.fs0 = Some m /\
    fst (Update Example.fsGone m (fsEventMsg (mkEvent "/p/a/x.txt" Op.Create)))
    = m /\
    map path
      (children
         (root (fst (Update Example.fs2 m
                       (fsEventMsg (mkEvent "/p/new.txt" Op.Create))))))
    = ["/p/a"%string; "/p/b.txt"%string; "/p/new.txt"%string].
Proof.
  eexists. split; [vm_compute; reflexivity|].
  match goal with
  | |- fst (Update _ ?m _) = _ /\ _ =>
      destruct (change_event_routing m (mkEvent "/p/a/x.txt" Op.Create))
        as (_ & _ & _ & _ & _ & H4 & _);
      destruct (change_event_routing m (mkEvent "/p/new.txt" Op.Create))
        as (_ & _ & _ & _ & _ & _ & _ & H8)
  end.
  split.
  - apply H4.
    intros (a & n & Ef & En & Ex & _). vm_compute in Ef. injection Ef as <-.
    vm_compute in En. injection En as <-. discriminate Ex.
  - destruct (H8 eq_refl Example.fs2 ["p"%string] "new.txt"%string [] _
                (Forall_cons _ (entryNameb_ok "p" eq_refl) (Forall_nil _))
                (entryNameb_ok "new.txt" eq_refl) eq_refl eq_refl eq_refl)
      as [-> _].
    + intros [|i r'] c' Hc' Hp'; [reflexivity|exfalso].
      destruct i as [|[|i]]; destruct r' as [|j r']; vm_compute in Hc';
        try discriminate; try (destruct j; discriminate);
        try (injection Hc' as <-; vm_compute in Hp'; discriminate);
        destruct i; vm_compute in Hc'; discriminate.
    + reflexivity.
    + discriminate.
    + vm_compute. reflexivity.
Defined.

(** ** A failed load *)

Lemma err_onFsEvent {W : Widgets} fs (m : model) ev :
  err (onFsEvent fs m ev) = err m /\ prompt (onFsEvent fs m ev) = prompt m /\
  focus (onFsEvent fs m ev) = focus m /\
  textarea (onFsEvent fs m ev) = textarea m.
Proof.
  destruct (onFsEvent_cases fs m ev) as [(a & n & _ & _ & _ & _ & ->)|[_ ->]];
    auto.
Qed.

Lemma err_keyEnter {W : Widgets} fs (m : model) :
  err (keyEnter fs m) = err m /\ prompt (keyEnter fs m) = prompt m /\
  focus (keyEnter fs m) = focus m /\ textarea (keyEnter fs m) = textarea m.
Proof.
  unfold keyEnter. destruct (list_SelectedItem (m_list m)) as [sel|]; auto.
  destruct (nodeAt (root m) (item_node sel)) as [n|]; auto.
  destruct (isDir n); auto.
  destruct (if expanded (setExpanded n (negb (expanded n))) &&
               negb (childrenLoaded (setExpanded n (negb (expanded n))))
            then loadChildren fs (setExpanded n (negb (expanded n))) (watcher m)
            else (setExpanded n (negb (expanded n)), watcher m)) as [n2 w].
  auto.
Qed.

Lemma err_keySpace {W : Widgets} (m : model) :
  err (keySpace m) = err m /\ prompt (keySpace m) = prompt m /\
  focus (keySpace m) = focus m /\ textarea (keySpace m) = textarea m.
Proof.
  unfold keySpace. destruct (list_SelectedItem (m_list m)) as [sel|]; auto.
  destruct (nodeAt (root m) (item_node sel)) as [n|]; auto.
Qed.

(** C5, as the code has it.  When the directory cannot be read,
    [loadChildren] hands back the node and the watcher as they were.
    It has nothing else to hand back: in the session the tree, the
    watcher and the recorded error are as before after a change event
    whose load failed, ["enter"] on a directory only flips [expanded],
    and neither ends the session. *)
Theorem load_failure_silent (fs : filesystem) (n : node) (w : fsWatcher) :
  ReadDir fs (path n) = None ->
  loadChildren fs n w = (n, w) /\
  (forall (W : Widgets) (m : model) ev a,
     findNode (root m) [] (Str.Dir (ev_Name ev)) = Some a ->
     nodeAt (root m) a = Some n ->
     let m' := fst (Update fs m (fsEventMsg ev)) in
     snd (Update fs m (fsEventMsg ev)) = cmdBatch /\
     root m' = root m /\ watcher m' = watcher m /\ err m' = err m) /\
  (forall (W : Widgets) (m : model) sel,
     focus m = fileTreeView -> list_SettingFilter (m_list m) = false ->
     list_SelectedItem (m_list m) = Some sel ->
     nodeAt (root m) (item_node sel) = Some n -> isDir n = true ->
     let m' := fst (Update fs m (KeyMsg "enter")) in
     snd (Update fs m (KeyMsg "enter")) = cmdBatch /\
     root m' = updateAt (root m) (item_node sel)
                 (fun _ => setExpanded n (negb (expanded n))) /\
     watcher m' = watcher m /\ err m' = err m).
Proof.
  intros Hf. split; [now apply loadChildren_fail|]. split.
  - intros W m ev a Ef En. cbn [Update fst snd]. split; auto.
    destruct (onFsEvent_cases fs m ev)
      as [(a' & n' & Ef' & En' & _ & _ & ->)|[_ ->]]; auto.
    assert (a' = a) by congruence. subst a'.
    assert (n' = n) by congruence. subst n'.
    rewrite (loadChildren_fail fs n (watcher m) Hf).
    cbv zeta. cbn [fst snd root watcher err set_list set_flatItems
                     set_watcher set_root].
    rewrite (updateAt_same _ _ _ En). auto.
  - intros W m sel Hfo Hsf Hs Hn Hd. cbn [Update].
    change (String.eqb "enter" "ctrl+c" || String.eqb "enter" "q")
      with false.
    rewrite Hfo, Hsf. cbn [negb]. change (String.eqb "enter" "enter") with true.
    cbn [fst snd]. split; auto. unfold keyEnter. rewrite Hs, Hn, Hd.
    assert (Hf1 : ReadDir fs (path (setExpanded n (negb (expanded n)))) = None)
      by exact Hf.
    rewrite (loadChildren_fail fs _ (watcher m) Hf1).
    destruct (expanded (setExpanded n (negb (expanded n))) &&
              negb (childrenLoaded (setExpanded n (negb (expanded n)))));
      cbn [root watcher err set_list set_flatItems set_watcher set_root];
      auto.
Qed.

Lemma load_failure_silent_witness :
  loadChildren Example.fsGone Example.dirA ["/p"%string]
  = (Example.dirA, ["/p"%string]).
Proof.
  apply (load_failure_silent Example.fsGone Example.dirA ["/p"%string]).
  reflexivity.
Defined.

(** C5 as it was claimed does not hold: the caller is told nothing.  A
    failed load of a loaded, empty directory and a successful load of it
    leave the very same node and watcher, so nothing the caller holds
    tells the failure. *)
Lemma load_failure_unreported :
  ReadDir Example.fsGone (path Example.emptyDir) = None /\
  ReadDir Example.fsEmpty (path Example.emptyDir) = Some [] /\
  loadChildren Example.fsGone Example.emptyDir []
  = loadChildren Example.fsEmpty Example.emptyDir [] /\
  ~ (exists failed : node * fsWatcher -> bool,
       forall fs,
         failed (loadChildren fs Example.emptyDir []) = true <->
         ReadDir fs (path Example.emptyDir) = None).
Proof.
  repeat split.
  intros (failed & H).
  pose proof (proj2 (H Example.fsGone) eq_refl) as H1.
  pose proof (proj1 (H Example.fsEmpty)) as H2.
  change (loadChildren Example.fsEmpty Example.emptyDir [])
    with (loadChildren Example.fsGone Example.emptyDir []) in H2.
  specialize (H2 H1). discriminate H2.
Qed.

(** ** The session state machine *)

Section StateMachine.
Context {W : Widgets}.

Lemma generatePrompt_nonempty fs r v :
  Str.isEmpty (generatePrompt fs r v) = false.
Proof. rewrite generatePrompt_shape. reflexivity. Qed.

Lemma Update_quit_key fs (m : model) k :
  k = "q"%string \/ k = "ctrl+c"%string ->
  Update fs m (KeyMsg k) = (set_quitting m true, cmdQuit).
Proof. intros [->| ->]; reflexivity. Qed.

(** A step changes the focus only on ["tab"]. *)
Lemma focus_changes_on_tab fs (m : model) msg :
  focus (fst (Update fs m msg)) <> focus m -> msg = KeyMsg "tab".
Proof.
  destruct msg as [w h|k|ev|e|t]; cbn [Update]; try (cbn; congruence).
  - destruct (String.eqb k "ctrl+c" || String.eqb k "q");
      [cbn; congruence|].
    destruct (String.eqb k "tab") eqn:Et.
    { apply String.eqb_eq in Et. now subst. }
    destruct (focus m) eqn:Ef; cbn [fst].
    + destruct (negb (list_SettingFilter (m_list m)));
        [|cbn; congruence].
      destruct (String.eqb k "enter").
      { cbn [focus set_list]. destruct (err_keyEnter fs m) as (_ & _ & -> & _).
        congruence. }
      destruct (String.eqb k " ").
      { cbn [focus set_list]. destruct (err_keySpace m) as (_ & _ & -> & _).
        congruence. }
      cbn; congruence.
    + cbn; congruence.
    + destruct (String.eqb k "enter"); cbn; congruence.
  - cbn [fst]. destruct (err_onFsEvent fs m ev) as (_ & _ & -> & _).
    congruence.
Qed.

(** C8.  ["tab"] moves the focus one step round the cycle: from the
    tree view to the text area when the list is not taking keys for its
    filter, from the text area to the accept view, from the accept view
    to the tree view; while the filter is being typed the key goes to
    the list and the focus stays on the tree view.  The key never ends
    the session, and no other message moves the focus.  ["enter"] in
    the accept view stores the rendered document as the prompt and
    quits, and the prompt is what the program puts out.  ["q"] and
    ["ctrl+c"] quit from every state, and a session quit that way puts
    out nothing. *)
Theorem session_state_machine (fs : filesystem) (m : model) :
  (focus m = fileTreeView -> list_SettingFilter (m_list m) = false ->
   focus (fst (Update fs m (KeyMsg "tab"))) = textAreaView) /\
  (focus m = fileTreeView -> list_SettingFilter (m_list m) = true ->
   focus (fst (Update fs m (KeyMsg "tab"))) = fileTreeView /\
   m_list (fst (Update fs m (KeyMsg "tab"))) =
   list_Update (m_list m) (KeyMsg "tab") /\
   textarea (fst (Update fs m (KeyMsg "tab"))) = textarea m) /\
  (focus m = textAreaView ->
   focus (fst (Update fs m (KeyMsg "tab"))) = acceptView) /\
  (focus m = acceptView ->
   focus (fst (Update fs m (KeyMsg "tab"))) = fileTreeView) /\
  snd (Update fs m (KeyMsg "tab")) = cmdBatch /\
  (forall msg, focus (fst (Update fs m msg)) <> focus m ->
     msg = KeyMsg "tab") /\
  (focus m = acceptView ->
   Update fs m (KeyMsg "enter") =
   (set_prompt m (generatePrompt fs (root m) (textarea_Value (textarea m))),
    cmdQuit) /\
   output (fst (Update fs m (KeyMsg "enter"))) =
   Some (generatePrompt fs (root m) (textarea_Value (textarea m)))) /\
  (forall k, k = "q"%string \/ k = "ctrl+c"%string ->
     Update fs m (KeyMsg k) = (set_quitting m true, cmdQuit) /\
     (reachable m -> output (fst (Update fs m (KeyMsg k))) = None)).
Proof.
  assert (Ht : Update fs m (KeyMsg "tab") =
               match focus m with
               | fileTreeView =>
                   let m1 :=
                     if negb (list_SettingFilter (m_list m))
                     then set_textarea (set_focus m textAreaView)
                            (textarea_Focus (textarea m))
                     else m in
                   (set_list m1 (list_Update (m_list m1) (KeyMsg "tab")),
                    cmdBatch)
               | textAreaView =>
                   let m1 := set_textarea (set_focus m acceptView)
                               (textarea_Blur (textarea m)) in
                   (set_textarea m1
                      (textarea_Update (textarea m1) (KeyMsg "tab")),
                    cmdBatch)
               | acceptView => (set_focus m fileTreeView, cmdBatch)
               end).
  { cbn [Update].
    change (String.eqb "tab" "ctrl+c" || String.eqb "tab" "q") with false.
    cbv iota. destruct (focus m); reflexivity. }
  split; [|split; [|split; [|split; [|split; [|split; [|split]]]]]].
  - intros Hf Hs. rewrite Ht, Hf, Hs. reflexivity.
  - intros Hf Hs. rewrite Ht, Hf, Hs. cbn. auto.
  - intros Hf. rewrite Ht, Hf. reflexivity.
  - intros Hf. rewrite Ht, Hf. reflexivity.
  - rewrite Ht. destruct (focus m); reflexivity.
  - intros msg. apply focus_changes_on_tab.
  - intros Hf. cbn [Update].
    change (String.eqb "enter" "ctrl+c" || String.eqb "enter" "q") with false.
    cbv iota. rewrite Hf. change (String.eqb "enter" "enter") with true.
    cbv iota. split; auto. unfold output. cbn [fst prompt set_prompt].
    now rewrite generatePrompt_nonempty.
  - intros k Hk. rewrite (Update_quit_key fs m k Hk). split; auto.
    intros Hr. destruct (reachable_ok m Hr) as (_ & _ & Hp).
    unfold output. cbn [fst prompt set_quitting]. now rewrite Hp.
Qed.

(** C10.  The key ["q"] ends the session at once, whatever has the
    focus and whether or not the list filter is being typed, as
    ["ctrl+c"] does: the text area is not given the key and its text
    stays as it was, and nothing is put out.  So a step that changes
    the text area is the step of another message. *)
Theorem q_always_quits (fs : filesystem) (m : model) :
  Update fs m (KeyMsg "q") = (set_quitting m true, cmdQuit) /\
  Update fs m (KeyMsg "ctrl+c") = (set_quitting m true, cmdQuit) /\
  textarea (fst (Update fs m (KeyMsg "q"))) = textarea m /\
  (reachable m -> output (fst (Update fs m (KeyMsg "q"))) = None) /\
  (forall msg, textarea (fst (Update fs m msg)) <> textarea m ->
     msg <> KeyMsg "q" /\ msg <> KeyMsg "ctrl+c").
Proof.
  split; [reflexivity|]. split; [reflexivity|]. split; [reflexivity|].
  split.
  - intros Hr. destruct (reachable_ok m Hr) as (_ & _ & Hp).
    change (Update fs m (KeyMsg "q")) with (set_quitting m true, cmdQuit).
    unfold output. cbn [fst prompt set_quitting]. now rewrite Hp.
  - intros msg H. split; intros ->; apply H; reflexivity.
Qed.

End StateMachine.

Lemma session_state_machine_witness :
  exists m : @model Simple.widgets,
    Simple.session "/p" Example.fs0 [(Example.fs0, KeyMsg "tab")]
    = Some (m, false) /\
    focus m = textAreaView /\
    focus (fst (Update Example.fs0 m (KeyMsg "tab"))) = acceptView /\
    output (fst (Update Example.fs0 m (KeyMsg "q"))) = None.
Proof.
  eexists. split; [vm_compute; reflexivity|]. split; [reflexivity|].
  match goal with
  | |- focus (fst (Update _ ?m _)) = _ /\ _ =>
      destruct (session_state_machine Example.fs0 m)
        as (_ & _ & H3 & _ & _ & _ & _ & H8);
      split; [apply H3; reflexivity|];
      apply (H8 "q"%string); [left; reflexivity|];
      apply (session_reachable "/p" Example.fs0 [(Example.fs0, KeyMsg "tab")]);
      vm_compute; reflexivity
  end.
Defined.

(** C8 as it was claimed does not hold.  In [/p], ["/"] opens the
    filter of the list; the focus is on the tree view, and it is still
    there after ["tab"]. *)
Lemma tab_during_filter :
  exists m : @model Simple.widgets,
    Simple.session "/p" Example.fs0 [(Example.fs0, KeyMsg "/")]
    = Some (m, false) /\
    reachable m /\
    focus m = fileTreeView /\
    list_SettingFilter (m_list m) = true /\
    focus (fst (Update Example.fs0 m (KeyMsg "tab"))) = fileTreeView /\
    focus (fst (Update Example.fs0 m (KeyMsg "tab"))) <> textAreaView /\
    snd (Update Example.fs0 m (KeyMsg "tab")) = cmdBatch.
Proof.
  eexists. split; [vm_compute; reflexivity|]. split.
  - apply (session_reachable "/p" Example.fs0 [(Example.fs0, KeyMsg "/")]).
    vm_compute. reflexivity.
  - repeat split; try (vm_compute; reflexivity).
    vm_compute. discriminate.
Qed.

Lemma q_always_quits_witness :
  exists m : @model Simple.widgets,
    Simple.session "/p" Example.fs0
      [(Example.fs0, KeyMsg "tab"); (Example.fs0, KeyMsg "a")]
    = Some (m, false) /\
    textarea_Value (textarea m) = "a"%string /\
    output (fst (Update Example.fs0 m (KeyMsg "q"))) = None /\
    KeyMsg "a" <> KeyMsg "q".
Proof.
  eexists. split; [vm_compute; reflexivity|]. split; [reflexivity|].
  match goal with
  | |- output (fst (Update _ ?m _)) = _ /\ _ =>
      destruct (q_always_quits Example.fs0 m) as (_ & _ & _ & H4 & H5);
      assert (Hr : reachable m)
        by (apply (session_reachable "/p" Example.fs0
                     [(Example.fs0, KeyMsg "tab"); (Example.fs0, KeyMsg "a")]);
            vm_compute; reflexivity);
      split; [exact (H4 Hr)|apply (H5 (KeyMsg "a"))]
  end.
  vm_compute. discriminate.
Defined.

(** C10 as it was claimed does not hold.  With a text area that inserts
    the rune of a key it has no binding for, ["tab"] and then q with
    alt held leave a session that goes on with a q in the request: the
    key is ["alt+q"], not ["q"]. *)
Lemma q_in_request :
  exists m : @model Runes.widgets,
    @sessionFrom Runes.widgets "/p" Example.fs0
      [(Example.fs0, KeyMsg "tab"); (Example.fs0, KeyMsg "alt+q")]
    = Some (m, false) /\
    @reachable Runes.widgets m /\
    focus m = textAreaView /\
    @textarea_Value Runes.widgets (textarea m) = "q"%string /\
    hasQ (@textarea_Value Runes.widgets (textarea m)) = true.
Proof.
  eexists. split; [vm_compute; reflexivity|]. split.
  - apply (@sessionFrom_reachable Runes.widgets "/p" Example.fs0
             [(Example.fs0, KeyMsg "tab"); (Example.fs0, KeyMsg "alt+q")]).
    vm_compute. reflexivity.
  - repeat split.
Qed.

Lemma flatten_walk_witness :
  flatten Example.tree =
  [mkItem [0] 0; mkItem [0; 0] 1; mkItem [0; 1] 1; mkItem [1] 0] /\
  filter (below [1]) (flatten Example.tree) = [mkItem [1] 0].
Proof.
  destruct (flatten_walk Example.tree) as (H1 & _ & _ & _ & H5).
  split; [rewrite H1; reflexivity|].
  apply (H5 [1] (Example.file "/p/b.txt" false)); [reflexivity..|].
  rewrite H1. cbn. auto.
Defined.

(** * Further properties of the code *)

(** ** The loader on success *)

Lemma loadEntries_spec dir files : forall cs w,
  loadEntries dir files cs w =
  (cs ++ map (freshChild dir) files, w ++ subdirs dir files).
Proof.
  induction files as [|f files IH]; intros cs w; cbn [loadEntries].
  - unfold subdirs. cbn. now rewrite !app_nil_r.
  - rewrite IH. unfold subdirs. cbn [map filter isDir].
    fold (freshChild dir f). destruct (IsDir f); cbn [map];
      unfold watcherAdd; now rewrite <- !app_assoc.
Qed.

Lemma loadChildren_Some fs n w files :
  ReadDir fs (path n) = Some files ->
  loadChildren fs n w =
  (mkNode (path n) (isDir n) (map (freshChild (path n)) files)
     (expanded n) (selected n) true,
   w ++ subdirs (path n) files).
Proof.
  intros E. unfold loadChildren. rewrite E, loadEntries_spec. reflexivity.
Qed.

(** X1.  A successful [loadChildren] replaces the children by one fresh
    node per entry, in the order of the listing (the path joined from
    the directory and the entry name, the directory flag of the entry,
    nothing expanded, selected or loaded), marks the node loaded, keeps
    its other fields, and appends every subdirectory to the watcher in
    that order. *)
Theorem loadChildren_success (fs : filesystem) (n : node) (w : fsWatcher)
    (files : list dirEntry) :
  ReadDir fs (path n) = Some files ->
  loadChildren fs n w =
  (mkNode (path n) (isDir n) (map (freshChild (path n)) files)
     (expanded n) (selected n) true,
   w ++ subdirs (path n) files).
Proof.
  intros E. unfold loadChildren. rewrite E, loadEntries_spec. reflexivity.
Qed.

Lemma loadChildren_success_witness :
  loadChildren Example.fs0 (mkNode "/p" true [] true false false) ["/p"%string]
  = (mkNode "/p" true
       [mkNode "/p/a" true [] false false false;
        mkNode "/p/b.txt" false [] false false false] true false true,
     ["/p"%string; "/p/a"%string]).
Proof.
  rewrite (loadChildren_success Example.fs0 _ _
             [mkEntry "a" true; mkEntry "b.txt" false]); reflexivity.
Defined.

(** X2.  Loading again a directory whose listing has not changed gives
    the same node; the subdirectories are handed to the watcher once
    more.  Whatever the children were before a load, those after it are
    unselected, collapsed and without children: the state of the old
    children is not carried over. *)
Theorem reload_idempotent (fs : filesystem) (n : node) (w w' : fsWatcher)
    (files : list dirEntry) :
  ReadDir fs (path n) = Some files ->
  fst (loadChildren fs (fst (loadChildren fs n w)) w')
  = fst (loadChildren fs n w) /\
  snd (loadChildren fs (fst (loadChildren fs n w)) w')
  = w' ++ subdirs (path n) files /\
  Forall (fun c => selected c = false /\ expanded c = false /\
                   childrenLoaded c = false /\ children c = [])
    (children (fst (loadChildren fs n w))).
Proof.
  intros E. rewrite (loadChildren_Some fs n w files E). cbn [fst].
  rewrite (loadChildren_Some fs
             (mkNode (path n) (isDir n) (map (freshChild (path n)) files)
                (expanded n) (selected n) true) w' files E).
  cbn [fst snd path isDir expanded selected].
  repeat split. cbn [children]. apply Forall_forall. intros c Hc.
  apply in_map_iff in Hc as (f & <- & _). repeat split.
Qed.

Lemma reload_idempotent_witness :
  fst (loadChildren Example.fs0
         (fst (loadChildren Example.fs0 Example.dirA [])) [])
  = fst (loadChildren Example.fs0 Example.dirA []).
Proof.
  apply (reload_idempotent Example.fs0 Example.dirA [] []
           [mkEntry "x.txt" false; mkEntry "y.bin" false]).
  reflexivity.
Defined.

(** ** The watcher *)

Lemma loadChildren_watcher fs n w : exists l, snd (loadChildren fs n w) = w ++ l.
Proof.
  destruct (ReadDir fs (path n)) as [files|] eqn:E.
  - rewrite (loadChildren_Some fs n w files E). cbn [snd]. eauto.
  - rewrite (loadChildren_fail fs n w E). exists []. now rewrite app_nil_r.
Qed.

Lemma watched_more w l n : watched w n -> watched (w ++ l) n.
Proof.
  intros H d Hd Hi. apply in_or_app. left. now apply H.
Qed.

Lemma In_setNth {A} (l : list A) i u x :
  In x (setNth l i u) -> x = u \/ In x l.
Proof.
  revert i; induction l as [|y l IH]; intros [|i]; simpl; auto.
  - intros [<-|H]; auto.
  - intros [<-|H]; auto. apply IH in H as [H|H]; auto.
Qed.

(** The nodes after a write through a pointer: those of the node
    written, and nodes with the path and kind of the nodes before. *)
Lemma subtree_updateAt a : forall n f d,
  In d (subtree (updateAt n a f)) ->
  (exists c, nodeAt n a = Some c /\ In d (subtree (f c))) \/
  (exists d', In d' (subtree n) /\ path d' = path d /\ isDir d' = isDir d).
Proof.
  induction a as [|i a IH]; intros n f d; cbn [updateAt nodeAt].
  - intros H. left. eauto.
  - destruct (nth_error (children n) i) as [ci|] eqn:E.
    2:{ intros H. right. eauto. }
    rewrite subtree_unfold. cbn [children setChildren]. intros [<-|H].
    + right. exists n. rewrite subtree_unfold. split; [now left|auto].
    + apply in_flat_map in H as (x & Hx & Hd).
      apply In_setNth in Hx as [->|Hx].
      * apply IH in Hd as [(c & Hc & Hd)|(d' & Hd' & Hp)]; [left; eauto|].
        right. exists d'. split; auto. rewrite subtree_unfold. right.
        apply in_flat_map. exists ci. split; auto.
        eapply nth_error_In; eauto.
      * right. exists d. split; auto. rewrite subtree_unfold. right.
        apply in_flat_map. eauto.
Qed.

Lemma subtree_toggleSelect on : forall n d,
  In d (subtree (toggleSelect n on)) ->
  exists d', In d' (subtree n) /\ path d' = path d /\ isDir d' = isDir d.
Proof.
  induction n as [n IH] using node_ind. intros d.
  rewrite toggleSelect_unfold, (subtree_unfold n).
  destruct (isDir n) eqn:Ed.
  - rewrite subtree_unfold. cbn [children setChildren]. intros [<-|H].
    + exists n. split; [now left|]. cbn. auto.
    + apply in_flat_map in H as (x & Hx & Hd).
      apply in_map_iff in Hx as (c & <- & Hc).
      rewrite Forall_forall in IH.
      destruct (IH c Hc d Hd) as (d' & Hd' & Hp). exists d'. split; auto.
      right. apply in_flat_map. eauto.
  - rewrite subtree_unfold. cbn [children setSelected]. intros [<-|H].
    + exists n. split; [now left|]. cbn. auto.
    + exists d. split; auto. now right.
Qed.

Lemma watched_loadChildren fs n w :
  watched w n ->
  watched (snd (loadChildren fs n w)) (fst (loadChildren fs n w)).
Proof.
  intros H. destruct (ReadDir fs (path n)) as [files|] eqn:E.
  - rewrite (loadChildren_Some fs n w files E). cbn [fst snd].
    intros d Hd Hi. rewrite subtree_unfold in Hd. cbn [children] in Hd.
    destruct Hd as [<-|Hd].
    + apply in_or_app. left. apply (H n); auto.
      rewrite subtree_unfold. now left.
    + apply in_flat_map in Hd as (c & Hc & Hd).
      apply in_map_iff in Hc as (f & <- & Hf).
      destruct Hd as [<-|[]]. apply in_or_app. right.
      unfold subdirs. apply in_map_iff. exists f. split; auto.
      apply filter_In. auto.
  - now rewrite (loadChildren_fail fs n w E).
Qed.

Lemma watched_updateAt w root a f :
  watched w root ->
  (forall c, nodeAt root a = Some c -> watched w (f c)) ->
  watched w (updateAt root a f).
Proof.
  intros Hr Hf d Hd Hi.
  apply subtree_updateAt in Hd as [(c & Hc & Hd)|(d' & Hd' & Hp & Hk)].
  - apply (Hf c Hc d); auto.
  - rewrite <- Hp. apply Hr; auto. congruence.
Qed.

Section Watching.
Context {W : Widgets}.

Lemma keyEnter_watcher fs (m : model) :
  (exists l, watcher (keyEnter fs m) = watcher m ++ l) /\
  (watched (watcher m) (root m) ->
   watched (watcher (keyEnter fs m)) (root (keyEnter fs m))).
Proof.
  unfold keyEnter.
  assert (Hid : exists l, watcher m = watcher m ++ l)
    by (exists []; now rewrite app_nil_r).
  destruct (list_SelectedItem (m_list m)) as [sel|]; auto.
  destruct (nodeAt (root m) (item_node sel)) as [n|] eqn:En; auto.
  destruct (isDir n); auto.
  set (n1 := setExpanded n (negb (expanded n))).
  assert (H1 : forall w, watched w n -> watched w n1).
  { intros w H d Hd. rewrite subtree_unfold in Hd. destruct Hd as [<-|Hd].
    - apply (H n). rewrite subtree_unfold. now left.
    - apply (H d). rewrite subtree_unfold. now right. }
  assert (Hnw : exists l,
            snd (if expanded n1 && negb (childrenLoaded n1)
                 then loadChildren fs n1 (watcher m) else (n1, watcher m))
            = watcher m ++ l).
  { destruct (expanded n1 && negb (childrenLoaded n1)); auto.
    apply loadChildren_watcher. }
  assert (Hw2 : watched (watcher m) n ->
            watched
              (snd (if expanded n1 && negb (childrenLoaded n1)
                    then loadChildren fs n1 (watcher m) else (n1, watcher m)))
              (fst (if expanded n1 && negb (childrenLoaded n1)
                    then loadChildren fs n1 (watcher m) else (n1, watcher m)))).
  { intros H. destruct (expanded n1 && negb (childrenLoaded n1)).
    - apply watched_loadChildren. auto.
    - cbn [fst snd]. auto. }
  destruct (if expanded n1 && negb (childrenLoaded n1)
            then loadChildren fs n1 (watcher m) else (n1, watcher m))
    as [n2 w]. cbn [fst snd] in *.
  cbn [watcher root set_list set_flatItems set_watcher set_root].
  split; auto. intros Hr. destruct Hnw as [l ->].
  apply watched_updateAt.
  - now apply watched_more.
  - intros c Hc. apply Hw2. intros d Hd Hi. apply Hr; auto.
    exact (subtree_nodeAt _ _ _ _ En Hd).
Qed.

Lemma onFsEvent_watcher fs (m : model) ev :
  (exists l, watcher (onFsEvent fs m ev) = watcher m ++ l) /\
  (watched (watcher m) (root m) ->
   watched (watcher (onFsEvent fs m ev)) (root (onFsEvent fs m ev))).
Proof.
  destruct (onFsEvent_cases fs m ev)
    as [(a & n & _ & En & _ & _ & ->)|[_ ->]].
  2:{ split; auto. exists []. now rewrite app_nil_r. }
  cbv zeta. cbn [watcher root set_list set_flatItems set_watcher set_root].
  destruct (loadChildren_watcher fs n (watcher m)) as [l Hl].
  split; [eauto|]. intros Hr.
  assert (Hn : watched (watcher m) n).
  { intros d Hd. apply Hr. eapply subtree_nodeAt; eauto. }
  pose proof (watched_loadChildren fs n (watcher m) Hn) as H2.
  apply watched_updateAt; auto. rewrite Hl. now apply watched_more.
Qed.

Lemma keySpace_watcher (m : model) :
  watcher (keySpace m) = watcher m /\
  (watched (watcher m) (root m) ->
   watched (watcher (keySpace m)) (root (keySpace m))).
Proof.
  unfold keySpace. destruct (list_SelectedItem (m_list m)) as [sel|]; auto.
  destruct (nodeAt (root m) (item_node sel)) as [n|] eqn:En; auto.
  cbn [watcher root set_root]. split; auto. intros Hr.
  apply watched_updateAt; auto. intros c Hc d Hd Hi.
  apply subtree_toggleSelect in Hd as (d' & Hd' & Hp & Hk).
  rewrite <- Hp. apply Hr; [|congruence]. eapply subtree_nodeAt; eauto.
Qed.

Lemma Update_watcher fs (m : model) msg :
  (exists l, watcher (fst (Update fs m msg)) = watcher m ++ l) /\
  (watched (watcher m) (root m) ->
   watched (watcher (fst (Update fs m msg))) (root (fst (Update fs m msg)))).
Proof.
  assert (Hid : exists l, watcher m = watcher m ++ l)
    by (exists []; now rewrite app_nil_r).
  destruct msg as [w h|k|ev|e|t]; cbn [Update]; auto.
  - destruct (String.eqb k "ctrl+c" || String.eqb k "q"); auto.
    destruct (focus m); auto.
    + cbn [fst watcher root set_list].
      destruct (negb (list_SettingFilter (m_list m))); auto.
      destruct (String.eqb k "enter"); [apply keyEnter_watcher|].
      destruct (String.eqb k " ").
      { destruct (keySpace_watcher m) as [-> H]. auto. }
      destruct (String.eqb k "tab"); auto.
    + cbn [fst]. destruct (String.eqb k "tab"); auto.
    + destruct (String.eqb k "enter"); auto.
      destruct (String.eqb k "tab"); auto.
  - cbn [fst]. apply onFsEvent_watcher.
Qed.

(** X3.  Watch registrations are cumulative and cover the tree: a step
    only appends to the watcher, and in every state of a session the
    path of every directory node of the tree, the root included, has
    been handed to the watcher. *)
Theorem watcher_covers_tree (m : model) :
  reachable m ->
  watched (watcher m) (root m) /\
  (forall fs msg, exists l, watcher (fst (Update fs m msg)) = watcher m ++ l).
Proof.
  intros Hr. split; [|intros fs msg; apply Update_watcher].
  induction Hr as [abspath fs m H|m fs msg _ IH Hc].
  - unfold newModel in H.
    set (r0 := mkNode abspath true [] true false false) in H.
    assert (H0 : watched (watcherAdd [] abspath) r0).
    { intros d [<-|[]] _. now left. }
    pose proof (watched_loadChildren fs r0 _ H0) as Hl.
    destruct (loadChildren fs r0 (watcherAdd [] abspath)) as [r w].
    injection H as <-. exact Hl.
  - apply Update_watcher. exact IH.
Qed.

End Watching.

Lemma watcher_covers_tree_witness :
  exists m : @model Simple.widgets,
    newModel (Some "/p"%string) Example.fs0 = Some m /\
    watched (watcher m) (root m).
Proof.
  eexists. split; [vm_compute; reflexivity|].
  eapply watcher_covers_tree.
  apply (reach_start "/p"%string Example.fs0). vm_compute. reflexivity.
Defined.

(** ** The list follows the tree *)

Lemma flatMapI_map {A B C} (f : nat -> B -> list C) (g : A -> B) cs :
  forall k, flatMapI f (map g cs) k = flatMapI (fun i c => f i (g c)) cs k.
Proof.
  induction cs as [|c cs IH]; intros k; cbn [map flatMapI]; auto.
  now rewrite IH.
Qed.

(** The walk does not look at the selection. *)
Lemma preorder_toggleSelect on : forall n here d,
  preorder (toggleSelect n on) here d = preorder n here d.
Proof.
  induction n as [n IH] using node_ind. intros here d.
  rewrite toggleSelect_unfold, (preorder_unfold n).
  destruct (isDir n); rewrite preorder_unfold;
    cbn [expanded children setChildren setSelected]; [|reflexivity].
  f_equal. destruct (expanded n); auto.
  rewrite flatMapI_map. apply flatMapI_ext. intros i c Hc.
  rewrite Forall_forall in IH. now apply IH.
Qed.

Lemma flatMapI_setNth {A B} (f : nat -> A -> list B) l i x : forall k y,
  nth_error l i = Some y -> f (k + i) x = f (k + i) y ->
  flatMapI f (setNth l i x) k = flatMapI f l k.
Proof.
  revert i. induction l as [|z l IH]; intros [|i] k y E H;
    cbn [setNth flatMapI nth_error] in *; try discriminate.
  - injection E as ->. rewrite Nat.add_0_r in H. now rewrite H.
  - f_equal. apply (IH i (S k) y E).
    now rewrite Nat.add_succ_r in H.
Qed.

Lemma preorder_updateAt a : forall n f,
  (forall c, nodeAt n a = Some c ->
     forall here d, preorder (f c) here d = preorder c here d) ->
  forall here d, preorder (updateAt n a f) here d = preorder n here d.
Proof.
  induction a as [|i a IH]; intros n f H here d; cbn [updateAt].
  - now apply H.
  - destruct (nth_error (children n) i) as [ci|] eqn:E; auto.
    rewrite (preorder_unfold n), preorder_unfold.
    cbn [expanded children setChildren]. f_equal.
    destruct (expanded n); auto.
    apply (flatMapI_setNth _ _ _ _ 0 ci E). apply IH.
    intros c Hc. apply H. cbn [nodeAt]. now rewrite E.
Qed.

(** Selecting changes no row of the list. *)
Lemma flatten_toggleSelect root a on :
  flatten (updateAt root a (fun n => toggleSelect n on)) = flatten root.
Proof.
  rewrite !flatten_flattenSpec. unfold flattenSpec.
  destruct a as [|i a]; cbn [updateAt].
  - rewrite toggleSelect_unfold. destruct (isDir root);
      cbn [children setChildren setSelected]; auto.
    rewrite flatMapI_map. apply flatMapI_ext. intros j c _.
    apply preorder_toggleSelect.
  - destruct (nth_error (children root) i) as [ci|] eqn:E; auto.
    cbn [children setChildren].
    apply (flatMapI_setNth _ _ _ _ 0 ci E). apply preorder_updateAt.
    intros c _. apply preorder_toggleSelect.
Qed.

Section ListInSync.
Context {W : Widgets}.

(** X4.  In every state of a session the rows held by the model are
    the flattening of the tree as it stands: the loads and the
    expansions flatten again, and a selection, which does not, changes
    no row. *)
Theorem list_in_sync (m : model) :
  reachable m ->
  flatItems m = flatten (root m) /\
  (forall a on,
     flatten (updateAt (root m) a (fun n => toggleSelect n on))
     = flatten (root m)).
Proof.
  intros Hr. split; [|intros a on; apply flatten_toggleSelect].
  induction Hr as [abspath fs m H|m fs msg _ IH Hc].
  - unfold newModel in H. destruct (loadChildren fs _ _) as [r w].
    injection H as <-. reflexivity.
  - destruct msg as [w h|k|ev|e|t]; cbn [Update] in *; auto.
    + destruct (String.eqb k "ctrl+c" || String.eqb k "q");
        [cbn in Hc; congruence|].
      destruct (focus m).
      * cbn [fst flatItems root set_list].
        destruct (negb (list_SettingFilter (m_list m))); auto.
        destruct (String.eqb k "enter").
        { unfold keyEnter.
          destruct (list_SelectedItem (m_list m)) as [sel|]; auto.
          destruct (nodeAt (root m) (item_node sel)) as [n|]; auto.
          destruct (isDir n); auto.
          destruct (if expanded (setExpanded n (negb (expanded n))) &&
                       negb (childrenLoaded (setExpanded n (negb (expanded n))))
                    then loadChildren fs (setExpanded n (negb (expanded n)))
                           (watcher m)
                    else (setExpanded n (negb (expanded n)), watcher m))
            as [n2 w]. reflexivity. }
        destruct (String.eqb k " ").
        { unfold keySpace.
          destruct (list_SelectedItem (m_list m)) as [sel|]; auto.
          destruct (nodeAt (root m) (item_node sel)) as [n|]; auto.
          cbn [flatItems root set_root].
          now rewrite flatten_toggleSelect. }
        destruct (String.eqb k "tab"); auto.
      * cbn [fst]. destruct (String.eqb k "tab"); auto.
      * destruct (String.eqb k "enter"); [cbn in Hc; congruence|].
        destruct (String.eqb k "tab"); auto.
    + cbn [fst].
      destruct (onFsEvent_cases fs m ev)
        as [(a & n & _ & _ & _ & _ & ->)|[_ ->]]; auto.
Qed.

End ListInSync.

Lemma list_in_sync_witness :
  exists m : @model Simple.widgets,
    Simple.session "/p" Example.fs0
      [(Example.fs0, KeyMsg "enter"); (Example.fs0, KeyMsg " ")]
    = Some (m, false) /\
    flatItems m = flatten (root m).
Proof.
  eexists. split; [vm_compute; reflexivity|].
  eapply list_in_sync.
  apply (session_reachable "/p" Example.fs0
           [(Example.fs0, KeyMsg "enter"); (Example.fs0, KeyMsg " ")]).
  vm_compute. reflexivity.
Defined.

(** ** Store lookup finds what is there *)

(** X5.  In a well-formed tree [findNode] finds a node for every path
    that some node carries, and the node it returns carries the path
    asked for; so when it returns nothing, no node has that path.  The
    root is found under its own path without looking further. *)
Theorem findNode_finds (root : node) :
  wf root = true ->
  (forall r c, nodeAt root r = Some c ->
     exists a c', findNode root [] (path c) = Some a /\
                  nodeAt root a = Some c' /\ path c' = path c) /\
  (forall p, findNode root [] p = None ->
     forall r c, nodeAt root r = Some c -> path c <> p) /\
  findNode root [] (path root) = Some [].
Proof.
  intros Hw.
  assert (H1 : forall r c, nodeAt root r = Some c ->
            exists a c', findNode root [] (path c) = Some a /\
                         nodeAt root a = Some c' /\ path c' = path c).
  { intros r c Hc. destruct (findNode_complete r root c [] Hw Hc) as [a Ha].
    destruct (findNode_sound _ _ _ _ Ha) as (r' & c' & -> & Hr & Hp).
    exists r', c'. auto. }
  split; [exact H1|]. split.
  - intros p Hn r c Hc <-. destruct (H1 r c Hc) as (a & _ & Ha & _).
    congruence.
  - rewrite findNode_unfold. now rewrite String.eqb_refl.
Qed.

Lemma findNode_finds_witness :
  findNode Example.tree [] (path Example.tree) = Some [] /\
  exists a c', findNode Example.tree [] "/p/a/x.txt" = Some a /\
               nodeAt Example.tree a = Some c' /\
               path c' = "/p/a/x.txt"%string.
Proof.
  destruct (findNode_finds Example.tree eq_refl) as (H1 & _ & H3).
  split; [exact H3|].
  exact (H1 [0; 0] (Example.file "/p/a/x.txt" false) eq_refl).
Defined.

(** ** What a step leaves alone *)

Section Frame.
Context {W : Widgets}.

(** X6.  The tree is written only by ["enter"] and [" "] in the tree
    view while the list filter is not being typed, and by a change
    event that reloads; every other message, and those keys anywhere
    else, leave the tree, the rows and the watcher as they were. *)
Theorem tree_written_only_by (fs : filesystem) (m : model) (msg : Msg) :
  (focus m = fileTreeView /\ list_SettingFilter (m_list m) = false /\
   (msg = KeyMsg "enter" \/ msg = KeyMsg " ")) \/
  (exists ev, msg = fsEventMsg ev /\ reloads m ev) \/
  (root (fst (Update fs m msg)) = root m /\
   flatItems (fst (Update fs m msg)) = flatItems m /\
   watcher (fst (Update fs m msg)) = watcher m).
Proof.
  destruct msg as [w h|k|ev|e|t]; cbn [Update]; auto.
  - destruct (String.eqb k "ctrl+c" || String.eqb k "q"); auto.
    destruct (focus m); auto.
    + destruct (list_SettingFilter (m_list m)); cbn [negb]; auto.
      destruct (String.eqb k "enter") eqn:Ee.
      { apply String.eqb_eq in Ee. subst. auto. }
      destruct (String.eqb k " ") eqn:Es.
      { apply String.eqb_eq in Es. subst. auto. }
      destruct (String.eqb k "tab"); auto.
    + destruct (String.eqb k "tab"); auto.
    + destruct (String.eqb k "enter"); auto.
      destruct (String.eqb k "tab"); auto.
  - cbn [fst].
    destruct (onFsEvent_cases fs m ev)
      as [(a & n & Ef & En & Ex & Eo & _)|[_ ->]]; auto.
    right. left. exists ev. split; auto. exists a, n. auto.
Qed.

(** X7.  A session puts out a document only by ["enter"] in the accept
    view: when a step from a state of a session leaves a prompt to put
    out, the message was that key in that view, the step ended the
    session, and the prompt is the rendering of the tree and the request
    of that moment. *)
Theorem document_only_on_confirm (fs : filesystem) (m : model) (msg : Msg)
    (doc : string) :
  reachable m ->
  output (fst (Update fs m msg)) = Some doc ->
  msg = KeyMsg "enter" /\ focus m = acceptView /\
  snd (Update fs m msg) = cmdQuit /\
  doc = generatePrompt fs (root m) (textarea_Value (textarea m)).
Proof.
  intros Hr. destruct (reachable_ok m Hr) as (_ & _ & Hp).
  assert (Hno : forall m', prompt m' = prompt m -> output m' = Some doc ->
            False).
  { intros m' E. unfold output. rewrite E, Hp. discriminate. }
  destruct msg as [w h|k|ev|e|t]; cbn [Update];
    try (intros H; exfalso; revert H; apply Hno; reflexivity).
  - destruct (String.eqb k "ctrl+c" || String.eqb k "q").
    { intros H; exfalso; revert H; apply Hno; reflexivity. }
    destruct (focus m).
    + intros H; exfalso; revert H; apply Hno. cbn [fst prompt set_list].
      destruct (negb (list_SettingFilter (m_list m))); auto.
      destruct (String.eqb k "enter"); [apply err_keyEnter|].
      destruct (String.eqb k " "); [apply err_keySpace|].
      destruct (String.eqb k "tab"); auto.
    + intros H; exfalso; revert H; apply Hno. cbn [fst].
      destruct (String.eqb k "tab"); auto.
    + destruct (String.eqb k "enter") eqn:Ee.
      * apply String.eqb_eq in Ee. subst k. cbn [fst snd]. unfold output.
        cbn [prompt set_prompt]. rewrite generatePrompt_nonempty.
        intros H. injection H as <-. auto.
      * intros H; exfalso; revert H; apply Hno.
        destruct (String.eqb k "tab"); auto.
  - intros H; exfalso; revert H; apply Hno. cbn [fst]. apply err_onFsEvent.
Qed.

End Frame.

Lemma document_only_on_confirm_witness :
  exists m : @model Simple.widgets,
    Simple.session "/p" Example.fs0
      [(Example.fs0, KeyMsg "tab"); (Example.fs0, KeyMsg "tab")]
    = Some (m, false) /\
    focus m = acceptView /\
    output (fst (Update Example.fs0 m (KeyMsg "enter")))
    = Some (generatePrompt Example.fs0 (root m) "").
Proof.
  eexists. split; [vm_compute; reflexivity|]. split; [reflexivity|].
  match goal with
  | |- output (fst (Update _ ?m _)) = _ =>
      assert (Hr : reachable m)
        by (apply (session_reachable "/p" Example.fs0
                     [(Example.fs0, KeyMsg "tab"); (Example.fs0, KeyMsg "tab")]);
            vm_compute; reflexivity);
      destruct (output (fst (Update Example.fs0 m (KeyMsg "enter"))))
        as [doc|] eqn:E; [|vm_compute in E; discriminate E];
      destruct (document_only_on_confirm Example.fs0 m (KeyMsg "enter") doc
                  Hr E) as (_ & _ & _ & ->); reflexivity
  end.
Defined.

(** ** Selecting twice *)

Lemma toggleSelect_twice Y : forall n X,
  toggleSelect (toggleSelect n X) Y = toggleSelect n Y.
Proof.
  induction n as [n IH] using node_ind. intros X.
  rewrite (toggleSelect_unfold n X), (toggleSelect_unfold n Y).
  destruct (isDir n) eqn:Ed; rewrite toggleSelect_unfold;
    cbn [isDir children setChildren setSelected]; rewrite Ed.
  - unfold setChildren, setSelected. cbn. f_equal.
    rewrite map_map. apply map_ext_in. intros c Hc.
    rewrite Forall_forall in IH. now apply IH.
  - reflexivity.
Qed.

Lemma setNth_twice {A} (l : list A) i x y :
  setNth (setNth l i x) i y = setNth l i y.
Proof.
  revert i; induction l as [|z l IH]; intros [|i]; simpl; auto.
  now rewrite IH.
Qed.

Lemma updateAt_twice a : forall n f g,
  updateAt (updateAt n a f) a g = updateAt n a (fun c => g (f c)).
Proof.
  induction a as [|i a IH]; intros n f g; cbn [updateAt]; auto.
  destruct (nth_error (children n) i) as [ci|] eqn:E.
  - cbn [updateAt children setChildren].
    rewrite (nth_error_setNth_eq _ _ _ _ E), setNth_twice, IH.
    reflexivity.
  - cbn [updateAt]. now rewrite E.
Qed.

Lemma updateAt_ext a : forall n f g,
  (forall c, f c = g c) -> updateAt n a f = updateAt n a g.
Proof.
  induction a as [|i a IH]; intros n f g H; cbn [updateAt]; auto.
  destruct (nth_error (children n) i); auto. now rewrite (IH _ f g H).
Qed.

Section SpaceTwice.
Context {W : Widgets}.

(** X8.  Selection is last-write-wins: [toggleSelect] after
    [toggleSelect] is the second alone.  So [" "] twice on a row gives
    the row its flag back and leaves every node below with the row's
    flag, whatever each had before; the rows of the list are as they
    were. *)
Theorem space_twice (m : model) (sel : item) (n : node) :
  list_SelectedItem (m_list m) = Some sel ->
  nodeAt (root m) (item_node sel) = Some n ->
  (forall c X Y, toggleSelect (toggleSelect c X) Y = toggleSelect c Y) /\
  root (keySpace (keySpace m))
  = updateAt (root m) (item_node sel)
      (fun c => toggleSelect c (selected n)) /\
  flatten (root (keySpace (keySpace m))) = flatten (root m).
Proof.
  intros Hs Hn.
  assert (E : root (keySpace (keySpace m))
              = updateAt (root m) (item_node sel)
                  (fun c => toggleSelect c (selected n))).
  { unfold keySpace at 2. rewrite Hs, Hn. unfold keySpace.
    cbn [m_list root set_root]. rewrite Hs.
    rewrite (nodeAt_updateAt_here _ _ _ _ Hn).
    cbn [root set_root]. rewrite updateAt_twice.
    pose proof (toggleSelect_own n (negb (selected n))) as Ho.
    unfold own in Ho. injection Ho as _ _ _ Hsel _. rewrite Hsel.
    rewrite negb_involutive. apply updateAt_ext. intros c.
    apply toggleSelect_twice. }
  split; [intros c X Y; apply toggleSelect_twice|]. split; [exact E|].
  rewrite E. apply flatten_toggleSelect.
Qed.

End SpaceTwice.

Lemma space_twice_witness :
  exists m : @model Simple.widgets,
    newModel (Some "/p"%string) Example.fs0 = Some m /\
    root (keySpace (keySpace m)) = root m.
Proof.
  eexists. split; [vm_compute; reflexivity|].
  match goal with
  | |- root (keySpace (keySpace ?m)) = _ =>
      destruct (space_twice m (mkItem [0] 0)
                  (mkNode "/p/a" true [] false false false)
                  eq_refl eq_refl) as (_ & -> & _)
  end.
  vm_compute. reflexivity.
Defined.

(** ** The document does not look at what is expanded *)

Lemma forgetExpanded_unfold n :
  forgetExpanded n =
  mkNode (path n) (isDir n) (map forgetExpanded (children n)) false
    (selected n) (childrenLoaded n).
Proof. destruct n; reflexivity. Qed.

Lemma existsb_map_ext {A} (f : A -> bool) (g : A -> A) l :
  Forall (fun x => f (g x) = f x) l -> existsb f (map g l) = existsb f l.
Proof.
  induction 1 as [|x l Hx _ IH]; cbn [map existsb]; auto. now rewrite Hx, IH.
Qed.

Lemma hasSelected_forget : forall n,
  hasSelected (forgetExpanded n) = hasSelected n.
Proof.
  induction n as [n IH] using node_ind.
  rewrite forgetExpanded_unfold, (hasSelected_unfold n), hasSelected_unfold.
  cbn [selected isDir childrenLoaded children].
  now rewrite (existsb_map_ext hasSelected forgetExpanded _ IH).
Qed.

Lemma keepChild_forget n : keepChild (forgetExpanded n) = keepChild n.
Proof.
  unfold keepChild. rewrite hasSelected_forget.
  now rewrite forgetExpanded_unfold.
Qed.

Lemma keptOf_cons {R} (c : node) (r : R) l :
  keptOf ((c, r) :: l) = if keepChild c then (c, r) :: keptOf l else keptOf l.
Proof. reflexivity. Qed.

Lemma renderList_forget prefix cs :
  Forall (fun c => forall prefix isLast,
            generateTreeRec (forgetExpanded c) prefix isLast
            = generateTreeRec c prefix isLast) cs ->
  renderList
    (keptOf (map (fun c => (c, generateTreeRec c)) (map forgetExpanded cs)))
    prefix
  = renderList (keptOf (map (fun c => (c, generateTreeRec c)) cs)) prefix.
Proof.
  induction 1 as [|c cs Hc Hcs IH]; auto.
  cbn [map]. rewrite !keptOf_cons.
  rewrite keepChild_forget. destruct (keepChild c).
  - cbn [renderList snd].
    rewrite IH, Hc, !isNil_keptOf. do 3 f_equal.
    apply existsb_map_ext. apply Forall_forall. intros x _.
    apply keepChild_forget.
  - exact IH.
Qed.

Lemma generateTreeRec_forget : forall n prefix isLast,
  generateTreeRec (forgetExpanded n) prefix isLast
  = generateTreeRec n prefix isLast.
Proof.
  induction n as [n IH] using node_ind. intros prefix isLast.
  rewrite !generateTreeRec_unfold, !renderKept_renderList.
  rewrite forgetExpanded_unfold. cbn [path children].
  now rewrite (renderList_forget _ _ IH).
Qed.

Lemma fold_left_map {A B C} (f : A -> B -> A) (g : C -> B) l : forall a,
  fold_left f (map g l) a = fold_left (fun a x => f a (g x)) l a.
Proof. induction l as [|x l IH]; intros a; cbn; auto. Qed.

Lemma fold_left_ext_in {A B} (f g : A -> B -> A) l :
  Forall (fun x => forall a, f a x = g a x) l ->
  forall a, fold_left f l a = fold_left g l a.
Proof.
  induction 1 as [|x l Hx _ IH]; intros a; cbn; auto. now rewrite Hx, IH.
Qed.

Lemma collect_forget : forall n acc,
  collect (forgetExpanded n) acc = collect n acc.
Proof.
  induction n as [n IH] using node_ind. intros acc.
  rewrite (collect_unfold n), forgetExpanded_unfold, collect_unfold.
  cbn [path selected isDir childrenLoaded children]. cbv zeta.
  destruct (childrenLoaded n); auto.
  rewrite fold_left_map. apply fold_left_ext_in.
  apply Forall_forall. intros c Hc a. rewrite Forall_forall in IH.
  now apply IH.
Qed.

Lemma generatePrompt_forget fs root v :
  generatePrompt fs (forgetExpanded root) v = generatePrompt fs root v.
Proof.
  rewrite !generatePrompt_shape. rewrite collect_forget.
  assert (E : generateFileTree (forgetExpanded root) = generateFileTree root).
  { unfold generateFileTree. rewrite !renderKept_renderList.
    rewrite forgetExpanded_unfold. cbn [children].
    rewrite renderList_forget; auto.
    apply Forall_forall. intros c _. apply generateTreeRec_forget. }
  now rewrite E.
Qed.

Lemma map_setNth {A B} (g : A -> B) l i x :
  map g (setNth l i x) = setNth (map g l) i (g x).
Proof.
  revert i; induction l as [|y l IH]; intros [|i]; simpl; auto.
  now rewrite IH.
Qed.

Lemma forgetExpanded_updateAt a : forall n f,
  (forall c, nodeAt n a = Some c -> forgetExpanded (f c) = forgetExpanded c) ->
  forgetExpanded (updateAt n a f) = forgetExpanded n.
Proof.
  induction a as [|i a IH]; intros n f H; cbn [updateAt].
  - now apply H.
  - destruct (nth_error (children n) i) as [ci|] eqn:E; auto.
    rewrite (forgetExpanded_unfold n), forgetExpanded_unfold.
    cbn [path isDir selected childrenLoaded children setChildren].
    f_equal. rewrite map_setNth, IH.
    + apply setNth_same. now rewrite nth_error_map, E.
    + intros c Hc. apply H. cbn [nodeAt]. now rewrite E.
Qed.

Lemma forgetExpanded_setExpanded n b :
  forgetExpanded (setExpanded n b) = forgetExpanded n.
Proof. now rewrite !forgetExpanded_unfold. Qed.

(** X9.  The document does not depend on what is expanded: collapsing
    every node, or setting the flag of any one node, renders the same
    document.  A selected file stays in the document when its directory
    is collapsed. *)
Theorem document_ignores_expanded (fs : filesystem) (root : node)
    (v : string) :
  generatePrompt fs (forgetExpanded root) v = generatePrompt fs root v /\
  (forall a b,
     generatePrompt fs (updateAt root a (fun c => setExpanded c b)) v
     = generatePrompt fs root v).
Proof.
  split; [apply generatePrompt_forget|]. intros a b.
  rewrite <- generatePrompt_forget, <- (generatePrompt_forget fs root).
  rewrite forgetExpanded_updateAt; auto.
  intros c _. apply forgetExpanded_setExpanded.
Qed.

Section EnterLoaded.
Context {W : Widgets}.

(** X10.  ["enter"] on a directory that is already loaded reads
    nothing: it flips the [expanded] flag of that node and nothing else
    in the tree, leaves the watcher alone, flattens the tree again, and
    the document that would be rendered is the same as before. *)
Theorem enter_loaded_directory (fs : filesystem) (m : model) (sel : item)
    (n : node) :
  list_SelectedItem (m_list m) = Some sel ->
  nodeAt (root m) (item_node sel) = Some n ->
  isDir n = true -> childrenLoaded n = true ->
  root (keyEnter fs m)
  = updateAt (root m) (item_node sel)
      (fun _ => setExpanded n (negb (expanded n))) /\
  watcher (keyEnter fs m) = watcher m /\
  flatItems (keyEnter fs m) = flatten (root (keyEnter fs m)) /\
  (forall fs' v, generatePrompt fs' (root (keyEnter fs m)) v
                 = generatePrompt fs' (root m) v).
Proof.
  intros Hs Hn Hd Hl.
  assert (E : keyEnter fs m =
    let r := updateAt (root m) (item_node sel)
               (fun _ => setExpanded n (negb (expanded n))) in
    set_list (set_flatItems (set_watcher (set_root m r) (watcher m))
                (flatten r))
      (reselect r (path n) (flatten r)
         (list_SetItems (m_list m) (flatten r)))).
  { unfold keyEnter. rewrite Hs, Hn, Hd.
    cbn [childrenLoaded setExpanded]. rewrite Hl, andb_false_r.
    reflexivity. }
  rewrite E. cbv zeta.
  cbn [root watcher flatItems set_list set_flatItems set_watcher set_root].
  repeat split. intros fs' v.
  rewrite <- generatePrompt_forget, <- (generatePrompt_forget fs' (root m)).
  rewrite forgetExpanded_updateAt; auto.
  intros c Hc. assert (c = n) by congruence. subst c.
  apply forgetExpanded_setExpanded.
Qed.

End EnterLoaded.

Lemma enter_loaded_directory_witness :
  exists m : @model Simple.widgets,
    Simple.session "/p" Example.fs0 [(Example.fs0, KeyMsg "enter")]
    = Some (m, false) /\
    watcher (keyEnter Example.fsGone m) = watcher m /\
    generatePrompt Example.fs0 (root (keyEnter Example.fsGone m)) ""
    = generatePrompt Example.fs0 (root m) "".
Proof.
  eexists. split; [vm_compute; reflexivity|].
  match goal with
  | |- watcher (keyEnter _ ?m) = _ /\ _ =>
      destruct (enter_loaded_directory Example.fsGone m (mkItem [0] 0)
                  (mkNode "/p/a" true
                     [mkNode "/p/a/x.txt" false [] false false false;
                      mkNode "/p/a/y.bin" false [] false false false]
                     true false true)
                  eq_refl eq_refl eq_refl eq_refl) as (_ & H2 & _ & H4)
  end.
  split; [exact H2|apply H4].
Defined.

(** ** The start of a session *)


Section Start.
Context {W : Widgets}.


End Start.

(** ** Paths of loaded children *)

(** X12.  The path [loadChildren] gives a child comes apart again.
    For a directory whose path is a clean absolute path (a separator
    before each of its elements, none of them empty, [.] or [..], or
    the root) and an entry name that is not empty, [.] or [..] and has
    no separator, the child's path is the directory's path with the
    name as one more element; its last element is the entry name (what
    the row shows as title and filters on) and its directory is the
    parent's path.  So in a well-formed tree a change event on the
    child's path is routed to a node with the parent's path. *)
Theorem child_path_round_trip (root : node) (r : addr) (n : node)
    (es : list string) (f : dirEntry) :
  wf root = true -> nodeAt root r = Some n ->
  path n = absPath es -> Forall entryName es -> entryName (Name f) ->
  let child := freshChild (path n) f in
  path child = absPath (es ++ [Name f]) /\
  Str.Base (path child) = Name f /\
  Str.Dir (path child) = path n /\
  (forall r' i, nodeAt r' (item_node i) = Some child ->
     Title r' i = Some (Name f) /\ FilterValue r' i = Some (Name f) /\
     Description r' i = Some (path child)) /\
  (exists a c, findNode root [] (Str.Dir (path child)) = Some a /\
               nodeAt root a = Some c /\ path c = path n).
Proof.
  intros Hw Hn Hp Hes He child.
  assert (HP : path child = absPath (es ++ [Name f])).
  { change (path child) with (Str.Join (path n) (Name f)).
    rewrite Hp. now apply Join_absPath. }
  assert (HB : Str.Base (path child) = Name f).
  { rewrite HP. now apply Base_absPath. }
  assert (HD : Str.Dir (path child) = path n).
  { rewrite HP, Hp. now apply Dir_absPath. }
  split; [exact HP|]. split; [exact HB|]. split; [exact HD|]. split.
  - intros r' i Hi. unfold Title, FilterValue, Description. rewrite Hi.
    cbn [option_map]. now rewrite HB.
  - rewrite HD.
    destruct (findNode_complete r root n [] Hw Hn) as [a Ha].
    destruct (findNode_sound _ _ _ _ Ha) as (r' & c' & -> & Hr & Hp').
    exists r', c'. auto.
Qed.

Lemma child_path_round_trip_witness :
  Str.Join "/p/a" "x.txt" = "/p/a/x.txt"%string /\
  Str.Base "/p/a/x.txt" = "x.txt"%string /\
  Str.Dir "/p/a/x.txt" = "/p/a"%string.
Proof.
  destruct (child_path_round_trip Example.tree [0] Example.dirA
              ["p"%string; "a"%string] (mkEntry "x.txt" false))
    as (H0 & H1 & H2 & _).
  - reflexivity.
  - reflexivity.
  - reflexivity.
  - repeat constructor; apply entryNameb_ok; reflexivity.
  - apply entryNameb_ok. reflexivity.
  - split; [exact H0|]. split; [exact H1|exact H2].
Defined.

(** ** [hasSelected] *)

(** X13.  [hasSelected] answers true only when the subtree holds a
    selected node that is not a directory, and in a well-formed tree
    exactly then.  A selected directory does not count: a subtree whose
    only selected nodes are directories has no selected content. *)
Theorem hasSelected_exact (n : node) :
  (hasSelected n = true ->
   exists d, In d (subtree n) /\ selected d = true /\ isDir d = false) /\
  (wf n = true ->
   (exists d, In d (subtree n) /\ selected d = true /\ isDir d = false) ->
   hasSelected n = true) /\
  (wf n = true ->
   (forall d, In d (subtree n) -> selected d = true -> isDir d = true) ->
   hasSelected n = false).
Proof.
  assert (Hs : forall d, selFile d = true <->
                 selected d = true /\ isDir d = false).
  { intros d. unfold selFile. rewrite andb_true_iff, negb_true_iff. tauto. }
  split; [|split].
  - intros H. apply hasSelected_sound in H as (d & Hd & Sd).
    exists d. split; auto. now apply Hs.
  - intros Hw (d & Hd & Sd). apply hasSelected_complete; auto.
    exists d. split; auto. now apply Hs.
  - intros Hw H. destruct (hasSelected n) eqn:E; auto.
    apply hasSelected_sound in E as (d & Hd & Sd).
    apply Hs in Sd as [S1 S2]. rewrite (H d Hd S1) in S2. discriminate.
Qed.

Lemma hasSelected_exact_witness :
  hasSelected Example.tree = true /\ hasSelected Example.nested = false.
Proof.
  destruct (hasSelected_exact Example.tree) as (_ & H2 & _).
  destruct (hasSelected_exact Example.nested) as (_ & _ & H3).
  split.
  - apply H2; [reflexivity|].
    exists (Example.file "/p/a/y.bin" true). repeat split.
    cbn. auto.
  - apply H3; [reflexivity|]. intros d Hd. cbn in Hd.
    repeat (destruct Hd as [<-|Hd]; [reflexivity|]). destruct Hd.
Defined.

(** ** The rows of the list *)

Lemma visible_node r : forall n,
  visible n r = true -> exists c, nodeAt n r = Some c.
Proof.
  induction r as [|i r IH]; intros n H; cbn [visible nodeAt] in *; eauto.
  apply andb_true_iff in H as [_ H].
  destruct (nth_error (children n) i); [auto|discriminate].
Qed.

Lemma visible_prefixes r : forall n,
  visible n r = true <->
  (exists c, nodeAt n r = Some c) /\
  (forall b i s, r = b ++ i :: s ->
     exists c, nodeAt n b = Some c /\ expanded c = true).
Proof.
  induction r as [|i r IH]; intros n.
  - cbn [visible nodeAt]. split; [|reflexivity]. intros _. split; eauto.
    intros b j s E. destruct b; discriminate.
  - split.
    + intros H. split; [now apply visible_node|].
      intros b j s E. rewrite E in H. eapply visible_expanded; eauto.
    + intros [(c & Hc) H]. cbn [visible nodeAt] in *.
      destruct (H [] i r eq_refl) as (c0 & E0 & Ex). cbn in E0.
      injection E0 as <-. rewrite Ex. cbn [andb].
      destruct (nth_error (children n) i) as [ci|] eqn:Ei; try discriminate.
      apply IH. split; eauto. intros b j s ->.
      destruct (H (i :: b) j s eq_refl) as (c' & Hc' & Ex').
      cbn [nodeAt] in Hc'. rewrite Ei in Hc'. eauto.
Qed.

Lemma NoDup_flatMapI {A B} (f : nat -> A -> list B) cs : forall k,
  (forall j c, nth_error cs j = Some c -> NoDup (f (k + j) c)) ->
  (forall j1 j2 c1 c2 x, j1 <> j2 ->
     nth_error cs j1 = Some c1 -> nth_error cs j2 = Some c2 ->
     In x (f (k + j1) c1) -> ~ In x (f (k + j2) c2)) ->
  NoDup (flatMapI f cs k).
Proof.
  induction cs as [|c cs IH]; intros k Hn Hd; cbn [flatMapI].
  - constructor.
  - apply NoDup_app.
    + specialize (Hn 0 c eq_refl). now rewrite Nat.add_0_r in Hn.
    + apply IH.
      * intros j c' E. specialize (Hn (S j) c' E).
        now rewrite Nat.add_succ_r in Hn.
      * intros j1 j2 c1 c2 x Hj E1 E2.
        specialize (Hd (S j1) (S j2) c1 c2 x).
        rewrite !Nat.add_succ_r in Hd. apply Hd; auto.
    + intros x Hx Hin. apply In_flatMapI in Hin as (j & c' & E & Hin).
      apply (Hd 0 (S j) c c' x); auto.
      * now rewrite Nat.add_0_r.
      * now rewrite Nat.add_succ_r.
Qed.

Lemma preorder_disjoint here d1 d2 j1 j2 c1 c2 x :
  j1 <> j2 ->
  In x (preorder c1 (here ++ [j1]) d1) ->
  ~ In x (preorder c2 (here ++ [j2]) d2).
Proof.
  intros Hj H1 H2.
  apply preorder_In in H1 as (r1 & -> & _).
  apply preorder_In in H2 as (r2 & E & _).
  injection E as E _. rewrite <- !app_assoc in E.
  apply app_inv_head in E. cbn in E. congruence.
Qed.

Lemma NoDup_preorder : forall n here d, NoDup (preorder n here d).
Proof.
  induction n as [n IH] using node_ind. intros here d.
  rewrite preorder_unfold. constructor.
  - destruct (expanded n); [|intros []]. intros H.
    apply In_flatMapI in H as (j & c & _ & H).
    apply preorder_In in H as (r & E & _). injection E as E _.
    apply (f_equal (@List.length nat)) in E.
    rewrite !length_app in E. cbn in E. lia.
  - destruct (expanded n); [|constructor].
    apply NoDup_flatMapI.
    + intros j c E. rewrite Forall_forall in IH.
      apply IH. eapply nth_error_In; eauto.
    + intros j1 j2 c1 c2 x Hj _ _. cbn [Nat.add].
      now apply preorder_disjoint.
Qed.

(** X14.  The rows of [flatten] are the nodes below the root whose
    ancestors below the root are all expanded, each once, at the depth
    of its address counted from the children of the root; the
    [expanded] flag of the root plays no part. *)
Theorem flatten_rows (root : node) :
  NoDup (flatten root) /\
  (forall it,
     In it (flatten root) <->
     item_node it <> [] /\
     item_depth it = List.length (item_node it) - 1 /\
     (exists n, nodeAt root (item_node it) = Some n) /\
     (forall b j s, item_node it = b ++ j :: s -> b <> [] ->
        exists c, nodeAt root b = Some c /\ expanded c = true)) /\
  (forall b, flatten (setExpanded root b) = flatten root).
Proof.
  split; [|split].
  - rewrite flatten_flattenSpec. unfold flattenSpec.
    apply NoDup_flatMapI.
    + intros j c _. apply NoDup_preorder.
    + intros j1 j2 c1 c2 x Hj _ _. cbn [Nat.add].
      apply (preorder_disjoint [] 0 0 j1 j2 c1 c2 x Hj).
  - intros it. rewrite flatten_In. destruct it as [a d]. cbn [item_node item_depth].
    destruct a as [|i r].
    + cbn [listed]. split; [intros [_ H]; discriminate|].
      intros [H _]. congruence.
    + cbn [listed nodeAt].
      destruct (nth_error (children root) i) as [ci|] eqn:Ei.
      * rewrite visible_prefixes. split.
        -- intros [E [Hc Hb]]. injection E as ->.
           repeat split; auto; [discriminate|].
           intros b j s Eb Hne. destruct b as [|i' b]; [congruence|].
           injection Eb as <- ->. cbn [nodeAt]. rewrite Ei. eauto.
        -- intros (_ & -> & Hc & Hb). repeat split; auto.
           intros b j s ->. specialize (Hb (i :: b) j s eq_refl).
           cbn [nodeAt] in Hb. rewrite Ei in Hb. apply Hb. discriminate.
      * split; [intros [_ H]; discriminate|].
        intros (_ & _ & [n Hn] & _). discriminate.
  - intros b. reflexivity.
Qed.

(** ** The cursor after ["enter"] *)

Lemma visible_updateAt r : forall n f c,
  nodeAt n r = Some c -> visible (updateAt n r f) r = visible n r.
Proof.
  induction r as [|i r IH]; intros n f c H; cbn [nodeAt] in H; auto.
  cbn [updateAt].
  destruct (nth_error (children n) i) as [ci|] eqn:E; try discriminate.
  cbn [visible expanded children setChildren].
  rewrite (nth_error_setNth_eq _ _ _ _ E), E. f_equal. eapply IH; eauto.
Qed.

Lemma listed_updateAt root a f c :
  nodeAt root a = Some c -> listed (updateAt root a f) a = listed root a.
Proof.
  destruct a as [|i r]; auto. cbn [nodeAt updateAt listed].
  destruct (nth_error (children root) i) as [ci|] eqn:E; try discriminate.
  intros H. cbn [children setChildren].
  rewrite (nth_error_setNth_eq _ _ _ _ E). eapply visible_updateAt; eauto.
Qed.

Section Cursor.
Context {W : Widgets}.

(** X15.  After ["enter"] on a listed directory the row of that
    directory is still listed, and the list is told to select a row
    that exists and carries the path of that directory. *)
Theorem enter_keeps_cursor (fs : filesystem) (m : model) (sel : item)
    (n : node) :
  list_SelectedItem (m_list m) = Some sel ->
  In sel (flatten (root m)) ->
  nodeAt (root m) (item_node sel) = Some n -> isDir n = true ->
  In sel (flatItems (keyEnter fs m)) /\
  itemPath (root (keyEnter fs m)) sel = Some (path n) /\
  exists idx it,
    m_list (keyEnter fs m)
    = list_Select (list_SetItems (m_list m) (flatItems (keyEnter fs m))) idx /\
    nth_error (flatItems (keyEnter fs m)) idx = Some it /\
    itemPath (root (keyEnter fs m)) it = Some (path n).
Proof.
  intros Hs Hin Hn Hd. unfold keyEnter. rewrite Hs, Hn, Hd.
  set (n1 := setExpanded n (negb (expanded n))).
  assert (Hp : path (fst (if expanded n1 && negb (childrenLoaded n1)
                          then loadChildren fs n1 (watcher m)
                          else (n1, watcher m))) = path n).
  { destruct (expanded n1 && negb (childrenLoaded n1)); auto.
    now destruct (loadChildren_own fs n1 (watcher m)) as (-> & _). }
  destruct (if expanded n1 && negb (childrenLoaded n1)
            then loadChildren fs n1 (watcher m) else (n1, watcher m))
    as [n2 w]. cbn [fst] in Hp.
  set (r := updateAt (root m) (item_node sel) (fun _ => n2)).
  cbn [flatItems root m_list set_list set_flatItems set_watcher set_root].
  assert (Hsel : In sel (flatten r)).
  { apply flatten_In. apply flatten_In in Hin as [E L]. split; auto.
    unfold r. now rewrite (listed_updateAt _ _ _ _ Hn). }
  assert (Hpath : itemPath r sel = Some (path n)).
  { unfold itemPath, r. rewrite (nodeAt_updateAt_here _ _ _ _ Hn).
    cbn. now rewrite Hp. }
  split; [exact Hsel|]. split; [exact Hpath|].
  unfold reselect.
  destruct (In_nth_error _ _ Hsel) as [j Hj].
  destruct (rangeFind_exists
              (fun idx it =>
                 match itemPath r it with
                 | Some p => if String.eqb p (path n) then Some idx else None
                 | None => None
                 end) (flatten r) 0 j sel j Hj) as [idx Hidx].
  { cbn [Nat.add]. rewrite Hpath. now rewrite String.eqb_refl. }
  rewrite Hidx.
  apply rangeFind_Some in Hidx as (j' & it & Hj' & Hb). cbn [Nat.add] in Hb.
  destruct (itemPath r it) as [p|] eqn:Ep; try discriminate.
  destruct (String.eqb p (path n)) eqn:Eq; try discriminate.
  injection Hb as <-. apply String.eqb_eq in Eq. subst p.
  exists j', it. auto.
Qed.

End Cursor.

Lemma enter_keeps_cursor_witness :
  exists m : @model Simple.widgets,
    newModel (Some "/p"%string) Example.fs0 = Some m /\
    In (mkItem [0] 0) (flatItems (keyEnter Example.fs0 m)) /\
    itemPath (root (keyEnter Example.fs0 m)) (mkItem [0] 0)
    = Some "/p/a"%string.
Proof.
  eexists. split; [vm_compute; reflexivity|].
  match goal with
  | |- In _ (flatItems (keyEnter _ ?m)) /\ _ =>
      destruct (enter_keeps_cursor Example.fs0 m (mkItem [0] 0)
                  (mkNode "/p/a" true [] false false false))
        as (H1 & H2 & _)
  end.
  - reflexivity.
  - vm_compute. auto.
  - reflexivity.
  - reflexivity.
  - split; [exact H1|exact H2].
Defined.
